(** * serve-npm-tarballs: the bounded concurrency runner, the tarball reader
      and the two-phase registry orchestration

    The development follows the TypeScript source function by function:

    - [Runner]: [promiseAllConcurrent], as a transition system over the
      promises it creates and the reactions the event loop runs;
    - [Tarball]: [extractFileFromTarball];
    - [Orchestrator]: [main], [runWithServer], [makeVerdaccioConfig] and
      [runVerdaccio], as a small trace-and-completion monad. *)

From Stdlib Require Import QArith Qminmax Lia.
From Stdlib Require Import Strings.Ascii Strings.String Strings.Byte.
From stdpp Require Import base option list gmap strings pretty.

Open Scope nat_scope.

(** ** The bounded concurrency runner

    [promiseAllConcurrent] as a transition system. A state holds the
    variables of its closure and what has become of the promises; the
    environment chooses which operation in flight settles next, and when
    the event loop runs the oldest reaction in its queue.

    The thunks are asynchronous functions: a call returns a promise and
    never throws, and a promise settles once. A rejection that nothing
    handles is only reported, as Node did at the time of the source. A
    promise made by [.then] is taken to be rejected in the same instant as
    the promise it follows. *)

Module Runner.

(** How a promise ends. *)
Inductive settlement (A E : Type) : Type :=
| Fulfilled (a : A)
| Rejected (e : E).
Arguments Fulfilled {A E} a.
Arguments Rejected {A E} e.

(** *** The limit

    JavaScript numbers are modelled as rationals: [os.cpus().length / 2]
    is a half-integer, and [Array.prototype.slice] truncates its bound. *)

(** [Math.max(a, b)] *)
Definition Math_max (a b : Q) : Q := if Qle_bool a b then b else a.

(** [Math.max(2, os.cpus().length / 2)] *)
Definition default_limit (cpus : nat) : Q :=
  Math_max 2 (inject_Z (Z.of_nat cpus) / 2).

(** [n || Math.max(2, os.cpus().length / 2)]: an absent limit and the
    number zero are both falsy. *)
Definition effective_limit (n : option Q) (cpus : nat) : Q :=
  match n with
  | Some q => if Qeq_bool q 0 then default_limit cpus else q
  | None => default_limit cpus
  end.

(** [ToIntegerOrInfinity]: truncation towards zero. *)
Definition to_integer (q : Q) : Z := Z.quot (Qnum q) (Zpos (Qden q)).

(** The length of [thunks.slice(0, n)] for an array of [len] elements: a
    negative bound counts from the end of the array. *)
Definition slice_end (len : nat) (n : Q) : nat :=
  let r := to_integer n in
  if (r <? 0)%Z then Z.to_nat (Z.max (Z.of_nat len + r) 0)
  else Z.to_nat (Z.min r (Z.of_nat len)).

Section Model.
Context {A E : Type}.

(** A deferred operation is named by its position in [thunks]; what is
    known of it is the settlement its promise reaches when the
    environment completes it. *)
Abbreviation thunk := (settlement A E).

(** The variables of the closure ([next], [resolved], and whether [ok]
    was called and with what), the state of the promises made so far and
    the queue of reactions to run. *)
Record state : Type := mkState {
  next : nat;
  resolved : list nat;
  settled : list nat;
  jobs : list nat;
  handed : option (list nat);
  result : option (settlement (list A) E)
}.

(** [resolved.push(thunks[i]())] *)
Definition launch (i : nat) (s : state) : state :=
  mkState (next s) (resolved s ++ [i]) (settled s) (jobs s) (handed s) (result s).

Definition launched (s : state) (i : nat) : bool := bool_decide (i ∈ resolved s).

(** Launched and not yet settled. *)
Definition in_flight (s : state) (i : nat) : bool :=
  launched s i && negb (bool_decide (i ∈ settled s)).

Definition unsettled (s : state) : list nat :=
  filter (λ i, i ∉ settled s) (resolved s).

Variable thunks : list thunk.
Variable n : option Q.
Variable cpus : nat.

(** [initial.length] *)
Definition initial_length : nat :=
  slice_end (length thunks) (effective_limit n cpus).

(** [initial], by position. *)
Definition initial : list nat := take initial_length (seq 0 (length thunks)).

(** The synchronous part of the call: the executor of the returned
    promise launches every element of [initial]. *)
Definition start : state :=
  foldl (λ s i, launch i s) (mkState (length initial) [] [] [] None None) initial.

(** The promise stored at [resolved[i]]. For an operation of [initial]
    it is the operation's own promise; for a later one it is the promise
    made by [.then], fulfilled once its reaction has run and rejected
    with the operation. *)
Definition slot (s : state) (i : nat) : option (settlement A E) :=
  if bool_decide (i ∈ settled s) then
    match thunks !! i with
    | Some (Rejected e) => Some (Rejected e)
    | Some (Fulfilled a) =>
        if bool_decide (i < initial_length) || negb (bool_decide (i ∈ jobs s))
        then Some (Fulfilled a) else None
    | None => None
    end
  else None.

(** [Promise.all]: rejected with the first rejection on hand, fulfilled
    with every value in the order of the array once all are there. *)
Fixpoint first_rejection (ps : list (option (settlement A E))) : option E :=
  match ps with
  | [] => None
  | Some (Rejected e) :: _ => Some e
  | _ :: ps => first_rejection ps
  end.

Fixpoint all_values (ps : list (option (settlement A E))) : option (list A) :=
  match ps with
  | [] => Some []
  | Some (Fulfilled a) :: ps => cons a <$> all_values ps
  | _ :: _ => None
  end.

Definition Promise_all (ps : list (option (settlement A E)))
  : option (settlement (list A) E) :=
  match first_rejection ps with
  | Some e => Some (Rejected e)
  | None => Fulfilled <$> all_values ps
  end.

(** The returned promise follows the one given to [ok]; it settles once. *)
Definition refresh (s : state) : state :=
  match handed s, result s with
  | Some snapshot, None =>
      mkState (next s) (resolved s) (settled s) (jobs s) (handed s)
              (Promise_all (slot s <$> snapshot))
  | _, _ => s
  end.

(** [runNext]; a second call of [ok] has no effect. *)
Definition runNext (s : state) : state :=
  if decide (next s = length thunks) then
    match handed s with
    | None => mkState (next s) (resolved s) (settled s) (jobs s)
                      (Some (resolved s)) (result s)
    | Some _ => s
    end
  else
    launch (next s)
      (mkState (S (next s)) (resolved s) (settled s) (jobs s) (handed s) (result s)).

(** What happens next is chosen by the environment: an operation in
    flight settles, or the event loop runs the oldest queued reaction. *)
Inductive event : Type :=
| Settle (i : nat)
| Tick.

(** The operation [i] settles. Only the fulfilment has a reaction:
    [res.then(y => { runNext(); return y; })] has no second argument. *)
Definition settle (i : nat) (s : state) : option state :=
  if in_flight s i then
    match thunks !! i with
    | Some (Fulfilled _) =>
        Some (refresh (mkState (next s) (resolved s) (settled s ++ [i])
                               (jobs s ++ [i]) (handed s) (result s)))
    | Some (Rejected _) =>
        Some (refresh (mkState (next s) (resolved s) (settled s ++ [i])
                               (jobs s) (handed s) (result s)))
    | None => None
    end
  else None.

Definition tick (s : state) : option state :=
  match jobs s with
  | [] => None
  | _ :: rest =>
      Some (refresh (runNext (mkState (next s) (resolved s) (settled s) rest
                                      (handed s) (result s))))
  end.

Definition step (s : state) (ev : event) : option state :=
  match ev with
  | Settle i => settle i s
  | Tick => tick s
  end.

Fixpoint run (s : state) (evs : list event) : option state :=
  match evs with
  | [] => Some s
  | ev :: evs => step s ev ≫= λ s', run s' evs
  end.

(** Nothing is left to happen. *)
Definition quiescent (s : state) : Prop := ∀ ev, step s ev = None.


(** *** Invariants of a run *)

(** The shape of the closure's variables and of the promises. *)
Record wf (s : state) : Prop := {
  wf_resolved : resolved s = seq 0 (next s);
  wf_next : next s ≤ length thunks;
  wf_settled_nodup : NoDup (settled s);
  wf_settled_launched : ∀ i, i ∈ settled s → i < next s;
  wf_budget : next s + length (jobs s) ≤ initial_length + length (settled s);
  wf_handed : ∀ snapshot, handed s = Some snapshot →
    snapshot = seq 0 (length thunks) ∧ next s = length thunks
}.

(** The result on hand was earned: a fulfilment holds the value of every
    operation, in the order of [thunks], and every operation has settled;
    a rejection holds the reason of an operation that failed. *)
Definition earned (s : state) (r : settlement (list A) E) : Prop :=
  match r with
  | Fulfilled vs =>
      thunks = Fulfilled <$> vs ∧ ∀ i, i < length thunks → i ∈ settled s
  | Rejected e => ∃ i, i ∈ settled s ∧ thunks !! i = Some (Rejected e)
  end.

Record sound (s : state) : Prop := {
  sound_waiting : handed s = None → result s = None;
  sound_earned : ∀ r, result s = Some r → earned s r
}.

(** The returned promise is up to date with the promises it follows. *)
Definition current (s : state) : Prop :=
  ∀ snapshot, handed s = Some snapshot → result s = None →
    Promise_all (slot s <$> snapshot) = None.

(** Twice the operations left to settle, plus the reactions left to run. *)
Definition fuel (s : state) : nat :=
  2 * (length thunks - length (settled s)) + length (jobs s).

(** As long as [ok] has not been called, every settlement is answered by
    exactly one reaction, and every reaction by exactly one launch. *)
Definition balanced (s : state) : Prop :=
  handed s = None →
  next s + length (jobs s) = initial_length + length (settled s).

(** The operation at [i] fails. *)
Definition failed (i : nat) : bool :=
  match thunks !! i with
  | Some (Rejected _) => true
  | _ => false
  end.

(** The number of operations that fail. *)
Definition failures : nat :=
  length (filter (λ i, failed i = true) (seq 0 (length thunks))).

(** With failures: as long as [ok] has not been called, the operations
    launched and the reactions waiting are as many as were launched at
    first and have been fulfilled since. *)
Definition accounted (s : state) : Prop :=
  handed s = None →
  next s + length (jobs s) + length (filter (λ i, failed i = true) (settled s))
  = initial_length + length (settled s).

End Model.

Arguments state : clear implicits.
Arguments event : clear implicits.
Arguments wf_resolved {A E thunks n cpus} s _.
Arguments wf_next {A E thunks n cpus} s _.
Arguments wf_settled_nodup {A E thunks n cpus} s _.
Arguments wf_settled_launched {A E thunks n cpus} s _.
Arguments wf_budget {A E thunks n cpus} s _.
Arguments wf_handed {A E thunks n cpus} s _.
Arguments sound_waiting {A E thunks} s _.
Arguments sound_earned {A E thunks} s _.

(** The default limit in the words of the specification: the larger of two
    and half the number of processing units. *)
Definition spec_default_limit (cpus : nat) : Q := Qmax 2 (Z.of_nat cpus # 2).

(** A limit that is absent, or a number of at least one. *)
Definition proper_limit (n : option Q) : Prop :=
  match n with
  | Some L => (1 <= L)%Q
  | None => True
  end.

End Runner.

(** ** The tarball metadata extractor *)

Module Tarball.

Abbreviation Buffer := (list byte).

(** An entry as the archive reader hands it over: its path, and its contents
    in the chunks of the [data] events. *)
Record ReadEntry : Type := mkEntry {
  path : string;
  chunks : list Buffer
}.

(** What [tar.t] finds in a file: the entries in the order of the archive,
    or a failure to open or to parse it. *)
Inductive archive : Type :=
| Unreadable (message : string)
| Entries (entries : list ReadEntry).

(** A run that may throw. *)
Inductive fallible (X : Type) : Type :=
| Done (x : X)
| Failed (message : string).
Arguments Done {X} x.
Arguments Failed {X} message.

(** [Buffer.concat] *)
Definition Buffer_concat (data : list Buffer) : Buffer := mjoin data.

(** [onentry]: the chunks of an entry whose path is [filePath] are pushed
    on [data]. *)
Definition onentry (filePath : string) (data : list Buffer) (entry : ReadEntry)
  : list Buffer :=
  if String.eqb (path entry) filePath then data ++ chunks entry else data.

(** [extractFileFromTarball]; the file system is the function [files]. *)
Definition extractFileFromTarball (files : string → archive)
    (tarball filePath : string) : fallible Buffer :=
  match files tarball with
  | Unreadable message => Failed message
  | Entries entries => Done (Buffer_concat (foldl (onentry filePath) [] entries))
  end.

(** The bytes of one entry. *)
Definition contents (entry : ReadEntry) : Buffer := Buffer_concat (chunks entry).

End Tarball.

(** ** The orchestrator and the front end

    A process is modelled by what it does that can be seen from outside,
    in order, and by how it ends. What the file system, the registry, the
    subprocesses and the signals do is given by a [world]. The registry is
    taken to come up and listen when it is started; [path.join] of the
    working directory and a file name is the two joined by a slash; of
    [process.env] only the variables the program adds are kept. *)

Module Orchestrator.
Import Tarball.

(** *** Text *)

Definition LF : string := String "010"%char "".

(** [Array.prototype.join] *)
Definition join (sep : string) (parts : list string) : string := String.concat sep parts.

(** [String.prototype.endsWith] *)
Definition endsWith (s suffix : string) : bool :=
  let n := String.length s in
  let m := String.length suffix in
  (m <=? n) && String.eqb (substring (n - m) m s) suffix.

(** The lines of a text, a line ending at each line feed. *)
Fixpoint lines (s : string) : list string :=
  match s with
  | "" => []
  | String c rest =>
      if Ascii.eqb c "010"%char then "" :: lines rest
      else match lines rest with
           | [] => [String c ""]
           | l :: ls => String c l :: ls
           end
  end.

Fixpoint no_line_feed (s : string) : bool :=
  match s with
  | "" => true
  | String c rest => negb (Ascii.eqb c "010"%char) && no_line_feed rest
  end.

(** *** Configuration *)

(** A package access rule of the registry. *)
Record rule : Type := mkRule {
  access : string;
  publish : string;
  proxy : option string
}.

Record uplink : Type := mkUplink {
  url : string;
  cache : bool
}.

Record log_target : Type := mkLog {
  log_type : string;
  log_path : option string;
  log_format : string;
  log_level : string
}.

(** *** Objects

    The registry goes through the keys of [packages] in their order, so
    an object is kept as [Object.keys] shows it: its own keys with their
    values, the array indices first, in ascending order, then the other
    keys in the order in which they were made; and with it the prototype
    that an assignment to [__proto__] has given it, if any. *)
Record object (V : Type) : Type := mkObject {
  own : list (string * V);
  proto : option V
}.
Arguments mkObject {V} own proto.
Arguments own {V} o.
Arguments proto {V} o.

Definition digit (c : ascii) : option N :=
  let x := N_of_ascii c in
  if (48 <=? x)%N && (x <=? 57)%N then Some (x - 48)%N else None.

Fixpoint digits (acc : N) (s : string) : option N :=
  match s with
  | "" => Some acc
  | String c rest =>
      match digit c with
      | Some d => digits (10 * acc + d)%N rest
      | None => None
      end
  end.

(** An array index: the canonical numeral of an integer below [2^32 - 1]. *)
Definition array_index (k : string) : option N :=
  match k with
  | "" => None
  | _ =>
      match digits 0 k with
      | Some x =>
          if String.eqb (pretty x) k && (x <? 4294967295)%N then Some x else None
      | None => None
      end
  end.

(** A key that is made goes before the key [k'] that is there. *)
Definition precedes (k k' : string) : bool :=
  match array_index k, array_index k' with
  | Some i, Some j => (i <? j)%N
  | Some _, None => true
  | None, _ => false
  end.

Fixpoint get {V : Type} (k : string) (o : list (string * V)) : option V :=
  match o with
  | [] => None
  | (k', v) :: rest => if String.eqb k' k then Some v else get k rest
  end.

(** The value of a key that is there is replaced where it stands. *)
Fixpoint overwrite {V : Type} (k : string) (v : V) (o : list (string * V))
  : list (string * V) :=
  match o with
  | [] => []
  | (k', v') :: rest =>
      if String.eqb k' k then (k', v) :: rest else (k', v') :: overwrite k v rest
  end.

(** A key that is not there is made at its place in the order. *)
Fixpoint create {V : Type} (k : string) (v : V) (o : list (string * V))
  : list (string * V) :=
  match o with
  | [] => [(k, v)]
  | (k', v') :: rest =>
      if precedes k k' then (k, v) :: (k', v') :: rest
      else (k', v') :: create k v rest
  end.

Definition define {V : Type} (k : string) (v : V) (o : list (string * V))
  : list (string * V) :=
  match get k o with
  | Some _ => overwrite k v o
  | None => create k v o
  end.

(** [obj[k] = v], for a value [v] that is an object: the setter of
    [__proto__] makes [v] the prototype and no key is made. *)
Definition assign {V : Type} (k : string) (v : V) (obj : object V) : object V :=
  if String.eqb k "__proto__" then mkObject (own obj) (Some v)
  else mkObject (define k v (own obj)) (proto obj).

(** [Object.keys(obj)] *)
Definition own_keys {V : Type} (obj : object V) : list string := (own obj).*1.

(** The value of an own key. *)
#[global] Instance object_lookup {V : Type} : Lookup string V (object V) :=
  λ k obj, get k (own obj).

Record verdaccio_config : Type := mkConfig {
  storage : string;
  uplinks : gmap string uplink;
  max_body_size : string;
  publish_allow_offline : bool;
  logs : list log_target;
  packages : object rule
}.

(** The options as [yargs] parses them; [command] is [argv._]. *)
Record options : Type := mkOptions {
  verbose : nat;
  directory : option string;
  glob : option string;
  log : option string;
  port : N;
  opt_log_level : string;
  hide_upstream : list string;
  hide_tarballs : bool;
  daemon : bool;
  command : list string
}.

(** Of a manifest only the name is used. *)
Record manifest : Type := mkManifest {
  name : string
}.

Record TarballInfo : Type := mkTarballInfo {
  tarballFile : string;
  packageJson : manifest
}.

(** *** Effects *)

(** What a process does that can be seen from outside, in order;
    [PublishAll] marks the call of [promiseAllConcurrent] on the
    publications of the tarballs named. *)
Inductive event : Type :=
| Stderr (text : string)
| Stdout (text : string)
| ExitCode (code : nat)
| WriteFile (file content : string)
| Rmdir (dir : string)
| StartVerdaccio (config : verdaccio_config) (p : N)
| Listen (p : N)
| Close (p : N)
| PublishAll (tarballs : list string)
| IgnoreSIGINT
| Spawn (cmd : list string) (vars : list (string * string))
| Send (message : string)
| Fork
| Disconnect
| Unref.

(** How an asynchronous computation ends, if it does. *)
Inductive completion (X : Type) : Type :=
| Returns (x : X)
| Throws (message : string)
| Pending.
Arguments Returns {X} x.
Arguments Throws {X} message.
Arguments Pending {X}.

(** A computation: what it did, and how it ended. *)
Definition M (X : Type) : Type := list event * completion X.

#[global] Instance M_ret : MRet M := λ X x, ([], Returns x).

#[global] Instance M_bind : MBind M := λ X Y f m,
  match m with
  | (t, Returns x) => let '(t', r) := f x in (t ++ t', r)
  | (t, Throws message) => (t, Throws message)
  | (t, Pending) => (t, Pending)
  end.

Definition emit (ev : event) : M unit := ([ev], Returns tt).

Definition throw {X : Type} (message : string) : M X := ([], Throws message).

Definition lift {X : Type} (r : fallible X) : M X :=
  match r with
  | Done x => mret x
  | Failed message => throw message
  end.

(** [try { m } catch (e) { handler(e.message) }] *)
Definition try_catch {X : Type} (m : M X) (handler : string → M X) : M X :=
  match m with
  | (t, Throws message) => let '(t', r) := handler message in (t ++ t', r)
  | _ => m
  end.

(** [try { m } finally { cleanup }], for a cleanup that does not throw. *)
Definition finally {X : Type} (m : M X) (cleanup : M unit) : M X :=
  match m with
  | (t, Pending) => (t, Pending)
  | (t, r) =>
      match cleanup with
      | (t', Returns _) => (t ++ t', r)
      | (t', Throws message) => (t ++ t', Throws message)
      | (t', Pending) => (t ++ t', Pending)
      end
  end.

Definition trace {X : Type} (m : M X) : list event := m.1.

(** *** The world outside *)

Record world : Type := mkWorld {
  mkdtemp : fallible string;
  glob_files : fallible (list string);
  readdir : fallible (list string);
  resolve : string → string → string;
  files : string → archive;
  JSON_parse : string → fallible manifest;
  writeFile : fallible unit;
  addr_host : string;
  npm_publish : string → completion unit;
  os_cpus : nat;
  finish_order : list nat;
  subprocess : completion unit;
  signalled : bool;
  rmdir : fallible unit;
  pid : N
}.

(** *** The publications

    [promiseAllConcurrent], called without a limit, over one [npm publish]
    for each tarball. The world says how the publication of a tarball
    ends ([npm_publish]), how many processing units there are, and which
    of the publications that run at the same time ends first: the first in
    [finish_order], or else in the order of the tarballs. A reaction that
    waits runs before the next subprocess ends. *)

(** How the publications end, in the order of the tarballs. *)
Definition publications (w : world) (tarballs : list TarballInfo)
  : list (completion unit) :=
  (λ t, npm_publish w (tarballFile t)) <$> tarballs.

(** What the runner is given for them. A publication that never ends is
    never completed, and what stands for it here is not used. *)
Definition publish_thunks (outcomes : list (completion unit))
  : list (Runner.settlement unit string) :=
  (λ outcome, match outcome with
              | Throws message => Runner.Rejected message
              | _ => Runner.Fulfilled tt
              end) <$> outcomes.

(** The subprocess of the publication at [i] ends. *)
Definition ends (outcomes : list (completion unit)) (i : nat) : bool :=
  match outcomes !! i with
  | Some (Returns _) | Some (Throws _) => true
  | Some Pending | None => false
  end.

(** What happens next in the runner, if anything. *)
Definition publish_event (outcomes : list (completion unit)) (order : list nat)
    (s : Runner.state unit string) : option (Runner.event) :=
  match Runner.jobs s with
  | _ :: _ => Some Runner.Tick
  | [] =>
      Runner.Settle
        <$> head (filter (λ i, Runner.in_flight s i && ends outcomes i = true)
                    (order ++ seq 0 (length outcomes)))
  end.

Fixpoint publish_run (outcomes : list (completion unit)) (cpus : nat)
    (order : list nat) (fuel : nat) (s : Runner.state unit string)
  : Runner.state unit string :=
  match fuel with
  | 0 => s
  | S fuel =>
      match publish_event outcomes order s with
      | Some ev =>
          match Runner.step (publish_thunks outcomes) None cpus s ev with
          | Some s' => publish_run outcomes cpus order fuel s'
          | None => s
          end
      | None => s
      end
  end.

(** The runner when nothing is left to happen; a run has at most two
    events for each publication. *)
Definition published (w : world) (tarballs : list TarballInfo)
  : Runner.state unit string :=
  publish_run (publications w tarballs) (os_cpus w) (finish_order w)
    (2 * length tarballs)
    (Runner.start (publish_thunks (publications w tarballs)) None (os_cpus w)).

(** How the promise of [promiseAllConcurrent] ends. *)
Definition publish_all (w : world) (tarballs : list TarballInfo) : completion unit :=
  match Runner.result (published w tarballs) with
  | Some (Runner.Fulfilled _) => Returns tt
  | Some (Runner.Rejected message) => Throws message
  | None => Pending
  end.

Section Main.
Variable argv : options.
Variable w : world.

(** [debug], silenced unless [--verbose]. *)
Definition debug (message : string) : M unit :=
  if verbose argv =? 0 then mret tt else emit (Stderr ("> " +:+ message)).

(** [invokeSubprocess], for a process that ends as [outcome]. *)
Definition invokeSubprocess (cmd : list string) (vars : list (string * string))
    (outcome : completion unit) : M unit :=
  (if verbose argv =? 0 then mret tt
   else emit (Stderr ("> Executing '" +:+ join " " cmd +:+ "'")));;
  emit (Spawn cmd vars);;
  ([], outcome).

(** The body of the loop over [tarballFiles]. *)
Definition read_tarball (tarballs : list TarballInfo) (tarball : string)
  : M (list TarballInfo) :=
  try_catch
    (buffer ← lift (extractFileFromTarball (files w) tarball "package/package.json");
     pj ← lift (JSON_parse w (string_of_list_byte buffer));
     mret (tarballs ++ [mkTarballInfo tarball pj]))
    (λ message,
       debug ("Error reading " +:+ tarball +:+ "'s package.json: " +:+ message);;
       mret tarballs).

Fixpoint read_tarballs (tarballs : list TarballInfo) (tarballFiles : list string)
  : M (list TarballInfo) :=
  match tarballFiles with
  | [] => mret tarballs
  | tarball :: rest =>
      tarballs' ← read_tarball tarballs tarball;
      read_tarballs tarballs' rest
  end.

(** The [*.tgz] files of [--directory], or of the current directory. *)
Definition directory_tarballs : M (list string) :=
  fs ← lift (readdir w);
  mret (resolve w (default "." (directory argv))
          <$> filter (λ f, endsWith f ".tgz" = true) fs).

(** [tarballFiles]: an empty [--glob] counts as none. *)
Definition list_tarballs : M (list string) :=
  match glob argv with
  | Some pattern =>
      if String.eqb pattern "" then directory_tarballs else lift (glob_files w)
  | None => directory_tarballs
  end.

(** [packagesToHide] *)
Definition packagesToHide (tarballs : list TarballInfo) : list string :=
  hide_upstream argv
  ++ (if hide_tarballs argv then (λ t, name (packageJson t)) <$> tarballs else []).

Definition hidden_rule : rule := mkRule "$all" "$all" None.
Definition proxied_rule : rule := mkRule "$all" "$all" (Some "npmjs").

(** [packagesWithoutUpstream] *)
Definition packagesWithoutUpstream : object rule :=
  mkObject [("**", hidden_rule)] None.

(** The loop over [packagesToHide]: one assignment for each mask, to the
    object that starts as [{}]. *)
Definition hide (masks : list string) : object rule :=
  foldl (λ config mask, assign mask hidden_rule config) (mkObject [] None) masks.

(** [finalPackageConfig]: the loop, then the assignment to ["**"]. *)
Definition finalPackageConfig (masks : list string) : object rule :=
  assign "**" proxied_rule (hide masks).

(** [npmConfigVars], in the order of the object literal. *)
Definition npmConfigVars (tempDir : string) : list (string * string) :=
  [ ("npm_config_userconfig", tempDir +:+ "/.npmrc");
    ("npm_config_registry", "http://localhost:" +:+ pretty (port argv) +:+ "/");
    ("SERVE_NPM_TARBALLS_PID", pretty (pid w));
    ("SERVE_NPM_TARBALLS_WORKDIR", tempDir) ].

(** [makeVerdaccioConfig] *)
Definition makeVerdaccioConfig (tempDir : string) (pkgs : object rule)
  : verdaccio_config :=
  mkConfig tempDir
    {[ "npmjs" := mkUplink "https://registry.npmjs.org" false ]}
    "100mb" true
    ((match log argv with
      | Some file => if String.eqb file "" then []
                     else [mkLog "file" (Some file) "pretty" (opt_log_level argv)]
      | None => []
      end)
     ++ (if verbose argv =? 0 then []
         else [mkLog "stderr" None "pretty" (opt_log_level argv)]))
    pkgs.

(** [runVerdaccio]: the registry comes up and listens, the block runs, and
    the server is closed whether the block returned or threw; on a throw
    [ko(e)] comes first, and [close] still runs before anything that
    waits on the promise. *)
Definition runVerdaccio (config : verdaccio_config) (block : M unit) : M unit :=
  emit (StartVerdaccio config (port argv));;
  debug ("Listening on " +:+ addr_host w +:+ ":" +:+ pretty (port argv));;
  emit (Listen (port argv));;
  match block with
  | (t, Returns _) => (t ++ [Close (port argv)], Returns tt)
  | (t, Throws message) => (t ++ [Close (port argv)], Throws message)
  | (t, Pending) => (t, Pending)
  end.

(** The thunk of a tarball: [npm publish], in the environment of the
    registry. *)
Definition publish_thunk (tempDir : string) (t : TarballInfo) : M unit :=
  invokeSubprocess ["npm"; "--loglevel"; "silent"; "publish"; "--force"; tarballFile t]
    (npmConfigVars tempDir) (npm_publish w (tarballFile t)).

(** The publish phase: [promiseAllConcurrent] is called on the thunks of
    the tarballs ([PublishAll] marks the call), it calls the thunks it
    launches, in the order of the tarballs, and the block ends as its
    promise does. *)
Definition publish_block (tempDir : string) (tarballs : list TarballInfo) : M unit :=
  emit (PublishAll (tarballFile <$> tarballs));;
  (mjoin ((λ t, (publish_thunk tempDir t).1)
            <$> take (Runner.next (published w tarballs)) tarballs),
   publish_all w tarballs).

(** The configurations of the two phases. *)
Definition publish_config (tempDir : string) : verdaccio_config :=
  makeVerdaccioConfig tempDir packagesWithoutUpstream.

Definition serve_config (tempDir : string) (tarballs : list TarballInfo)
  : verdaccio_config :=
  makeVerdaccioConfig tempDir (finalPackageConfig (packagesToHide tarballs)).

(** [tarballs], as the loop leaves it. *)
Definition collect_tarballs : M (list TarballInfo) :=
  tarballFiles ← list_tarballs;
  read_tarballs [] tarballFiles.

(** The first run of the registry, guarded by [tarballs.length > 0]. *)
Definition publish_phase (tempDir : string) (tarballs : list TarballInfo) : M unit :=
  if bool_decide (0 < length tarballs) then
    debug ("Publishing " +:+ pretty (length tarballs) +:+ " packages");;
    runVerdaccio (publish_config tempDir) (publish_block tempDir tarballs)
  else mret tt.

(** The second run of the registry, around the action. *)
Definition serve_phase (tempDir : string) (tarballs : list TarballInfo)
    (action : list (string * string) → M unit) : M unit :=
  debug ("Hiding " +:+ join "," (packagesToHide tarballs));;
  runVerdaccio (serve_config tempDir tarballs) (action (npmConfigVars tempDir)).

(** The body of the [try] of [runWithServer]. *)
Definition attempt (tempDir : string) (action : list (string * string) → M unit)
  : M unit :=
  debug ("Working directory: " +:+ tempDir);;
  tarballs ← collect_tarballs;
  lift (writeFile w);;
  emit (WriteFile (tempDir +:+ "/.npmrc")
          (join LF ["//localhost:" +:+ pretty (port argv) +:+ "/:_authToken=none"; ""]));;
  publish_phase tempDir tarballs;;
  serve_phase tempDir tarballs action.

(** The body of the [finally] of [runWithServer]. *)
Definition cleanup (tempDir : string) : M unit :=
  emit (Rmdir tempDir);;
  try_catch (lift (rmdir w)) (λ message, emit (Stderr ("Warning: " +:+ message))).

(** [runWithServer] *)
Definition runWithServer (action : list (string * string) → M unit) : M unit :=
  tempDir ← lift (mkdtemp w);
  finally
    (try_catch (attempt tempDir action)
       (λ message, emit (Stderr message);; emit (ExitCode 1)))
    (cleanup tempDir).

(** The action of the daemon's child: report, then wait for a signal. *)
Definition daemon_action (npmConfigEnv : list (string * string)) : M unit :=
  emit (Send (join LF ((λ kv, "export " +:+ kv.1 +:+ "=" +:+ kv.2) <$> npmConfigEnv)));;
  debug "Waiting for SIGINT, SIGTERM, SIGUSR1";;
  (if signalled w then debug "Shutting down." else ([], Pending)).

(** The action of a single run: the command, in the registry's environment. *)
Definition command_action (npmConfigEnv : list (string * string)) : M unit :=
  emit IgnoreSIGINT;;
  invokeSubprocess (command argv) npmConfigEnv (subprocess w);;
  debug "Subprocess finished".

(** The first message a process sends. *)
Fixpoint first_message (t : list event) : option string :=
  match t with
  | [] => None
  | Send message :: _ => Some message
  | _ :: t => first_message t
  end.

(** [main]; [child] says whether the process has a channel to a parent
    ([process.send]). *)
Definition main (child : bool) : M unit :=
  if bool_decide (length (command argv) = 0) && negb (daemon argv) then
    throw "Usage: serve-npm-tarballs COMMAND, or use --daemon"
  else if bool_decide (0 < length (command argv)) && daemon argv then
    throw "Give either a COMMAND, or specify --daemon, but not both."
  else if daemon argv then
    if child then runWithServer daemon_action
    else
      emit Fork;;
      match first_message (trace (runWithServer daemon_action)) with
      | Some childMessage =>
          emit (Stdout (childMessage +:+ LF));;
          emit Disconnect;;
          emit Unref
      | None => ([], Pending)
      end
  else runWithServer command_action.

(** [main().catch(e => { console.error(e); process.exitCode = 1; })] *)
Definition program (child : bool) : M unit :=
  try_catch (main child) (λ message, emit (Stderr message);; emit (ExitCode 1)).

End Main.

(** *** A sample run

    A directory with two tarballs, of which the second cannot be read, and
    a file that is no tarball; the daemon is asked for, with the packages
    of the tarballs and those under [@corp] hidden. *)

Definition sample_options : options :=
  mkOptions 0 (Some "dist") None None 4873 "info" ["@corp/*"] true true [].

Definition sample_world : world :=
  mkWorld (Done "/tmp/serve-npm-tarballs-abc") (Done [])
    (Done ["a.tgz"; "b.txt"; "c.tgz"])
    (λ dir f, dir +:+ "/" +:+ f)
    (λ f, if String.eqb f "dist/a.tgz"
          then Entries [mkEntry "package/package.json" [[x7b; x7d]];
                        mkEntry "package/index.js" []]
          else Unreadable "ENOENT")
    (λ text, if String.eqb text "{}" then Done (mkManifest "a") else Failed "bad json")
    (Done tt) "localhost" (λ _, Returns tt) 4 [] (Returns tt) false (Done tt) 4242.

(** The same directory with no tarball that can be read. *)
Definition barren_world : world :=
  mkWorld (Done "/tmp/serve-npm-tarballs-abc") (Done [])
    (Done ["a.tgz"; "b.txt"; "c.tgz"])
    (λ dir f, dir +:+ "/" +:+ f)
    (λ f, Unreadable "ENOENT")
    (λ text, Failed "bad json")
    (Done tt) "localhost" (λ _, Returns tt) 4 [] (Returns tt) false (Done tt) 4242.

Definition is_send (ev : event) : bool :=
  match ev with
  | Send _ => true
  | _ => false
  end.

(** The statements the daemon reports, one for each variable. *)
Definition export_lines (vars : list (string * string)) : list string :=
  (λ kv, "export " +:+ kv.1 +:+ "=" +:+ kv.2) <$> vars.

(** The working directory, when [mkdtemp] makes one. *)
Definition mkdtemp_dir (w : world) : option string :=
  match mkdtemp w with
  | Done tempDir => Some tempDir
  | Failed _ => None
  end.

(** The modes in which a process runs the registry itself: the child of
    a daemon, and a single run of a command. *)
Definition runs_server (argv : options) (child : bool) : bool :=
  if daemon argv then bool_decide (length (command argv) = 0) && child
  else bool_decide (0 < length (command argv)).

(** The action of the mode. *)
Definition action_of (argv : options) (w : world) : list (string * string) → M unit :=
  if daemon argv then daemon_action argv w else command_action argv w.

(** *** The listeners of a trace *)

(** The number of listeners open after a trace, from [open] before it. *)
Definition listeners (open : nat) (t : list event) : nat :=
  foldl (λ o ev, match ev with
                 | Listen _ => S o
                 | Close _ => pred o
                 | _ => o
                 end) open t.

(** Every [Listen] finds no listener open. *)
Fixpoint disciplined (open : nat) (t : list event) : bool :=
  match t with
  | [] => true
  | Listen _ :: t => (open =? 0) && disciplined 1 t
  | Close _ :: t => disciplined (pred open) t
  | _ :: t => disciplined open t
  end.

Definition is_listener (ev : event) : bool :=
  match ev with
  | Listen _ | Close _ => true
  | _ => false
  end.

(** A listener event on another port than [p]. *)
Definition off_port (p : N) (ev : event) : bool :=
  match ev with
  | Listen q | Close q => negb (q =? p)%N
  | _ => false
  end.

(** A computation that opens a listener only when none is open, and that
    leaves none open when it ends. *)
Definition orderly {X : Type} (m : M X) : Prop :=
  disciplined 0 m.1 = true ∧ (m.2 ≠ Pending → listeners 0 m.1 = 0).

(** A computation that makes no event of a kind. *)
Definition silent (kind : event → bool) {X : Type} (m : M X) : Prop :=
  Forall (λ ev, kind ev = false) m.1.

(** The events of the life of a registry. *)
Definition is_registry (ev : event) : bool :=
  match ev with
  | StartVerdaccio _ _ | Listen _ | Close _ | PublishAll _ => true
  | _ => false
  end.

Definition registry (t : list event) : list event :=
  filter (λ ev, is_registry ev = true) t.

End Orchestrator.



(** ** More of the orchestrator *)

Module Reading.
Import Tarball Orchestrator.

(** What the [try] of the loop over [tarballFiles] evaluates:
    [JSON.parse((await extractFileFromTarball(tarball,
    'package/package.json')).toString())]. *)
Definition read_manifest (w : world) (tarball : string) : fallible manifest :=
  match extractFileFromTarball (files w) tarball "package/package.json" with
  | Done buffer => JSON_parse w (string_of_list_byte buffer)
  | Failed message => Failed message
  end.

(** The tarball with its manifest, when the manifest can be read. *)
Definition readable (w : world) (tarball : string) : option TarballInfo :=
  match read_manifest w tarball with
  | Done pj => Some (mkTarballInfo tarball pj)
  | Failed _ => None
  end.

(** A world that differs in what [fs.rmdir] does. *)
Definition with_rmdir (w : world) (r : fallible unit) : world :=
  mkWorld (mkdtemp w) (glob_files w) (readdir w) (resolve w) (files w)
    (JSON_parse w) (writeFile w) (addr_host w) (npm_publish w) (os_cpus w)
    (finish_order w) (subprocess w)
    (signalled w) r (pid w).

Definition is_exit (ev : event) : bool :=
  match ev with
  | ExitCode _ => true
  | _ => false
  end.

Definition is_rmdir (ev : event) : bool :=
  match ev with
  | Rmdir _ => true
  | _ => false
  end.

(** What [fs.rmdir] leaves on standard error. *)
Definition rmdir_warning (w : world) : list event :=
  match rmdir w with
  | Done _ => []
  | Failed message => [Stderr ("Warning: " +:+ message)]
  end.

End Reading.

(** ** The earlier variant of the front end

    The second [main] of the source: one run of the registry on a fixed
    port, serving the storage directory itself, around the command. *)

Module Legacy.
Import Orchestrator.

Definition port : N := 6000.

(** [configJson] *)
Definition configJson (argv : options) : verdaccio_config :=
  makeVerdaccioConfig argv (default "." (directory argv))
    (mkObject [("@aws-cdk/core", hidden_rule); ("**", proxied_rule)] None).

(** The callback of [webServer.listen]. *)
Definition serve (argv : options) (w : world) : M unit :=
  debug argv "Verdaccio running";;
  emit IgnoreSIGINT;;
  try_catch
    (invokeSubprocess argv (command argv) [] (subprocess w);;
     debug argv "Subprocess finished")
    (λ message, emit (Stderr message);; emit (ExitCode 1));;
  emit (Close port).

(** [main] *)
Definition main (argv : options) (w : world) : M unit :=
  if bool_decide (length (command argv) = 0) then
    throw "Usage: serve-npm-tarballs COMMAND"
  else
    emit (StartVerdaccio (configJson argv) port);;
    emit (Listen port);;
    serve argv w.

(** [main().catch(e => { console.error(e); process.exitCode = 1; })] *)
Definition program (argv : options) (w : world) : M unit :=
  try_catch (main argv w) (λ message, emit (Stderr message);; emit (ExitCode 1)).

End Legacy.

(** ** The shrinkwrap pruning script

    [shrink-snip.ts]. An object is the list of its keys and values in the
    order of the keys; the root of [npm-shrinkwrap.json] and every package
    in it may have [requires] and [dependencies]. *)

Module Snip.

Inductive scope : Type :=
| Scope (requires : option (list (string * string)))
        (dependencies : option (list (string * scope))).

Definition requires_of (sc : scope) : option (list (string * string)) :=
  match sc with Scope requires _ => requires end.

Definition dependencies_of (sc : scope) : option (list (string * scope)) :=
  match sc with Scope _ dependencies => dependencies end.

(** [Object.keys] *)
Definition keys {V : Type} (o : list (string * V)) : list string := o.*1.

(** [Array.prototype.includes] *)
Definition includes (l : list string) (x : string) : bool := bool_decide (x ∈ l).

(** [delete o[k]] *)
Definition delete_key {V : Type} (k : string) (o : list (string * V))
  : list (string * V) :=
  filter (λ kv, kv.1 ≠ k) o.

(** [o[k]] *)
Fixpoint get {V : Type} (k : string) (o : list (string * V)) : option V :=
  match o with
  | [] => None
  | (k', v) :: o => if String.eqb k' k then Some v else get k o
  end.

(** Whether [pkg.requires] names the package. *)
Definition requires_it (packageName : string) (pkg : scope) : bool :=
  includes (keys (default [] (requires_of pkg))) packageName.

(** [doesAnythingDependOn] *)
Fixpoint doesAnythingDependOn (packageName : string) (sc : scope) : bool :=
  match sc with
  | Scope _ None => false
  | Scope _ (Some deps) =>
      (fix values (l : list (string * scope)) : bool :=
         match l with
         | [] => false
         | (_, pkg) :: l =>
             if requires_it packageName pkg then true
             else if doesAnythingDependOn packageName pkg then true
             else values l
         end) deps
  end.

(** [delete scope.dependencies[name]] *)
Definition delete_dependency (name : string) (sc : scope) : scope :=
  match sc with
  | Scope requires (Some deps) => Scope requires (Some (delete_key name deps))
  | Scope _ None => sc
  end.

(** The body of the loop of [removeObsoletePackages]; the second component
    is the variable [changes]. *)
Definition consider (directDeps : list string) (st : scope * bool) (name : string)
  : scope * bool :=
  if negb (includes directDeps name) && negb (doesAnythingDependOn name st.1)
  then (delete_dependency name st.1, true)
  else st.

(** [removeObsoletePackages], over the keys as they are when it starts. *)
Definition removeObsoletePackages (directDeps : list string) (st : scope * bool)
  : scope * bool :=
  match dependencies_of st.1 with
  | None => st
  | Some deps => foldl (consider directDeps) st (keys deps)
  end.

(** [do { changes = false; removeObsoletePackages(shrinkwrap); }
    while (changes)], for at most [fuel] rounds. *)
Fixpoint prune (fuel : nat) (directDeps : list string) (sc : scope) : option scope :=
  match fuel with
  | 0 => None
  | S fuel =>
      let st := removeObsoletePackages directDeps (sc, false) in
      if st.2 then prune fuel directDeps st.1 else Some st.1
  end.

(** [delete shrinkwrap.dependencies[pkg].requires[name]], which throws when
    the package or its [requires] is missing. *)
Definition snip_require (pkg name : string) (sc : scope) : option scope :=
  match sc with
  | Scope requires (Some deps) =>
      match get pkg deps with
      | Some (Scope (Some reqs) nested) =>
          Some (Scope requires
                  (Some ((λ kv, if String.eqb kv.1 pkg
                                then (kv.1, Scope (Some (delete_key name reqs)) nested)
                                else kv) <$> deps)))
      | _ => None
      end
  | Scope _ None => None
  end.

(** [package.json], of which the keys of the two kinds of dependencies are
    read. *)
Record package_json : Type := mkPackageJson {
  pj_dependencies : option (list (string * string));
  pj_devDependencies : option (list (string * string))
}.

(** [directDeps] *)
Definition directDeps (packageJson : package_json) : list string :=
  keys (default [] (pj_dependencies packageJson))
  ++ keys (default [] (pj_devDependencies packageJson)).

(** The number of packages at the top of a shrinkwrap. *)
Definition top_size (sc : scope) : nat := length (default [] (dependencies_of sc)).

(** The script, up to the writing of the file: [None] when one of the two
    deletions throws. *)
Definition shrink_snip (packageJson : package_json) (shrinkwrap : scope) : option scope :=
  sc ← snip_require "@verdaccio/local-storage" "level" shrinkwrap;
  sc ← snip_require "bunyan" "dtrace-provider" sc;
  prune (S (top_size sc)) (directDeps packageJson) sc.

(** The names at the top of a shrinkwrap. *)
Definition top_keys (sc : scope) : list string := keys (default [] (dependencies_of sc)).

(** A small shrinkwrap: [level] is required by the storage only, and
    [leveldown], which comes before it, by [level] only. *)
Definition sample_shrinkwrap : scope :=
  Scope None (Some
    [ ("verdaccio", Scope (Some [("bunyan", "1.8"); ("@verdaccio/local-storage", "9")]) None);
      ("bunyan", Scope (Some [("dtrace-provider", "0.8"); ("mv", "2")]) None);
      ("@verdaccio/local-storage", Scope (Some [("level", "5"); ("lodash", "4")]) None);
      ("leveldown", Scope None None);
      ("level", Scope (Some [("leveldown", "5")]) None);
      ("dtrace-provider", Scope None None);
      ("mv", Scope None None);
      ("lodash", Scope None None) ]).

Definition sample_package_json : package_json :=
  mkPackageJson (Some [("verdaccio", "4")]) None.

(** The same after the two deletions. *)
Definition sample_snipped : scope :=
  Scope None (Some
    [ ("verdaccio", Scope (Some [("bunyan", "1.8"); ("@verdaccio/local-storage", "9")]) None);
      ("bunyan", Scope (Some [("mv", "2")]) None);
      ("@verdaccio/local-storage", Scope (Some [("lodash", "4")]) None);
      ("leveldown", Scope None None);
      ("level", Scope (Some [("leveldown", "5")]) None);
      ("dtrace-provider", Scope None None);
      ("mv", Scope None None);
      ("lodash", Scope None None) ]).

(** What the script makes of it. *)
Definition sample_pruned : scope :=
  Scope None (Some
    [ ("verdaccio", Scope (Some [("bunyan", "1.8"); ("@verdaccio/local-storage", "9")]) None);
      ("bunyan", Scope (Some [("mv", "2")]) None);
      ("@verdaccio/local-storage", Scope (Some [("lodash", "4")]) None);
      ("mv", Scope None None);
      ("lodash", Scope None None) ]).

(** One deletion the script can make: of a package at the top that is no
    direct dependency and that nothing in the shrinkwrap requires. *)
Definition removal (directDeps : list string) (sc sc' : scope) : Prop :=
  ∃ name, includes directDeps name = false
          ∧ doesAnythingDependOn name sc = false
          ∧ sc' = delete_dependency name sc.

(** [sc'] is [sc] with some of the packages at the top left out, in the
    same order and each as it was. *)
Definition pruned (sc sc' : scope) : Prop :=
  requires_of sc' = requires_of sc
  ∧ match dependencies_of sc, dependencies_of sc' with
    | Some deps, Some deps' => deps' `sublist_of` deps
    | None, None => True
    | _, _ => False
    end.

End Snip.

(** * Properties of the bounded concurrency runner *)

Import Runner.

(** ** The limit *)

Lemma slice_end_le (len : nat) (q : Q) : slice_end len q ≤ len.
Proof.
  unfold slice_end. destruct (to_integer q <? 0)%Z eqn:Hneg.
  - apply Z.ltb_lt in Hneg. lia.
  - lia.
Qed.

Lemma to_integer_nonneg (q : Q) : (0 <= q)%Q → (0 ≤ to_integer q)%Z.
Proof.
  unfold Qle, to_integer. destruct q as [num den]. simpl. intros Hq.
  apply Z.quot_pos; lia.
Qed.

Lemma to_integer_below (q : Q) : (0 <= q)%Q → (inject_Z (to_integer q) <= q)%Q.
Proof.
  unfold Qle, to_integer, inject_Z. destruct q as [num den]. simpl. intros Hq.
  rewrite Z.quot_div_nonneg by lia.
  rewrite Z.mul_1_r. rewrite Z.mul_comm. apply Z.mul_div_le. lia.
Qed.

Lemma to_integer_mono_1 (q : Q) : (1 <= q)%Q → (1 ≤ to_integer q)%Z.
Proof.
  unfold Qle, to_integer. destruct q as [num den]. simpl. intros Hq.
  rewrite Z.quot_div_nonneg by lia.
  apply Z.div_le_lower_bound; lia.
Qed.

Lemma Math_max_lower (a b : Q) : (a <= Math_max a b)%Q.
Proof.
  unfold Math_max. destruct (Qle_bool a b) eqn:Hab.
  - by apply Qle_bool_iff.
  - apply Qle_refl.
Qed.

Lemma effective_limit_given (L : Q) (cpus : nat) :
  (1 <= L)%Q → effective_limit (Some L) cpus = L.
Proof.
  intros HL. unfold effective_limit.
  destruct (Qeq_bool L 0) eqn:H0; [|done].
  apply Qeq_bool_iff in H0. rewrite H0 in HL. by compute in HL.
Qed.

Lemma slice_end_nonneg (len : nat) (q : Q) :
  (0 <= q)%Q → slice_end len q = Z.to_nat (to_integer q) `min` len.
Proof.
  intros Hq. apply to_integer_nonneg in Hq. unfold slice_end.
  destruct (to_integer q <? 0)%Z eqn:Hneg; [apply Z.ltb_lt in Hneg|]; lia.
Qed.

(** ** Counting the operations in flight *)

Lemma unsettled_count (l m : list nat) :
  NoDup l → NoDup m → (∀ i, i ∈ m → i ∈ l) →
  length (filter (λ i, i ∉ m) l) + length m = length l.
Proof.
  intros Hl Hm Hsub.
  rewrite <-(length_app (filter (λ i, i ∉ m) l) m).
  apply Permutation_length.
  rewrite <-(filter_app_complement (λ i, i ∉ m) l) at 2.
  apply Permutation_app_head, NoDup_Permutation; [done|by apply NoDup_filter|].
  intros i. rewrite list_elem_of_filter. split.
  - intros Hi. split; [tauto|auto].
  - intros [Hi _]. by destruct (decide (i ∈ m)).
Qed.

Section RunnerFacts.
Context {A E : Type}.
Variable thunks : list (settlement A E).
Variable n : option Q.
Variable cpus : nat.

Local Abbreviation k := (initial_length thunks n cpus).
Local Abbreviation N := (length thunks).
Local Abbreviation wf := (Runner.wf thunks n cpus).
Local Abbreviation earned := (Runner.earned thunks).
Local Abbreviation sound := (Runner.sound thunks).
Local Abbreviation current := (Runner.current thunks n cpus).
Local Abbreviation fuel := (Runner.fuel thunks).
Local Abbreviation balanced := (Runner.balanced thunks n cpus).

Lemma initial_length_le : k ≤ N.
Proof. apply slice_end_le. Qed.

Lemma launch_all (l : list nat) (s : state A E) :
  foldl (λ s i, launch i s) s l
  = mkState (next s) (resolved s ++ l) (settled s) (jobs s) (handed s) (result s).
Proof.
  revert s. induction l as [|i l IH]; intros s; simpl.
  - rewrite app_nil_r. by destruct s.
  - rewrite IH. simpl. by rewrite <-app_assoc.
Qed.

Lemma start_eq : start thunks n cpus = mkState k (seq 0 k) [] [] None None.
Proof.
  unfold start, initial. rewrite launch_all. simpl.
  rewrite take_seq, length_seq.
  pose proof initial_length_le. by rewrite Nat.min_l.
Qed.


Lemma wf_start : wf (start thunks n cpus).
Proof.
  rewrite start_eq. split; simpl; try done.
  - apply initial_length_le.
  - constructor.
  - intros i Hi. by apply elem_of_nil in Hi.
Qed.

Lemma refresh_fields (s : state A E) :
  next (refresh thunks n cpus s) = next s
  ∧ resolved (refresh thunks n cpus s) = resolved s
  ∧ settled (refresh thunks n cpus s) = settled s
  ∧ jobs (refresh thunks n cpus s) = jobs s
  ∧ handed (refresh thunks n cpus s) = handed s.
Proof. unfold refresh. destruct s as [? ? ? ? [?|] [?|]]; done. Qed.

Lemma wf_refresh (s : state A E) : wf s → wf (refresh thunks n cpus s).
Proof.
  destruct (refresh_fields s) as (Hn & Hr & Hs & Hj & Hh).
  intros [H1 H2 H3 H4 H5 H6]. split; rewrite ?Hn, ?Hr, ?Hs, ?Hj, ?Hh; done.
Qed.

Lemma in_flight_spec (s : state A E) (i : nat) :
  in_flight s i = true ↔ i ∈ resolved s ∧ i ∉ settled s.
Proof.
  unfold in_flight, launched.
  rewrite andb_true_iff, negb_true_iff, bool_decide_eq_true, bool_decide_eq_false.
  done.
Qed.

Lemma wf_settle (s s' : state A E) (i : nat) :
  wf s → settle thunks n cpus i s = Some s' → wf s'.
Proof.
  intros [H1 H2 H3 H4 H5 H6] Hstep. unfold settle in Hstep.
  destruct (in_flight s i) eqn:Hfl; [|done].
  apply in_flight_spec in Hfl as [Hl Hs].
  rewrite H1, elem_of_seq in Hl.
  assert (Hnd : NoDup (settled s ++ [i])).
  { apply NoDup_app. split_and!; [done| |apply NoDup_singleton].
    intros j Hj ->%list_elem_of_singleton. done. }
  assert (Hlt : ∀ j, j ∈ settled s ++ [i] → j < next s).
  { intros j [Hj| ->%list_elem_of_singleton]%elem_of_app; [auto|lia]. }
  destruct (thunks !! i) as [[a|e]|]; [| |done];
    injection Hstep as <-; apply wf_refresh; split; simpl; try done;
    rewrite ?length_app; simpl; lia.
Qed.

Lemma wf_tick (s s' : state A E) :
  wf s → tick thunks n cpus s = Some s' → wf s'.
Proof.
  intros [H1 H2 H3 H4 H5 H6] Hstep. unfold tick in Hstep.
  destruct (jobs s) as [|j rest] eqn:Hjobs; [done|].
  injection Hstep as <-. apply wf_refresh. unfold runNext. simpl in *.
  destruct (decide (next s = N)) as [Hend|Hmore].
  - destruct (handed s) as [snapshot|] eqn:Hh; split; simpl; try done; try lia.
    intros ? [= <-]. by rewrite H1, Hend.
  - split; cbn -[seq].
    + by rewrite H1, seq_S.
    + lia.
    + done.
    + intros i Hi. apply H4 in Hi. lia.
    + lia.
    + intros snapshot Hs. apply H6 in Hs. lia.
Qed.

Lemma wf_step (s s' : state A E) (ev : event) :
  wf s → step thunks n cpus s ev = Some s' → wf s'.
Proof. destruct ev; [apply wf_settle|apply wf_tick]. Qed.

Lemma wf_run (evs : list event) (s s' : state A E) :
  wf s → run thunks n cpus s evs = Some s' → wf s'.
Proof.
  revert s. induction evs as [|ev evs IH]; intros s Hwf; simpl.
  - by intros [= <-].
  - destruct (step thunks n cpus s ev) as [s1|] eqn:Hstep; [|done].
    simpl. apply IH. by eapply wf_step.
Qed.

Lemma wf_reachable (evs : list event) (s : state A E) :
  run thunks n cpus (start thunks n cpus) evs = Some s → wf s.
Proof. apply wf_run, wf_start. Qed.

Lemma unsettled_length (s : state A E) :
  wf s → length (unsettled s) + length (settled s) = next s.
Proof.
  intros [H1 H2 H3 H4 H5 H6]. unfold unsettled.
  rewrite unsettled_count; [by rewrite H1, length_seq|by rewrite H1; apply NoDup_seq|done|].
  intros i Hi. rewrite H1, elem_of_seq. apply H4 in Hi. lia.
Qed.

Lemma unsettled_le_initial (s : state A E) : wf s → length (unsettled s) ≤ k.
Proof. intros Hwf. pose proof (unsettled_length s Hwf). destruct Hwf. lia. Qed.

(** ** What the returned promise can hold *)

Lemma slot_fulfilled (s : state A E) (i : nat) (a : A) :
  slot thunks n cpus s i = Some (Fulfilled a) →
  i ∈ settled s ∧ thunks !! i = Some (Fulfilled a).
Proof.
  unfold slot. case_bool_decide as Hi; [|done].
  destruct (thunks !! i) as [[a'|e]|]; [|done..].
  destruct (_ || _); [|done]. by intros [= ->].
Qed.

Lemma slot_rejected (s : state A E) (i : nat) (e : E) :
  slot thunks n cpus s i = Some (Rejected e) →
  i ∈ settled s ∧ thunks !! i = Some (Rejected e).
Proof.
  unfold slot. case_bool_decide as Hi; [|done].
  destruct (thunks !! i) as [[a'|e']|]; [| |done].
  - by destruct (_ || _).
  - by intros [= ->].
Qed.

Lemma first_rejection_elem (f : nat → option (settlement A E)) (l : list nat) (e : E) :
  first_rejection (f <$> l) = Some e → ∃ i, i ∈ l ∧ f i = Some (Rejected e).
Proof.
  induction l as [|i l IH]; simpl; [done|].
  destruct (f i) as [[a|e']|] eqn:Hfi.
  - intros (j & Hj & Hfj)%IH. exists j. split; [by right|done].
  - intros [= ->]. exists i. split; [by left|done].
  - intros (j & Hj & Hfj)%IH. exists j. split; [by right|done].
Qed.

Lemma first_rejection_none (f : nat → option (settlement A E)) (l : list nat) :
  (∀ i e, i ∈ l → f i ≠ Some (Rejected e)) → first_rejection (f <$> l) = None.
Proof.
  induction l as [|i l IH]; simpl; [done|]. intros Hl.
  destruct (f i) as [[a|e']|] eqn:Hfi.
  - apply IH. intros j e Hj. apply Hl. by right.
  - destruct (Hl i e'); [by left|done].
  - apply IH. intros j e Hj. apply Hl. by right.
Qed.

Lemma first_rejection_some (f : nat → option (settlement A E)) (l : list nat)
    (i : nat) (e : E) :
  i ∈ l → f i = Some (Rejected e) → is_Some (first_rejection (f <$> l)).
Proof.
  induction l as [|j l IH]; [by intros ?%elem_of_nil|].
  intros [->|Hi]%elem_of_cons Hfi; rewrite fmap_cons; simpl.
  - rewrite Hfi. by eexists.
  - destruct (f j) as [[a|e']|]; [by apply IH|by eexists|by apply IH].
Qed.

Lemma all_values_seq (f : nat → option (settlement A E)) (j m : nat) (vs : list A) :
  all_values (f <$> seq j m) = Some vs →
  length vs = m ∧ ∀ i v, vs !! i = Some v → f (j + i) = Some (Fulfilled v).
Proof.
  revert j vs. induction m as [|m IH]; intros j vs; simpl.
  - intros [= <-]. split; [done|]. intros i v Hi. by rewrite lookup_nil in Hi.
  - destruct (f j) as [[a|e]|] eqn:Hfj; [|done..].
    destruct (all_values _) as [ws|] eqn:Hrest; simpl; [|done].
    intros [= <-]. destruct (IH _ _ Hrest) as [Hlen Hval].
    split; [by rewrite length_cons, Hlen|].
    intros [|i] v; simpl.
    + intros [= <-]. by rewrite Nat.add_0_r.
    + intros Hi. apply Hval in Hi. by rewrite Nat.add_succ_r.
Qed.

Lemma all_values_total (f : nat → option (settlement A E)) (l : list nat) :
  (∀ i, i ∈ l → ∃ a, f i = Some (Fulfilled a)) → is_Some (all_values (f <$> l)).
Proof.
  induction l as [|i l IH]; [by eexists|]. intros Hl.
  rewrite fmap_cons. simpl.
  destruct (Hl i) as [a ->]; [by left|].
  destruct IH as [ws ->]; [|by eexists].
  intros j Hj. apply Hl. by right.
Qed.


Lemma Promise_all_earned (s : state A E) (r : settlement (list A) E) :
  Promise_all (slot thunks n cpus s <$> seq 0 N) = Some r → earned s r.
Proof.
  unfold Promise_all.
  destruct (first_rejection _) as [e|] eqn:Hrej.
  - intros [= <-]. apply first_rejection_elem in Hrej as (i & _ & Hi).
    exists i. by apply slot_rejected.
  - destruct (all_values _) as [vs|] eqn:Hall; [|done]. intros [= <-].
    apply all_values_seq in Hall as [Hlen Hval]. split.
    + apply list_eq. intros i. rewrite list_lookup_fmap.
      destruct (vs !! i) as [v|] eqn:Hv; simpl.
      * by apply Hval, slot_fulfilled in Hv as [_ ?].
      * apply lookup_ge_None. apply lookup_ge_None in Hv. lia.
    + intros i Hi. destruct (lookup_lt_is_Some_2 vs i) as [v Hv]; [lia|].
      by apply Hval, slot_fulfilled in Hv as [? _].
Qed.

Lemma earned_mono (s s' : state A E) (r : settlement (list A) E) :
  (∀ i, i ∈ settled s → i ∈ settled s') → earned s r → earned s' r.
Proof.
  intros Hsub. destruct r as [vs|e]; simpl.
  - intros [? Hall]. split; [done|]. auto.
  - intros (i & ? & ?). exists i. auto.
Qed.



Lemma sound_start : sound (start thunks n cpus) ∧ current (start thunks n cpus).
Proof. rewrite start_eq. by split; [split|]. Qed.

Lemma refresh_sound (s : state A E) :
  wf s → sound s → sound (refresh thunks n cpus s).
Proof.
  intros Hwf Hsound. unfold refresh.
  destruct (handed s) as [snapshot|] eqn:Hh; [|done].
  destruct (result s) as [r|] eqn:Hr; [done|].
  split; simpl; [done|].
  intros r Hall. destruct (wf_handed s Hwf _ Hh) as [-> _].
  apply Promise_all_earned in Hall. by eapply earned_mono.
Qed.

Lemma refresh_current (s : state A E) : current (refresh thunks n cpus s).
Proof.
  unfold current, refresh. intros snapshot.
  destruct (handed s) as [snapshot'|] eqn:Hh; [|by rewrite Hh].
  destruct (result s) as [r|] eqn:Hr; simpl.
  - by rewrite Hr.
  - by intros [= ->].
Qed.

Lemma wf_unrefresh (s : state A E) : wf (refresh thunks n cpus s) → wf s.
Proof.
  destruct (refresh_fields s) as (Hn & Hr & Hs & Hj & Hh).
  intros [H1 H2 H3 H4 H5 H6]. rewrite ?Hn, ?Hr, ?Hs, ?Hj, ?Hh in *. by split.
Qed.

Lemma sound_runNext (s : state A E) : sound s → sound (runNext thunks s).
Proof.
  intros Hs. unfold runNext.
  destruct (decide (next s = N)); [destruct (handed s) eqn:Hh|]; [done|..];
    destruct Hs as [Hw He]; by split.
Qed.

Lemma sound_step (s s' : state A E) (ev : event) :
  wf s → sound s → step thunks n cpus s ev = Some s' → sound s'.
Proof.
  intros Hwf [Hw He] Hstep. pose proof (wf_step _ _ _ Hwf Hstep) as Hwf'.
  destruct ev as [i|]; simpl in Hstep.
  - unfold settle in Hstep. destruct (in_flight s i); [|done].
    assert (Hmono : ∀ js, sound (mkState (next s) (resolved s) (settled s ++ [i])
                                        js (handed s) (result s))).
    { intros js. split; simpl; [done|]. intros r Hr.
      eapply earned_mono; [|by apply He]. simpl. intros j Hj.
      apply elem_of_app. by left. }
    destruct (thunks !! i) as [[a|e]|] eqn:Hti; [| |done];
      injection Hstep as <-; (apply refresh_sound; [by apply wf_unrefresh|done]).
  - unfold tick in Hstep. destruct (jobs s) as [|j rest]; [done|].
    injection Hstep as <-. apply refresh_sound; [by apply wf_unrefresh|].
    apply sound_runNext. by split.
Qed.

Lemma current_step (s s' : state A E) (ev : event) :
  step thunks n cpus s ev = Some s' → current s'.
Proof.
  destruct ev as [i|]; simpl.
  - unfold settle. destruct (in_flight s i); [|done].
    destruct (thunks !! i) as [[a|e]|]; [| |done];
      intros [= <-]; apply refresh_current.
  - unfold tick. destruct (jobs s); [done|]. intros [= <-]. apply refresh_current.
Qed.

Lemma sound_run (evs : list event) (s s' : state A E) :
  wf s → sound s → current s → run thunks n cpus s evs = Some s' →
  sound s' ∧ current s'.
Proof.
  revert s. induction evs as [|ev evs IH]; intros s Hwf Hs Hc; simpl.
  - by intros [= <-].
  - destruct (step thunks n cpus s ev) as [s1|] eqn:Hstep; [|done].
    simpl. apply IH.
    + by eapply wf_step.
    + by eapply sound_step.
    + by eapply current_step.
Qed.

Lemma sound_reachable (evs : list event) (s : state A E) :
  run thunks n cpus (start thunks n cpus) evs = Some s → sound s ∧ current s.
Proof. destruct sound_start. by apply sound_run; [apply wf_start|..]. Qed.

(** ** Every run ends *)


Lemma in_flight_unsettled (s : state A E) (i : nat) :
  in_flight s i = true → i ∈ unsettled s.
Proof.
  intros [Hl Hs]%in_flight_spec. unfold unsettled. by apply list_elem_of_filter.
Qed.

Lemma settled_room (s : state A E) (i : nat) :
  wf s → in_flight s i = true → length (settled s) < next s.
Proof.
  intros Hwf Hi%in_flight_unsettled. pose proof (unsettled_length s Hwf).
  destruct (unsettled s); [by apply elem_of_nil in Hi|simpl in *; lia].
Qed.

(** What a settlement and a reaction change. *)
Lemma settle_fields (s s' : state A E) (i : nat) :
  settle thunks n cpus i s = Some s' →
  in_flight s i = true ∧ ∃ t, thunks !! i = Some t
  ∧ next s' = next s ∧ resolved s' = resolved s
  ∧ settled s' = settled s ++ [i]
  ∧ jobs s' = jobs s ++ (match t with Fulfilled _ => [i] | Rejected _ => [] end)
  ∧ handed s' = handed s.
Proof.
  unfold settle. destruct (in_flight s i); [|done]. intros Hstep. split; [done|].
  destruct (thunks !! i) as [[a|e]|]; [| |done]; injection Hstep as <-;
    eexists; (split; [done|]);
    match goal with |- context [refresh _ _ _ ?s1] =>
      destruct (refresh_fields s1) as (-> & -> & -> & -> & ->) end;
    simpl; by rewrite ?app_nil_r.
Qed.

Lemma tick_fields (s s' : state A E) :
  tick thunks n cpus s = Some s' →
  ∃ j rest, jobs s = j :: rest ∧ jobs s' = rest ∧ settled s' = settled s
  ∧ ((next s = N ∧ next s' = next s ∧ resolved s' = resolved s
      ∧ handed s' = Some (default (resolved s) (handed s)))
     ∨ (next s ≠ N ∧ next s' = S (next s) ∧ resolved s' = resolved s ++ [next s]
        ∧ handed s' = handed s)).
Proof.
  unfold tick. destruct (jobs s) as [|j rest]; [done|]. intros [= <-].
  exists j, rest. split; [done|].
  match goal with |- context [refresh _ _ _ ?s1] =>
    destruct (refresh_fields s1) as (-> & -> & -> & -> & ->) end.
  unfold runNext. simpl. destruct (decide (next s = N)).
  - destruct (handed s) eqn:Hh; simpl; rewrite ?Hh; auto 10.
  - simpl. auto 10.
Qed.

Lemma step_fuel (s s' : state A E) (ev : event) :
  wf s → step thunks n cpus s ev = Some s' → fuel s' < fuel s.
Proof.
  intros Hwf Hstep. unfold fuel. destruct ev as [i|]; simpl in Hstep.
  - apply settle_fields in Hstep as (Hfl & t & _ & _ & _ & -> & -> & _).
    pose proof (settled_room s i Hwf Hfl). pose proof (wf_next s Hwf).
    rewrite !length_app. destruct t; simpl; lia.
  - apply tick_fields in Hstep as (j & rest & -> & -> & -> & _). simpl. lia.
Qed.


Lemma run_length (evs : list event) (s s' : state A E) :
  wf s → run thunks n cpus s evs = Some s' → length evs + fuel s' ≤ fuel s.
Proof.
  revert s. induction evs as [|ev evs IH]; intros s Hwf; simpl.
  - intros [= <-]. lia.
  - destruct (step thunks n cpus s ev) as [s1|] eqn:Hstep; [|done]. simpl.
    intros Hrun. apply IH in Hrun; [|by eapply wf_step].
    pose proof (step_fuel _ _ _ Hwf Hstep). lia.
Qed.

(** Either nothing is left to happen or the environment has a move. *)
Lemma quiescent_or_step (s : state A E) :
  wf s → quiescent thunks n cpus s ∨ ∃ ev s', step thunks n cpus s ev = Some s'.
Proof.
  intros Hwf. destruct (jobs s) as [|j rest] eqn:Hjobs.
  - destruct (unsettled s) as [|i us] eqn:Hus.
    + left. intros [i|]; simpl; [|unfold tick; by rewrite Hjobs].
      unfold settle. destruct (in_flight s i) eqn:Hfl; [|done].
      apply in_flight_unsettled in Hfl. rewrite Hus in Hfl.
      by apply elem_of_nil in Hfl.
    + right. assert (Hi : i ∈ unsettled s) by (rewrite Hus; by left).
      apply list_elem_of_filter in Hi as [Hs Hl].
      assert (Hfl : in_flight s i = true) by by apply in_flight_spec.
      rewrite (wf_resolved s Hwf), elem_of_seq in Hl.
      pose proof (wf_next s Hwf).
      destruct (lookup_lt_is_Some_2 thunks i) as [t Ht]; [lia|].
      exists (Settle i). simpl. unfold settle. rewrite Hfl, Ht.
      destruct t; by eexists.
  - right. exists Tick. simpl. unfold tick. rewrite Hjobs. by eexists.
Qed.

Lemma run_to_quiescence (s : state A E) :
  wf s → ∃ evs s', run thunks n cpus s evs = Some s' ∧ quiescent thunks n cpus s'.
Proof.
  remember (fuel s) as m eqn:Hm. revert s Hm.
  induction (lt_wf m) as [m _ IH]. intros s -> Hwf.
  destruct (quiescent_or_step s Hwf) as [Hq|(ev & s1 & Hstep)].
  - by exists [], s.
  - destruct (IH (fuel s1)) with (s := s1) as (evs & s' & Hrun & Hq);
      [by eapply step_fuel|done|by eapply wf_step|].
    exists (ev :: evs), s'. simpl. rewrite Hstep. by split.
Qed.

(** ** The returned promise settles once *)




(** ** Runs in which no operation fails *)


Hypothesis no_failure : ∀ i e, thunks !! i ≠ Some (Rejected e).

Lemma balanced_start : balanced (start thunks n cpus).
Proof. rewrite start_eq. intros _. simpl. lia. Qed.

Lemma balanced_step (s s' : state A E) (ev : event) :
  balanced s → step thunks n cpus s ev = Some s' → balanced s'.
Proof using no_failure.
  intros Hb Hstep. unfold balanced in *. destruct ev as [i|]; simpl in Hstep.
  - apply settle_fields in Hstep as (_ & t & Ht & -> & _ & -> & -> & ->).
    intros Hh%Hb. rewrite !length_app.
    destruct t as [a|e]; [simpl; lia|by destruct (no_failure i e)].
  - apply tick_fields in Hstep
      as (j & rest & Hj & -> & -> & [(_ & _ & _ & ->)|(_ & -> & _ & ->)]);
      [done|]. intros Hh%Hb. rewrite Hj in Hh. simpl in Hh. lia.
Qed.

Lemma balanced_run (evs : list event) (s s' : state A E) :
  balanced s → run thunks n cpus s evs = Some s' → balanced s'.
Proof using no_failure.
  revert s. induction evs as [|ev evs IH]; intros s Hb; simpl.
  - by intros [= <-].
  - destruct (step thunks n cpus s ev) as [s1|] eqn:Hstep; [|done].
    simpl. apply IH. by eapply balanced_step.
Qed.

Lemma quiescent_settled (s : state A E) (i : nat) :
  wf s → quiescent thunks n cpus s → i < next s → i ∈ settled s.
Proof.
  intros Hwf Hq Hi. specialize (Hq (Settle i)). simpl in Hq. unfold settle in Hq.
  pose proof (wf_next s Hwf).
  destruct (lookup_lt_is_Some_2 thunks i) as [t Ht]; [lia|]. rewrite Ht in Hq.
  destruct (in_flight s i) eqn:Hfl; [by destruct t|].
  destruct (decide (i ∈ settled s)) as [|Hs]; [done|].
  assert (in_flight s i = true); [|congruence].
  apply in_flight_spec. split; [|done].
  rewrite (wf_resolved s Hwf), elem_of_seq. lia.
Qed.

Lemma quiescent_result (s : state A E) :
  1 ≤ k → wf s → sound s → current s → balanced s →
  quiescent thunks n cpus s → ∃ vs, result s = Some (Fulfilled vs).
Proof using no_failure.
  intros Hk Hwf Hsound Hcur Hbal Hq.
  assert (Hjobs : jobs s = []).
  { specialize (Hq Tick). simpl in Hq. unfold tick in Hq. by destruct (jobs s). }
  assert (Hall : ∀ i, i < next s → i ∈ settled s) by (intros; by apply quiescent_settled).
  assert (Hlen : length (settled s) = next s).
  { pose proof (unsettled_length s Hwf) as Hu.
    destruct (unsettled s) as [|i us] eqn:Hus; [done|].
    assert (Hi : i ∈ unsettled s) by (rewrite Hus; by left).
    apply list_elem_of_filter in Hi as [Hs Hi]. destruct Hs. apply Hall.
    rewrite (wf_resolved s Hwf), elem_of_seq in Hi. lia. }
  destruct (handed s) as [snapshot|] eqn:Hh.
  2:{ specialize (Hbal Hh). rewrite Hjobs in Hbal. simpl in Hbal. lia. }
  destruct (wf_handed s Hwf _ Hh) as [-> Hnext].
  destruct (result s) as [[vs|e]|] eqn:Hr.
  - by exists vs.
  - apply (sound_earned s Hsound) in Hr as (i & _ & Hi). by destruct (no_failure i e).
  - specialize (Hcur _ Hh Hr). unfold Promise_all in Hcur.
    rewrite first_rejection_none in Hcur.
    2:{ intros i e _ [_ Hi]%slot_rejected. by destruct (no_failure i e). }
    destruct (all_values_total (slot thunks n cpus s) (seq 0 N)) as [vs Hvs];
      [|by rewrite Hvs in Hcur].
    intros i Hi%elem_of_seq. unfold slot.
    rewrite bool_decide_eq_true_2 by (apply Hall; lia).
    destruct (lookup_lt_is_Some_2 thunks i) as [[a|e] Ht]; [lia| |].
    + rewrite Ht, Hjobs. exists a.
      rewrite (bool_decide_eq_false_2 (i ∈ [])) by apply not_elem_of_nil.
      by rewrite orb_true_r.
    + by destruct (no_failure i e).
Qed.

End RunnerFacts.

(** ** Runs in which operations fail *)

Section FailureFacts.
Context {A E : Type}.
Variable thunks : list (settlement A E).
Variable n : option Q.
Variable cpus : nat.

Lemma failed_spec (i : nat) :
  failed thunks i = true ↔ ∃ e, thunks !! i = Some (Rejected e).
Proof.
  unfold failed. destruct (thunks !! i) as [[a|e]|]; split; try done.
  - by intros [e [=]].
  - by exists e.
  - by intros [e [=]].
Qed.

Lemma failures_pos : 0 < failures thunks → ∃ i e, thunks !! i = Some (Rejected e).
Proof.
  unfold failures. intros Hpos.
  destruct (filter (λ i, failed thunks i = true) (seq 0 (length thunks)))
    as [|i l] eqn:Hl; [simpl in Hpos; lia|].
  assert (Hi : i ∈ filter (λ i, failed thunks i = true) (seq 0 (length thunks)))
    by (rewrite Hl; by left).
  apply list_elem_of_filter in Hi as [Hi%failed_spec _]. by exists i.
Qed.

Lemma accounted_start : accounted thunks n cpus (start thunks n cpus).
Proof. rewrite start_eq. intros _. simpl. lia. Qed.

Lemma accounted_step (s s' : state A E) (ev : event) :
  accounted thunks n cpus s → step thunks n cpus s ev = Some s' →
  accounted thunks n cpus s'.
Proof.
  intros Hb Hstep. unfold accounted in *. destruct ev as [i|]; simpl in Hstep.
  - apply settle_fields in Hstep as (_ & t & Ht & -> & _ & -> & -> & ->).
    intros Hh%Hb. rewrite filter_app, !length_app.
    destruct t as [a|e].
    + rewrite filter_cons_False, filter_nil; [simpl; lia|].
      unfold failed. by rewrite Ht.
    + rewrite filter_cons_True, filter_nil; [simpl; lia|].
      unfold failed. by rewrite Ht.
  - apply tick_fields in Hstep
      as (j & rest & Hj & -> & -> & [(_ & _ & _ & ->)|(_ & -> & _ & ->)]);
      [done|]. intros Hh%Hb. rewrite Hj in Hh. simpl in Hh. lia.
Qed.

Lemma accounted_run (evs : list event) (s s' : state A E) :
  accounted thunks n cpus s → run thunks n cpus s evs = Some s' →
  accounted thunks n cpus s'.
Proof.
  revert s. induction evs as [|ev evs IH]; intros s Hb; simpl.
  - by intros [= <-].
  - destruct (step thunks n cpus s ev) as [s1|] eqn:Hstep; [|done].
    simpl. apply IH. by eapply accounted_step.
Qed.

(** The failures that have settled are among the failures. *)
Lemma settled_failures (s : state A E) :
  wf thunks n cpus s →
  length (filter (λ i, failed thunks i = true) (settled s)) ≤ failures thunks.
Proof.
  intros Hwf. unfold failures. apply submseteq_length, NoDup_submseteq.
  - apply NoDup_filter, (wf_settled_nodup s Hwf).
  - intros i [Hi Hs]%list_elem_of_filter. apply list_elem_of_filter. split; [done|].
    apply elem_of_seq. apply (wf_settled_launched s Hwf) in Hs.
    pose proof (wf_next s Hwf). lia.
Qed.

(** When fewer operations fail than were launched at first, a run does
    not end before [ok] is called, and the failure is then delivered. *)
Lemma quiescent_failure (s : state A E) :
  wf thunks n cpus s → sound thunks s → current thunks n cpus s →
  accounted thunks n cpus s → quiescent thunks n cpus s →
  0 < failures thunks → failures thunks < initial_length thunks n cpus →
  ∃ i e, thunks !! i = Some (Rejected e) ∧ result s = Some (Rejected e).
Proof.
  intros Hwf Hsound Hcur Hacc Hq Hpos Hfew.
  assert (Hjobs : jobs s = []).
  { specialize (Hq Tick). simpl in Hq. unfold tick in Hq. by destruct (jobs s). }
  assert (Hall : ∀ i, i < next s → i ∈ settled s)
    by (intros; by eapply quiescent_settled).
  assert (Hlen : length (settled s) = next s).
  { pose proof (unsettled_length _ _ _ s Hwf) as Hu.
    destruct (unsettled s) as [|i us] eqn:Hus; [done|].
    assert (Hi : i ∈ unsettled s) by (rewrite Hus; by left).
    apply list_elem_of_filter in Hi as [Hs Hi]. destruct Hs. apply Hall.
    rewrite (wf_resolved s Hwf), elem_of_seq in Hi. lia. }
  pose proof (settled_failures s Hwf) as Hle.
  destruct (handed s) as [snapshot|] eqn:Hh.
  2:{ specialize (Hacc Hh). rewrite Hjobs in Hacc. simpl in Hacc. lia. }
  destruct (wf_handed s Hwf _ Hh) as [-> Hnext].
  destruct (failures_pos Hpos) as (i & e & Hi).
  assert (Hset : i ∈ settled s).
  { apply Hall. rewrite Hnext. by apply lookup_lt_is_Some_1. }
  assert (Hres : ∃ e', result s = Some (Rejected e')).
  { destruct (result s) as [[vs|e']|] eqn:Hr.
    - apply (sound_earned s Hsound) in Hr as [-> _].
      rewrite list_lookup_fmap in Hi. by destruct (vs !! i).
    - by exists e'.
    - specialize (Hcur _ Hh Hr). unfold Promise_all in Hcur.
      destruct (first_rejection_some (slot thunks n cpus s) (seq 0 (length thunks)) i e)
        as [e' He'].
      + apply elem_of_seq. apply lookup_lt_Some in Hi. lia.
      + unfold slot. by rewrite bool_decide_eq_true_2, Hi.
      + by rewrite He' in Hcur. }
  destruct Hres as [e' Hr]. pose proof Hr as Hr'.
  apply (sound_earned s Hsound) in Hr' as (j & _ & Hj). by exists j, e'.
Qed.

End FailureFacts.

(** ** The runner: limit, bound, order of the results, failures *)

Lemma effective_limit_proper (n : option Q) (cpus : nat) :
  proper_limit n → (1 <= effective_limit n cpus)%Q.
Proof.
  assert (Hd : (1 <= default_limit cpus)%Q).
  { apply Qle_trans with 2%Q; [done|apply Math_max_lower]. }
  destruct n as [L|]; simpl; [|done].
  intros HL. by destruct (Qeq_bool L 0).
Qed.

Lemma initial_length_proper {A E : Type} (thunks : list (settlement A E))
    (n : option Q) (cpus : nat) :
  thunks ≠ [] → proper_limit n → 1 ≤ initial_length thunks n cpus.
Proof.
  intros Hne Hn%(effective_limit_proper _ cpus). unfold initial_length.
  rewrite slice_end_nonneg by (by apply Qle_trans with 1%Q).
  apply to_integer_mono_1 in Hn. destruct thunks; [done|]. simpl. lia.
Qed.

Lemma to_integer_half (cpus : nat) :
  to_integer (inject_Z (Z.of_nat cpus) / 2) = Z.of_nat (cpus / 2).
Proof.
  rewrite (Nat2Z.inj_div cpus 2).
  unfold to_integer, Qdiv, Qmult, Qinv, inject_Z. cbn -[Z.of_nat Z.div Z.quot].
  by rewrite Z.mul_1_r, Z.quot_div_nonneg by lia.
Qed.

Lemma two_le_half (cpus : nat) :
  Qle_bool 2 (inject_Z (Z.of_nat cpus) / 2) = bool_decide (4 ≤ cpus).
Proof.
  unfold Qle_bool, Qdiv, Qmult, Qinv, inject_Z. cbn -[Z.of_nat Z.mul Z.leb].
  change (Z.pos (1 * 2)) with 2%Z.
  case_bool_decide; [apply Z.leb_le|apply Z.leb_gt]; lia.
Qed.

Lemma initial_length_default {A E : Type} (thunks : list (settlement A E)) (cpus : nat) :
  initial_length thunks None cpus = length thunks `min` (2 `max` (cpus / 2)).
Proof.
  unfold initial_length. cbn [effective_limit]. unfold default_limit, Math_max.
  destruct (Qle_bool 2 (inject_Z (Z.of_nat cpus) / 2)) eqn:Hle.
  - assert (Hle' := Hle). apply Qle_bool_iff in Hle'.
    rewrite slice_end_nonneg by (by apply Qle_trans with 2%Q).
    rewrite to_integer_half, Nat2Z.id.
    rewrite two_le_half in Hle. apply bool_decide_eq_true in Hle.
    pose proof (Nat.div_le_lower_bound cpus 2 2). lia.
  - rewrite slice_end_nonneg by done. change (to_integer 2) with 2%Z.
    rewrite two_le_half in Hle. apply bool_decide_eq_false in Hle.
    pose proof (Nat.Div0.div_lt_upper_bound cpus 2 2). lia.
Qed.

(** C7. Called without a limit, the runner uses the larger of two and half
    the number of processing units: the number it keeps in [n] equals it,
    and, [slice] truncating, the operations launched at once are the
    first [max 2 (cpus / 2)], or all of them if there are fewer. *)
Theorem default_limit_is_max_2_half_cpus {A E : Type}
    (thunks : list (settlement A E)) (cpus : nat) :
  (effective_limit None cpus == spec_default_limit cpus)%Q
  ∧ initial_length thunks None cpus = length thunks `min` (2 `max` (cpus / 2)).
Proof.
  split; [|apply initial_length_default].
  simpl. unfold default_limit, spec_default_limit, Math_max.
  assert (Hhalf : (inject_Z (Z.of_nat cpus) / 2 == Z.of_nat cpus # 2)%Q).
  { unfold Qeq, Qdiv, Qmult, Qinv, inject_Z. simpl. lia. }
  destruct (Qle_bool 2 (inject_Z (Z.of_nat cpus) / 2)) eqn:Hle.
  - apply Qle_bool_iff in Hle. rewrite Hhalf in Hle.
    rewrite Q.max_r by done. done.
  - assert (Hgt : ¬ (2 <= inject_Z (Z.of_nat cpus) / 2)%Q).
    { intros H%Qle_bool_iff. congruence. }
    rewrite Hhalf in Hgt. apply Qnot_le_lt, Qlt_le_weak in Hgt.
    by rewrite Q.max_l.
Qed.

(** C3. With a limit [L] between one and the number of operations, no
    state of any run has more than [L] operations launched and unsettled. *)
Theorem in_flight_at_most_limit {A E : Type} (thunks : list (settlement A E))
    (L : Q) (cpus : nat) (evs : list event) (s : state A E) :
  (1 <= L)%Q →
  (L <= inject_Z (Z.of_nat (length thunks)))%Q →
  run thunks (Some L) cpus (start thunks (Some L) cpus) evs = Some s →
  (inject_Z (Z.of_nat (length (unsettled s))) <= L)%Q.
Proof.
  intros HL _ Hrun. apply wf_reachable in Hrun.
  pose proof (unsettled_le_initial _ _ _ _ Hrun) as Hle.
  unfold initial_length in Hle. rewrite effective_limit_given in Hle by done.
  assert (H0 : (0 <= L)%Q) by (by apply Qle_trans with 1%Q).
  rewrite slice_end_nonneg in Hle by done.
  pose proof (to_integer_nonneg L H0).
  apply Qle_trans with (inject_Z (to_integer L)); [|by apply to_integer_below].
  rewrite <-Zle_Qle. lia.
Qed.

Lemma in_flight_at_most_limit_witness :
  (1 <= 2)%Q ∧ (2 <= inject_Z (Z.of_nat 3))%Q
  ∧ (inject_Z (Z.of_nat (length
       (unsettled (mkState (A:=nat) (E:=string) 3 [0; 1; 2] [1] [] None None))%nat)) <= 2)%Q.
Proof.
  split; [done|]. split; [done|].
  apply (in_flight_at_most_limit
           [Fulfilled 1; Fulfilled 2; Fulfilled 3] 2 4 [Settle 1; Tick]);
    [done|done|reflexivity].
Defined.

Lemma fulfilled_fmap_inj {A E : Type} (vs ws : list A) :
  Fulfilled (E:=E) <$> vs = Fulfilled <$> ws → vs = ws.
Proof.
  revert ws. induction vs as [|v vs IH]; intros [|w ws]; simpl; try done.
  intros [= -> Hrest]. f_equal. by apply IH.
Qed.

Lemma no_operation_no_event {A E : Type} (n : option Q) (cpus : nat) :
  start (A:=A) (E:=E) [] n cpus = mkState 0 [] [] [] None None
  ∧ quiescent [] n cpus (start (A:=A) (E:=E) [] n cpus).
Proof.
  assert (Hstart : start (A:=A) (E:=E) [] n cpus = mkState 0 [] [] [] None None).
  { rewrite start_eq. pose proof (initial_length_le (A:=A) (E:=E) [] n cpus) as Hk.
    simpl in Hk. by replace (initial_length [] n cpus) with 0 by lia. }
  split; [done|]. rewrite Hstart. by intros [i|].
Qed.

(** C2, on the code. Called on an empty array the runner launches nothing,
    so no reaction ever runs [runNext] and [ok] is never called: the
    returned promise stays pending for good, whatever the limit. *)
Theorem empty_input_stays_pending {A E : Type} (n : option Q) (cpus : nat) :
  start (A:=A) (E:=E) [] n cpus = mkState 0 [] [] [] None None
  ∧ quiescent [] n cpus (start (A:=A) (E:=E) [] n cpus)
  ∧ ∀ evs s, run [] n cpus (start (A:=A) (E:=E) [] n cpus) evs = Some s →
      evs = [] ∧ result s = None.
Proof.
  assert (Hstart : start (A:=A) (E:=E) [] n cpus = mkState 0 [] [] [] None None).
  { rewrite start_eq. pose proof (initial_length_le (A:=A) (E:=E) [] n cpus) as Hk.
    simpl in Hk. by replace (initial_length [] n cpus) with 0 by lia. }
  assert (Hq : quiescent [] n cpus (start (A:=A) (E:=E) [] n cpus)).
  { rewrite Hstart. by intros [i|]. }
  split; [done|]. split; [done|].
  intros [|ev evs] s; simpl.
  - intros [= <-]. by rewrite Hstart.
  - by rewrite Hq.
Qed.

(** C4, on the code. The list of no operations is a list whose operations
    all succeed, and the runner never completes on it: nothing can happen
    after the call, [ok] is never called, and in no run does the returned
    promise hold the list of no results, or any result. *)
Theorem all_succeed_empty_never_completes {A E : Type} (n : option Q) (cpus : nat) :
  (∀ i t, (Fulfilled (E:=E) <$> @nil A) !! i = Some t → ∃ a, t = Fulfilled a)
  ∧ quiescent (Fulfilled <$> []) n cpus (start (Fulfilled (E:=E) <$> @nil A) n cpus)
  ∧ ¬ (∃ evs s, run (Fulfilled <$> []) n cpus
                    (start (Fulfilled (E:=E) <$> @nil A) n cpus) evs = Some s
                ∧ (handed s ≠ None ∨ result s ≠ None)).
Proof.
  destruct (no_operation_no_event (A:=A) (E:=E) n cpus) as [Hstart Hq].
  split; [by intros i t|]. split; [done|].
  intros (evs & s & Hrun & Hres). destruct evs as [|ev evs]; simpl in Hrun.
  - injection Hrun as <-. simpl in Hstart. rewrite Hstart in Hres.
    by destruct Hres.
  - simpl in Hq. by rewrite Hq in Hrun.
Qed.

(** X24. When every operation succeeds with the values [vs], in whatever
    order they complete: a result, once there, is the fulfilment with [vs]
    as they stand in the input, and every operation has settled by then;
    every run can be carried on until nothing is left to happen; and, for a
    non-empty input and a proper limit, a run carried that far has the
    result. *)
Theorem all_succeed_results_in_input_order {A E : Type} (vs : list A)
    (n : option Q) (cpus : nat) (evs : list event) (s : state A E) :
  run (Fulfilled <$> vs) n cpus (start (Fulfilled <$> vs) n cpus) evs = Some s →
  (∀ r, result s = Some r →
     r = Fulfilled vs ∧ unsettled s = [] ∧ ∀ i, i < length vs → i ∈ settled s)
  ∧ (∃ evs' s', run (Fulfilled <$> vs) n cpus s evs' = Some s'
                ∧ quiescent (Fulfilled <$> vs) n cpus s')
  ∧ (vs ≠ [] → proper_limit n → quiescent (Fulfilled <$> vs) n cpus s →
     result s = Some (Fulfilled vs)).
Proof.
  intros Hrun. set (thunks := Fulfilled (E:=E) <$> vs) in *.
  assert (Hok : ∀ i e, thunks !! i ≠ Some (Rejected e)).
  { intros i e. unfold thunks. rewrite list_lookup_fmap. by destruct (vs !! i). }
  pose proof (wf_reachable _ _ _ _ _ Hrun) as Hwf.
  destruct (sound_reachable _ _ _ _ _ Hrun) as [Hsound Hcur].
  assert (Hres : ∀ r, result s = Some r →
     r = Fulfilled vs ∧ unsettled s = [] ∧ ∀ i, i < length vs → i ∈ settled s).
  { intros r Hr. apply (sound_earned s Hsound) in Hr. destruct r as [ws|e]; simpl in Hr.
    - destruct Hr as [Heq Hall]. unfold thunks in Heq, Hall.
      apply fulfilled_fmap_inj in Heq as <-. rewrite length_fmap in Hall.
      split; [done|]. split; [|done].
      destruct (unsettled s) as [|i us] eqn:Hus; [done|].
      assert (Hi : i ∈ unsettled s) by (rewrite Hus; by left).
      apply list_elem_of_filter in Hi as [Hs Hi]. destruct Hs. apply Hall.
      rewrite (wf_resolved s Hwf), elem_of_seq in Hi.
      pose proof (wf_next s Hwf) as Hn. unfold thunks in Hn.
      rewrite length_fmap in Hn. lia.
    - destruct Hr as (i & _ & Hi). by destruct (Hok i e). }
  split; [done|]. split; [by apply run_to_quiescence|].
  intros Hne Hn Hq.
  destruct (quiescent_result thunks n cpus Hok s) as [ws Hws]; try done.
  - apply initial_length_proper; [|done]. unfold thunks. by destruct vs.
  - eapply balanced_run; [done|apply balanced_start|done].
  - rewrite Hws. by destruct (Hres _ Hws) as [[= ->] _].
Qed.

Lemma all_succeed_results_in_input_order_witness :
  run (Fulfilled <$> [10; 20; 30]) (Some 2%Q) 4
      (start (Fulfilled (E:=string) <$> [10; 20; 30]) (Some 2%Q) 4)
      [Settle 1; Tick; Settle 2; Settle 0; Tick; Tick]
  = Some (mkState 3 [0; 1; 2] [1; 2; 0] [] (Some [0; 1; 2])
            (Some (Fulfilled [10; 20; 30])))
  ∧ (quiescent (Fulfilled (E:=string) <$> [10; 20; 30]) (Some 2%Q) 4
       (mkState 3 [0; 1; 2] [1; 2; 0] [] (Some [0; 1; 2])
          (Some (Fulfilled [10; 20; 30]))) →
     result (mkState (A:=nat) (E:=string) 3 [0; 1; 2] [1; 2; 0] []
               (Some [0; 1; 2]) (Some (Fulfilled [10; 20; 30])))
     = Some (Fulfilled [10; 20; 30])).
Proof.
  split; [reflexivity|]. intros Hq.
  by apply (all_succeed_results_in_input_order [10; 20; 30] (Some 2%Q) 4
              [Settle 1; Tick; Settle 2; Settle 0; Tick; Tick]).
Defined.

(** ** Failures *)




(** A failure can also leave the returned promise pending for good: when
    the only operation fails, no reaction runs and [ok] is never called. *)
Example lone_failure_stays_pending :
  run [Rejected "boom"%string] (Some 1%Q) 4
      (start [Rejected (A:=nat) "boom"%string] (Some 1%Q) 4) [Settle 0]
  = Some (mkState 1 [0] [0] [] None None)
  ∧ quiescent [Rejected (A:=nat) "boom"%string] (Some 1%Q) 4
      (mkState 1 [0] [0] [] None None).
Proof.
  split; [reflexivity|]. intros [i|]; [|done]. unfold step, settle.
  destruct (in_flight _ i) eqn:Hfl; [|done].
  apply in_flight_spec in Hfl as [Hl Hs]. simpl in *. destruct Hs.
  rewrite !elem_of_cons in *. tauto.
Qed.


(** * Properties of the orchestrator *)

Import Tarball Orchestrator.

(** ** Traces and results of the combinators *)

Section Combinators.
Context {X Y : Type}.

Lemma bind_trace (m : M X) (f : X → M Y) :
  (m ≫= f).1 = m.1 ++ match m.2 with Returns x => (f x).1 | _ => [] end.
Proof.
  destruct m as [t [x|e|]]; simpl; rewrite ?app_nil_r; [|done..].
  by destruct (f x).
Qed.

Lemma bind_result (m : M X) (f : X → M Y) :
  (m ≫= f).2 = match m.2 with
               | Returns x => (f x).2
               | Throws e => Throws e
               | Pending => Pending
               end.
Proof. destruct m as [t [x|e|]]; simpl; [|done..]. by destruct (f x). Qed.

Lemma try_catch_trace (m : M X) (h : string → M X) :
  (try_catch m h).1 = m.1 ++ match m.2 with Throws e => (h e).1 | _ => [] end.
Proof.
  destruct m as [t [x|e|]]; simpl; rewrite ?app_nil_r; [done| |done].
  by destruct (h e).
Qed.

Lemma try_catch_result (m : M X) (h : string → M X) :
  (try_catch m h).2 = match m.2 with Throws e => (h e).2 | r => r end.
Proof. destruct m as [t [x|e|]]; simpl; [done| |done]. by destruct (h e). Qed.

Lemma finally_trace (m : M X) (c : M unit) :
  (finally m c).1 = m.1 ++ match m.2 with Pending => [] | _ => c.1 end.
Proof.
  destruct m as [t [x|e|]], c as [t' [[]|e'|]]; simpl; by rewrite ?app_nil_r.
Qed.

End Combinators.

Section OrchestratorFacts.
Variable argv : options.
Variable w : world.

Lemma debug_result (message : string) : (debug argv message).2 = Returns tt.
Proof. unfold debug. by destruct (verbose argv =? 0). Qed.

Lemma lift_trace {X : Type} (r : fallible X) : (lift r).1 = [].
Proof. by destruct r. Qed.

(** ** Events of a kind that most steps do not make *)

Section Silent.
Variable kind : event → bool.
Hypothesis kind_stderr : ∀ text, kind (Stderr text) = false.

Local Abbreviation silent := (Orchestrator.silent kind).

Lemma silent_bind {X Y : Type} (m : M X) (f : X → M Y) :
  silent m → (∀ x, m.2 = Returns x → silent (f x)) → silent (m ≫= f).
Proof.
  unfold silent. rewrite bind_trace. intros Hm Hf. apply Forall_app. split; [done|].
  destruct (m.2); [by apply Hf|apply Forall_nil..]; done.
Qed.

Lemma silent_try_catch {X : Type} (m : M X) (h : string → M X) :
  silent m → (∀ e, silent (h e)) → silent (try_catch m h).
Proof.
  unfold silent. rewrite try_catch_trace. intros Hm Hh. apply Forall_app.
  split; [done|]. destruct (m.2); [apply Forall_nil|apply Hh|apply Forall_nil]; done.
Qed.

Lemma silent_finally {X : Type} (m : M X) (c : M unit) :
  silent m → silent c → silent (finally m c).
Proof.
  unfold silent. rewrite finally_trace. intros Hm Hc. apply Forall_app.
  split; [done|]. destruct (m.2); [done..|apply Forall_nil]; done.
Qed.

Lemma silent_ret {X : Type} (x : X) : silent (mret x).
Proof. apply Forall_nil. done. Qed.

Lemma silent_throw {X : Type} (message : string) : silent (throw (X:=X) message).
Proof. apply Forall_nil. done. Qed.

Lemma silent_lift {X : Type} (r : fallible X) : silent (lift r).
Proof. destruct r; [apply silent_ret|apply silent_throw]. Qed.

Lemma silent_emit (ev : event) : kind ev = false → silent (emit ev).
Proof. intros Hev. unfold silent. simpl. by apply Forall_singleton. Qed.

Lemma silent_debug (message : string) : silent (debug argv message).
Proof using kind_stderr.
  unfold debug. destruct (verbose argv =? 0); [apply silent_ret|by apply silent_emit].
Qed.

Lemma silent_read_tarball (tarballs : list TarballInfo) (tarball : string) :
  silent (read_tarball argv w tarballs tarball).
Proof using kind_stderr.
  unfold read_tarball. apply silent_try_catch.
  - apply silent_bind; [apply silent_lift|]. intros buffer _.
    apply silent_bind; [apply silent_lift|]. intros pj _. apply silent_ret.
  - intros e. apply silent_bind; [apply silent_debug|]. intros _ _. apply silent_ret.
Qed.

Lemma silent_read_tarballs (tarballFiles : list string) (tarballs : list TarballInfo) :
  silent (read_tarballs argv w tarballs tarballFiles).
Proof using kind_stderr.
  revert tarballs. induction tarballFiles as [|tarball rest IH]; intros tarballs; simpl.
  - apply silent_ret.
  - apply silent_bind; [apply silent_read_tarball|]. intros tarballs' _. apply IH.
Qed.

Lemma silent_list_tarballs : silent (list_tarballs argv w).
Proof.
  assert (Hdir : silent (directory_tarballs argv w)).
  { apply silent_bind; [apply silent_lift|]. intros fs _. apply silent_ret. }
  unfold list_tarballs. destruct (glob argv) as [pattern|]; [|done].
  destruct (String.eqb pattern ""); [done|apply silent_lift].
Qed.

Lemma silent_collect_tarballs : silent (collect_tarballs argv w).
Proof using kind_stderr.
  unfold collect_tarballs. apply silent_bind; [apply silent_list_tarballs|].
  intros tarballFiles _. apply silent_read_tarballs.
Qed.

Lemma silent_cleanup (tempDir : string) :
  kind (Rmdir tempDir) = false → silent (cleanup w tempDir).
Proof using kind_stderr.
  intros Hrm. unfold cleanup. apply silent_bind; [by apply silent_emit|].
  intros _ _. apply silent_try_catch; [apply silent_lift|].
  intros e. by apply silent_emit.
Qed.

End Silent.

(** ** One listener at a time *)

Lemma listeners_app (o : nat) (t1 t2 : list event) :
  listeners o (t1 ++ t2) = listeners (listeners o t1) t2.
Proof. apply foldl_app. Qed.

Lemma disciplined_app (o : nat) (t1 t2 : list event) :
  disciplined o (t1 ++ t2) = disciplined o t1 && disciplined (listeners o t1) t2.
Proof.
  revert o. induction t1 as [|ev t1 IH]; intros o; [done|].
  destruct ev; simpl; rewrite ?IH; try done.
  destruct o; [|done]. done.
Qed.

Lemma quiet_listeners (o : nat) (t : list event) :
  Forall (λ ev, is_listener ev = false) t →
  disciplined o t = true ∧ listeners o t = o.
Proof.
  induction 1 as [|ev t Hev _ IH]; [done|]. by destruct ev.
Qed.

Lemma orderly_quiet {X : Type} (m : M X) : silent is_listener m → orderly m.
Proof. intros Hm. destruct (quiet_listeners 0 _ Hm). by split. Qed.

Lemma orderly_bind {X Y : Type} (m : M X) (f : X → M Y) :
  orderly m → (∀ x, m.2 = Returns x → orderly (f x)) → orderly (m ≫= f).
Proof.
  intros [Hd Hl] Hf. unfold orderly.
  rewrite bind_trace, bind_result, disciplined_app, listeners_app, Hd.
  destruct (m.2) as [x|e|].
  - rewrite Hl by done. by apply Hf.
  - rewrite Hl by done. done.
  - done.
Qed.

Lemma orderly_try_catch {X : Type} (m : M X) (h : string → M X) :
  orderly m → (∀ e, silent is_listener (h e)) → orderly (try_catch m h).
Proof.
  intros [Hd Hl] Hh. unfold orderly.
  rewrite try_catch_trace, try_catch_result, disciplined_app, listeners_app, Hd.
  destruct (m.2) as [x|e|].
  - by rewrite Hl.
  - rewrite Hl by done. destruct (quiet_listeners 0 _ (Hh e)) as [-> ->]. done.
  - done.
Qed.

Lemma finally_result {X : Type} (m : M X) (c : M unit) :
  (finally m c).2 = Pending ∨ m.2 ≠ Pending.
Proof. destruct m as [t [x|e|]], c as [t' [[]|e'|]]; simpl; auto. Qed.

Lemma orderly_finally {X : Type} (m : M X) (c : M unit) :
  orderly m → silent is_listener c → orderly (finally m c).
Proof.
  intros [Hd Hl] Hc. unfold orderly.
  destruct (quiet_listeners (listeners 0 m.1) _ Hc) as [Hcd Hcl].
  rewrite finally_trace, disciplined_app, listeners_app, Hd.
  destruct (finally_result m c) as [->|Hm]; [by destruct (m.2)|].
  destruct (m.2) as [x|e|]; [| |done]; rewrite Hcd, Hcl; auto.
Qed.

Lemma orderly_runVerdaccio (config : verdaccio_config) (block : M unit) :
  silent is_listener block → orderly (runVerdaccio argv w config block).
Proof.
  intros Hb. unfold runVerdaccio.
  apply orderly_bind; [by apply orderly_quiet, silent_emit|]. intros _ _.
  apply orderly_bind; [by apply orderly_quiet, silent_debug|]. intros _ _.
  unfold orderly. rewrite bind_trace, bind_result. simpl.
  destruct block as [t [[]|e|]]; simpl; unfold silent in Hb; simpl in Hb;
    rewrite ?disciplined_app, ?listeners_app;
    destruct (quiet_listeners 1 _ Hb) as [-> ->]; done.
Qed.

Lemma silent_invokeSubprocess (kind : event → bool) (cmd : list string)
    (vars : list (string * string)) (outcome : completion unit) :
  (∀ text, kind (Stderr text) = false) → kind (Spawn cmd vars) = false →
  silent kind (invokeSubprocess argv cmd vars outcome).
Proof.
  intros Herr Hspawn. unfold invokeSubprocess.
  apply silent_bind.
  { destruct (verbose argv =? 0); [apply silent_ret|by apply silent_emit]. }
  intros _ _. apply silent_bind; [by apply silent_emit|]. intros _ _.
  apply Forall_nil. done.
Qed.

Lemma silent_launches (kind : event → bool) (tempDir : string)
    (tarballs : list TarballInfo) :
  (∀ text, kind (Stderr text) = false) →
  (∀ cmd vars, kind (Spawn cmd vars) = false) →
  Forall (λ ev, kind ev = false)
    (mjoin ((λ t, (publish_thunk argv w tempDir t).1) <$> tarballs)).
Proof.
  intros Herr Hspawn. apply Forall_forall.
  intros ev (l & Hev & (t & -> & _)%list_elem_of_fmap)%list_elem_of_join.
  pose proof (silent_invokeSubprocess kind
    ["npm"; "--loglevel"; "silent"; "publish"; "--force"; tarballFile t]
    (npmConfigVars argv w tempDir) (npm_publish w (tarballFile t)) Herr (Hspawn _ _))
    as Hquiet.
  unfold silent in Hquiet. rewrite Forall_forall in Hquiet. by apply Hquiet.
Qed.

Lemma publish_block_trace (tempDir : string) (tarballs : list TarballInfo) :
  (publish_block argv w tempDir tarballs).1
  = PublishAll (tarballFile <$> tarballs)
    :: mjoin ((λ t, (publish_thunk argv w tempDir t).1)
                <$> take (Runner.next (published w tarballs)) tarballs).
Proof. unfold publish_block. by rewrite bind_trace. Qed.

Lemma publish_block_result (tempDir : string) (tarballs : list TarballInfo) :
  (publish_block argv w tempDir tarballs).2 = publish_all w tarballs.
Proof. unfold publish_block. by rewrite bind_result. Qed.

Lemma silent_publish_block (kind : event → bool) (tempDir : string)
    (tarballs : list TarballInfo) :
  (∀ text, kind (Stderr text) = false) →
  (∀ cmd vars, kind (Spawn cmd vars) = false) →
  kind (PublishAll (tarballFile <$> tarballs)) = false →
  silent kind (publish_block argv w tempDir tarballs).
Proof.
  intros Herr Hspawn Hk. unfold silent. rewrite publish_block_trace.
  apply Forall_cons. split; [done|]. by apply silent_launches.
Qed.

Lemma silent_daemon_action (kind : event → bool) (vars : list (string * string)) :
  (∀ text, kind (Stderr text) = false) → (∀ message, kind (Send message) = false) →
  silent kind (daemon_action argv w vars).
Proof.
  intros Herr Hsend. unfold daemon_action.
  apply silent_bind; [by apply silent_emit|]. intros _ _.
  apply silent_bind; [by apply silent_debug|]. intros _ _.
  destruct (signalled w); [by apply silent_debug|apply Forall_nil; done].
Qed.

Lemma silent_command_action (kind : event → bool) (vars : list (string * string)) :
  (∀ text, kind (Stderr text) = false) → kind IgnoreSIGINT = false →
  kind (Spawn (command argv) vars) = false →
  silent kind (command_action argv w vars).
Proof.
  intros Herr Hsig Hspawn. unfold command_action, invokeSubprocess.
  apply silent_bind; [by apply silent_emit|]. intros _ _.
  apply silent_bind; [|intros _ _; by apply silent_debug].
  apply silent_bind.
  { destruct (verbose argv =? 0); [apply silent_ret|by apply silent_emit]. }
  intros _ _. apply silent_bind; [by apply silent_emit|]. intros _ _.
  apply Forall_nil. done.
Qed.

Lemma orderly_runWithServer (action : list (string * string) → M unit) :
  (∀ vars, silent is_listener (action vars)) →
  orderly (runWithServer argv w action).
Proof.
  intros Haction. unfold runWithServer.
  apply orderly_bind; [apply orderly_quiet, silent_lift|]. intros tempDir _.
  apply orderly_finally; [|by apply silent_cleanup].
  apply orderly_try_catch.
  2:{ intros e. apply silent_bind; [by apply silent_emit|].
      intros _ _. by apply silent_emit. }
  unfold attempt.
  apply orderly_bind; [by apply orderly_quiet, silent_debug|]. intros _ _.
  apply orderly_bind; [by apply orderly_quiet, silent_collect_tarballs|].
  intros tarballs _.
  apply orderly_bind; [apply orderly_quiet, silent_lift|]. intros _ _.
  apply orderly_bind; [by apply orderly_quiet, silent_emit|]. intros _ _.
  apply orderly_bind.
  { unfold publish_phase. case_bool_decide; [|apply orderly_quiet, silent_ret].
    apply orderly_bind; [by apply orderly_quiet, silent_debug|]. intros _ _.
    by apply orderly_runVerdaccio, silent_publish_block. }
  intros _ _. unfold serve_phase.
  apply orderly_bind; [by apply orderly_quiet, silent_debug|]. intros _ _.
  by apply orderly_runVerdaccio.
Qed.

Lemma orderly_program (child : bool) : orderly (program argv w child).
Proof.
  unfold program. apply orderly_try_catch.
  2:{ intros e. apply silent_bind; [by apply silent_emit|].
      intros _ _. by apply silent_emit. }
  unfold main.
  destruct (_ && _); [apply orderly_quiet, silent_throw|].
  destruct (_ && _); [apply orderly_quiet, silent_throw|].
  destruct (daemon argv).
  - destruct child.
    + apply orderly_runWithServer. intros vars. by apply silent_daemon_action.
    + apply orderly_quiet. apply silent_bind; [by apply silent_emit|]. intros _ _.
      destruct (first_message _); [|apply Forall_nil; done].
      apply silent_bind; [by apply silent_emit|]. intros _ _.
      apply silent_bind; [by apply silent_emit|]. intros _ _. by apply silent_emit.
  - apply orderly_runWithServer. intros vars. by apply silent_command_action.
Qed.

Lemma disciplined_prefix (o : nat) (pre suf : list event) :
  o ≤ 1 → disciplined o (pre ++ suf) = true →
  listeners o pre ≤ 1 ∧ disciplined (listeners o pre) suf = true.
Proof.
  revert o. induction pre as [|ev pre IH]; intros o Ho; [done|].
  destruct ev; simpl; try (by apply IH).
  - intros [->%Nat.eqb_eq Hd]%andb_true_iff. by apply IH.
  - apply IH. lia.
Qed.

(** ** Every listener is on the configured port *)

Local Abbreviation elsewhere := (off_port (port argv)).

Lemma silent_runVerdaccio_elsewhere (config : verdaccio_config) (block : M unit) :
  silent elsewhere block → silent elsewhere (runVerdaccio argv w config block).
Proof.
  intros Hb. unfold runVerdaccio.
  apply silent_bind; [by apply silent_emit|]. intros _ _.
  apply silent_bind; [by apply silent_debug|]. intros _ _.
  assert (Hport : ∀ ev, ev = Listen (port argv) ∨ ev = Close (port argv) →
                        elsewhere ev = false).
  { intros ev [-> | ->]; simpl; by rewrite N.eqb_refl. }
  apply silent_bind; [apply silent_emit, Hport; by left|]. intros _ _.
  unfold silent in *. destruct block as [t [[]|e|]]; simpl in *; [| |done];
    (apply Forall_app; split; [done|apply Forall_singleton, Hport; by right]).
Qed.

Lemma silent_runWithServer_elsewhere (action : list (string * string) → M unit) :
  (∀ vars, silent elsewhere (action vars)) →
  silent elsewhere (runWithServer argv w action).
Proof.
  intros Haction. unfold runWithServer.
  apply silent_bind; [apply silent_lift|]. intros tempDir _.
  apply silent_finally; [|by apply silent_cleanup].
  apply silent_try_catch.
  2:{ intros e. apply silent_bind; [by apply silent_emit|].
      intros _ _. by apply silent_emit. }
  unfold attempt.
  apply silent_bind; [by apply silent_debug|]. intros _ _.
  apply silent_bind; [by apply silent_collect_tarballs|]. intros tarballs _.
  apply silent_bind; [apply silent_lift|]. intros _ _.
  apply silent_bind; [by apply silent_emit|]. intros _ _.
  apply silent_bind.
  { unfold publish_phase. case_bool_decide; [|apply silent_ret].
    apply silent_bind; [by apply silent_debug|]. intros _ _.
    by apply silent_runVerdaccio_elsewhere, silent_publish_block. }
  intros _ _. unfold serve_phase.
  apply silent_bind; [by apply silent_debug|]. intros _ _.
  by apply silent_runVerdaccio_elsewhere.
Qed.

Lemma silent_program_elsewhere (child : bool) :
  silent elsewhere (program argv w child).
Proof.
  unfold program. apply silent_try_catch.
  2:{ intros e. apply silent_bind; [by apply silent_emit|].
      intros _ _. by apply silent_emit. }
  unfold main.
  destruct (_ && _); [apply silent_throw|].
  destruct (_ && _); [apply silent_throw|].
  destruct (daemon argv).
  - destruct child.
    + apply silent_runWithServer_elsewhere. intros vars. by apply silent_daemon_action.
    + apply silent_bind; [by apply silent_emit|]. intros _ _.
      destruct (first_message _); [|apply Forall_nil; done].
      apply silent_bind; [by apply silent_emit|]. intros _ _.
      apply silent_bind; [by apply silent_emit|]. intros _ _. by apply silent_emit.
  - apply silent_runWithServer_elsewhere. intros vars. by apply silent_command_action.
Qed.

End OrchestratorFacts.

(** C5. At every point of every run, of the child, the parent or a single
    run, at most one listener is open; a listener is opened only when none
    is open, so the listener of the publish phase is closed before the one
    of the serve phase opens; and every listener is on the configured
    port. A listener is open from the call of [listen] to the call of
    [close]. *)
Theorem one_listener_at_a_time (argv : options) (w : world) (child : bool)
    (pre suf : list event) :
  (program argv w child).1 = pre ++ suf →
  listeners 0 pre ≤ 1
  ∧ ∀ p rest, suf = Listen p :: rest → listeners 0 pre = 0 ∧ p = port argv.
Proof.
  intros Htrace. destruct (orderly_program argv w child) as [Hd _].
  rewrite Htrace in Hd. apply disciplined_prefix in Hd as [Hle Hsuf]; [|lia].
  split; [done|]. intros p rest ->. simpl in Hsuf.
  apply andb_true_iff in Hsuf as [Hopen%Nat.eqb_eq _]. split; [done|].
  pose proof (silent_program_elsewhere argv w child) as Hport.
  unfold silent in Hport. rewrite Htrace in Hport.
  apply Forall_app in Hport as [_ Hport]. apply Forall_cons in Hport as [Hp _].
  simpl in Hp. apply negb_false_iff, N.eqb_eq in Hp. done.
Qed.

Lemma one_listener_at_a_time_witness :
  (program sample_options sample_world true).1
  = [ WriteFile "/tmp/serve-npm-tarballs-abc/.npmrc"
        (join LF ["//localhost:4873/:_authToken=none"; ""]);
      StartVerdaccio (publish_config sample_options "/tmp/serve-npm-tarballs-abc") 4873;
      Listen 4873;
      PublishAll ["dist/a.tgz"];
      Spawn ["npm"; "--loglevel"; "silent"; "publish"; "--force"; "dist/a.tgz"]
        (npmConfigVars sample_options sample_world "/tmp/serve-npm-tarballs-abc");
      Close 4873;
      StartVerdaccio
        (serve_config sample_options "/tmp/serve-npm-tarballs-abc"
           [mkTarballInfo "dist/a.tgz" (mkManifest "a")]) 4873 ]
    ++ Listen 4873
       :: [ Send (join LF
              [ "export npm_config_userconfig=/tmp/serve-npm-tarballs-abc/.npmrc";
                "export npm_config_registry=http://localhost:4873/";
                "export SERVE_NPM_TARBALLS_PID=4242";
                "export SERVE_NPM_TARBALLS_WORKDIR=/tmp/serve-npm-tarballs-abc" ]) ]
  ∧ listeners 0
      [ WriteFile "/tmp/serve-npm-tarballs-abc/.npmrc"
          (join LF ["//localhost:4873/:_authToken=none"; ""]);
        StartVerdaccio (publish_config sample_options "/tmp/serve-npm-tarballs-abc") 4873;
        Listen 4873;
        PublishAll ["dist/a.tgz"];
        Spawn ["npm"; "--loglevel"; "silent"; "publish"; "--force"; "dist/a.tgz"]
          (npmConfigVars sample_options sample_world "/tmp/serve-npm-tarballs-abc");
        Close 4873;
        StartVerdaccio
          (serve_config sample_options "/tmp/serve-npm-tarballs-abc"
             [mkTarballInfo "dist/a.tgz" (mkManifest "a")]) 4873 ] = 0.
Proof.
  assert (Htrace : (program sample_options sample_world true).1
    = [ WriteFile "/tmp/serve-npm-tarballs-abc/.npmrc"
          (join LF ["//localhost:4873/:_authToken=none"; ""]);
        StartVerdaccio (publish_config sample_options "/tmp/serve-npm-tarballs-abc") 4873;
        Listen 4873;
        PublishAll ["dist/a.tgz"];
        Spawn ["npm"; "--loglevel"; "silent"; "publish"; "--force"; "dist/a.tgz"]
          (npmConfigVars sample_options sample_world "/tmp/serve-npm-tarballs-abc");
        Close 4873;
        StartVerdaccio
          (serve_config sample_options "/tmp/serve-npm-tarballs-abc"
             [mkTarballInfo "dist/a.tgz" (mkManifest "a")]) 4873 ]
      ++ Listen 4873
         :: [ Send (join LF
                [ "export npm_config_userconfig=/tmp/serve-npm-tarballs-abc/.npmrc";
                  "export npm_config_registry=http://localhost:4873/";
                  "export SERVE_NPM_TARBALLS_PID=4242";
                  "export SERVE_NPM_TARBALLS_WORKDIR=/tmp/serve-npm-tarballs-abc" ]) ])
    by (vm_compute; reflexivity).
  split; [exact Htrace|].
  by apply (one_listener_at_a_time sample_options sample_world true _ _ Htrace)
    with (p := 4873%N)
         (rest := [ Send (join LF
                [ "export npm_config_userconfig=/tmp/serve-npm-tarballs-abc/.npmrc";
                  "export npm_config_registry=http://localhost:4873/";
                  "export SERVE_NPM_TARBALLS_PID=4242";
                  "export SERVE_NPM_TARBALLS_WORKDIR=/tmp/serve-npm-tarballs-abc" ]) ]).
Defined.

(** ** The registry events of a run *)

Section PhaseFacts.
Variable argv : options.
Variable w : world.

Lemma registry_app (t1 t2 : list event) : registry (t1 ++ t2) = registry t1 ++ registry t2.
Proof. apply filter_app. Qed.

Lemma registry_silent {X : Type} (m : M X) : silent is_registry m → registry m.1 = [].
Proof.
  unfold silent, registry. induction 1 as [|ev t Hev _ IH]; [done|].
  rewrite filter_cons_False; [done|]. by rewrite Hev.
Qed.

Lemma registry_bind {X Y : Type} (m : M X) (f : X → M Y) :
  registry (m ≫= f).1
  = registry m.1 ++ match m.2 with Returns x => registry (f x).1 | _ => [] end.
Proof. rewrite bind_trace, registry_app. by destruct (m.2). Qed.

Lemma registry_bind_silent {X Y : Type} (m : M X) (f : X → M Y) (x : X) :
  silent is_registry m → m.2 = Returns x → registry (m ≫= f).1 = registry (f x).1.
Proof. intros Hm Hx. by rewrite registry_bind, registry_silent, Hx. Qed.

Lemma registry_runVerdaccio (config : verdaccio_config) (block : M unit) :
  silent is_registry block →
  registry (runVerdaccio argv w config block).1
  = [StartVerdaccio config (port argv); Listen (port argv)]
    ++ match block.2 with Pending => [] | _ => [Close (port argv)] end.
Proof.
  intros Hb%registry_silent. unfold runVerdaccio.
  rewrite registry_bind. simpl.
  rewrite (registry_bind_silent _ _ tt); [|by apply silent_debug|apply debug_result].
  destruct block as [t [[]|e|]]; unfold registry in *; simpl in *;
    rewrite filter_cons_True by done; rewrite ?filter_app, Hb; done.
Qed.

(** With no tarball collected, the body of [runWithServer] starts the
    registry of the serve phase and no other. *)
Lemma registry_attempt_none (tempDir : string)
    (action : list (string * string) → M unit) :
  (∀ vars, silent is_registry (action vars)) →
  (collect_tarballs argv w).2 = Returns [] →
  registry (attempt argv w tempDir action).1
  = match writeFile w with
    | Failed _ => []
    | Done _ =>
        [StartVerdaccio (serve_config argv tempDir []) (port argv); Listen (port argv)]
        ++ match (action (npmConfigVars argv w tempDir)).2 with
           | Pending => []
           | _ => [Close (port argv)]
           end
    end.
Proof.
  intros Haction Hnone. unfold attempt.
  rewrite (registry_bind_silent _ _ tt); [|by apply silent_debug|apply debug_result].
  rewrite (registry_bind_silent _ _ []); [|by apply silent_collect_tarballs|done].
  destruct (writeFile w) as [[]|e].
  2:{ by rewrite registry_bind, registry_silent by apply silent_lift. }
  rewrite (registry_bind_silent _ _ tt); [|apply silent_lift|done].
  rewrite (registry_bind_silent _ _ tt); [|by apply silent_emit|done].
  change (publish_phase argv w tempDir []) with (mret tt : M unit).
  rewrite (registry_bind_silent _ _ tt); [|apply silent_ret|done].
  unfold serve_phase.
  rewrite (registry_bind_silent _ _ tt); [|by apply silent_debug|apply debug_result].
  by apply registry_runVerdaccio.
Qed.

Lemma registry_runWithServer_none (action : list (string * string) → M unit) :
  (∀ vars, silent is_registry (action vars)) →
  (collect_tarballs argv w).2 = Returns [] →
  registry (runWithServer argv w action).1
  = match mkdtemp w with
    | Failed _ => []
    | Done tempDir => registry (attempt argv w tempDir action).1
    end.
Proof.
  intros Haction Hnone. unfold runWithServer.
  rewrite registry_bind, (registry_silent (lift _)) by apply silent_lift.
  destruct (mkdtemp w) as [tempDir|e]; [|done]. simpl.
  rewrite finally_trace, try_catch_trace, !registry_app.
  assert (Hh : ∀ e, registry (emit (Stderr e);; emit (ExitCode 1) : M unit).1 = []) by done.
  assert (Hc : registry (cleanup w tempDir).1 = []).
  { by apply registry_silent, silent_cleanup. }
  destruct ((attempt argv w tempDir action).2) as [[]|e|] eqn:Hr;
    rewrite ?try_catch_result, ?Hr; simpl; rewrite ?Hc, ?app_nil_r; done.
Qed.

Lemma silent_action_of (vars : list (string * string)) :
  silent is_registry (action_of argv w vars).
Proof.
  unfold action_of. destruct (daemon argv).
  - by apply silent_daemon_action.
  - by apply silent_command_action.
Qed.

Lemma main_runs_server (child : bool) :
  runs_server argv child = true →
  main argv w child = runWithServer argv w (action_of argv w).
Proof.
  unfold runs_server, main, action_of.
  destruct (daemon argv), child; simpl; repeat case_bool_decide; simpl;
    try done; lia.
Qed.

Lemma registry_main_idle (child : bool) :
  runs_server argv child = false → registry (main argv w child).1 = [].
Proof.
  unfold runs_server, main.
  destruct (daemon argv), child; simpl; repeat case_bool_decide; simpl;
    try done; try lia.
  intros _. by destruct (first_message _).
Qed.

Lemma registry_program (child : bool) :
  registry (program argv w child).1 = registry (main argv w child).1.
Proof.
  unfold program. rewrite try_catch_trace, registry_app.
  destruct ((main argv w child).2); simpl; by rewrite ?app_nil_r.
Qed.

End PhaseFacts.

(** C10. When no tarball was collected, the registry events of a run are
    those of the serve phase alone: the registry is started once, with the
    configuration of the serve phase, listens, and is closed unless the
    action never ends; nothing is published. This is what a process that
    runs the registry does once its working directory and its [.npmrc]
    are there; otherwise it starts no registry at all. *)
Theorem no_tarballs_only_serve_phase (argv : options) (w : world) (child : bool) :
  (collect_tarballs argv w).2 = Returns [] →
  (registry (program argv w child).1 = []
   ∨ ∃ tempDir, mkdtemp w = Done tempDir
       ∧ (registry (program argv w child).1
          = [StartVerdaccio (serve_config argv tempDir []) (port argv);
             Listen (port argv)]
          ∨ registry (program argv w child).1
            = [StartVerdaccio (serve_config argv tempDir []) (port argv);
               Listen (port argv); Close (port argv)]))
  ∧ (runs_server argv child = true → is_Some (mkdtemp_dir w) →
     writeFile w = Done tt → registry (program argv w child).1 ≠ []).
Proof.
  intros Hnone. rewrite registry_program.
  destruct (runs_server argv child) eqn:Hmode.
  2:{ rewrite registry_main_idle by done. split; [by left|done]. }
  rewrite main_runs_server by done.
  assert (Hsilent : ∀ vars, silent is_registry (action_of argv w vars)).
  { intros vars. apply silent_action_of. }
  rewrite registry_runWithServer_none by done. unfold mkdtemp_dir.
  destruct (mkdtemp w) as [tempDir|e]; [|split; [by left|by intros _ []]].
  rewrite registry_attempt_none by done.
  destruct (writeFile w) as [[]|e]; [|split; [by left|done]].
  split; [|by destruct (_.2)].
  right. exists tempDir. split; [done|].
  destruct ((action_of argv w (npmConfigVars argv w tempDir)).2); simpl; auto.
Qed.

Lemma no_tarballs_only_serve_phase_witness :
  (collect_tarballs sample_options barren_world).2 = Returns []
  ∧ registry (program sample_options barren_world true).1 ≠ [].
Proof.
  split; [reflexivity|].
  apply (no_tarballs_only_serve_phase sample_options barren_world true);
    [reflexivity|reflexivity|by eexists|reflexivity].
Defined.

(** ** Lines of text *)

Lemma append_cons (ch : ascii) (a b : string) :
  String ch a +:+ b = String ch (a +:+ b).
Proof. reflexivity. Qed.

Lemma append_empty (b : string) : "" +:+ b = b.
Proof. reflexivity. Qed.

Lemma string_app_assoc (a b c : string) : (a +:+ b) +:+ c = a +:+ b +:+ c.
Proof.
  induction a as [|ch a IH]; [done|]. rewrite !append_cons. by rewrite IH.
Qed.

Lemma no_line_feed_app (a b : string) :
  no_line_feed (a +:+ b) = no_line_feed a && no_line_feed b.
Proof.
  induction a as [|ch a IH]; [done|]. rewrite append_cons. simpl.
  by rewrite IH, andb_assoc.
Qed.

Lemma lines_line (l rest : string) :
  no_line_feed l = true → lines (l +:+ LF +:+ rest) = l :: lines rest.
Proof.
  induction l as [|ch l IH]; [done|].
  rewrite append_cons. simpl. intros [Hch Hl]%andb_true_iff.
  apply negb_true_iff in Hch. rewrite Hch. by rewrite (IH Hl).
Qed.

Lemma lines_last (l : string) : no_line_feed l = true → lines (l +:+ LF) = [l].
Proof. intros Hl. exact (lines_line l "" Hl). Qed.

Lemma lines_join (l : string) (ls : list string) :
  no_line_feed l = true → Forall (λ l', no_line_feed l' = true) ls →
  lines (join LF (l :: ls) +:+ LF) = l :: ls.
Proof.
  intros Hl Hls. revert l Hl. induction Hls as [|l' ls Hl' _ IH]; intros l Hl.
  - by apply lines_last.
  - change (join LF (l :: l' :: ls)) with (l +:+ LF +:+ join LF (l' :: ls)).
    rewrite !string_app_assoc, lines_line by done. by rewrite IH.
Qed.

Lemma no_line_feed_digits (x : N) (s : string) :
  no_line_feed s = true → no_line_feed (pretty_N_go x s) = true.
Proof.
  revert s. induction (N.lt_wf_0 x) as [x _ IH]. intros s Hs.
  destruct (decide (x = 0)%N) as [->|Hx]; [done|].
  rewrite pretty_N_go_step by lia. apply IH; [apply N.div_lt; lia|].
  simpl. rewrite Hs, andb_true_r. unfold pretty_N_char.
  by repeat case_match.
Qed.

Lemma no_line_feed_pretty (x : N) : no_line_feed (pretty x) = true.
Proof.
  unfold pretty, pretty_N. case_decide; [done|]. by apply no_line_feed_digits.
Qed.

(** ** The message of the daemon *)

Section DaemonFacts.
Variable argv : options.
Variable w : world.

Lemma first_message_silent (t1 t2 : list event) :
  Forall (λ ev, is_send ev = false) t1 → first_message (t1 ++ t2) = first_message t2.
Proof. induction 1 as [|ev t1 Hev _ IH]; [done|]. by destruct ev. Qed.

Lemma first_message_found (t1 t2 : list event) (message : string) :
  first_message t1 = Some message → first_message (t1 ++ t2) = Some message.
Proof. induction t1 as [|ev t1 IH]; [done|]. destruct ev; simpl; auto. Qed.

Lemma first_message_bind {X Y : Type} (m : M X) (f : X → M Y) (x : X) :
  silent is_send m → m.2 = Returns x →
  first_message (m ≫= f).1 = first_message (f x).1.
Proof. intros Hm Hx. by rewrite bind_trace, first_message_silent, Hx. Qed.

Lemma runVerdaccio_result (config : verdaccio_config) (block : M unit) :
  (runVerdaccio argv w config block).2
  = match block.2 with Returns _ => Returns tt | r => r end.
Proof.
  unfold runVerdaccio. rewrite !bind_result, debug_result. simpl.
  by destruct block as [t [[]|e|]].
Qed.

Lemma silent_runVerdaccio_send (config : verdaccio_config) (block : M unit) :
  silent is_send block → silent is_send (runVerdaccio argv w config block).
Proof.
  intros Hb. unfold runVerdaccio.
  apply silent_bind; [by apply silent_emit|]. intros _ _.
  apply silent_bind; [by apply silent_debug|]. intros _ _.
  apply silent_bind; [by apply silent_emit|]. intros _ _.
  unfold silent in *. destruct block as [t [[]|e|]]; simpl in *; [| |done];
    (apply Forall_app; split; [done|by apply Forall_singleton]).
Qed.

Lemma publish_phase_done (tempDir : string) (tarballs : list TarballInfo) :
  tarballs = [] ∨ publish_all w tarballs = Returns tt →
  (publish_phase argv w tempDir tarballs).2 = Returns tt
  ∧ silent is_send (publish_phase argv w tempDir tarballs).
Proof.
  intros Hdone. unfold publish_phase. case_bool_decide as Hlen.
  2:{ split; [done|apply silent_ret]. }
  destruct Hdone as [->|Hall]; [simpl in Hlen; lia|]. split.
  - rewrite bind_result, debug_result, runVerdaccio_result.
    unfold publish_block. rewrite bind_result. simpl. by rewrite Hall.
  - apply silent_bind; [by apply silent_debug|]. intros _ _.
    by apply silent_runVerdaccio_send, silent_publish_block.
Qed.

Lemma first_message_serve_phase (tempDir : string) (tarballs : list TarballInfo) :
  first_message (serve_phase argv w tempDir tarballs (daemon_action argv w)).1
  = Some (join LF (export_lines (npmConfigVars argv w tempDir))).
Proof.
  unfold serve_phase.
  rewrite (first_message_bind _ _ tt); [|by apply silent_debug|apply debug_result].
  unfold runVerdaccio.
  rewrite (first_message_bind _ _ tt); [|by apply silent_emit|done].
  rewrite (first_message_bind _ _ tt); [|by apply silent_debug|apply debug_result].
  rewrite (first_message_bind _ _ tt); [|by apply silent_emit|done].
  assert (Hsend : first_message (daemon_action argv w (npmConfigVars argv w tempDir)).1
                  = Some (join LF (export_lines (npmConfigVars argv w tempDir)))).
  { unfold daemon_action. by rewrite bind_trace. }
  destruct (daemon_action argv w (npmConfigVars argv w tempDir)) as [t [[]|e|]];
    simpl in *; [by apply first_message_found..|done].
Qed.

Lemma first_message_runWithServer (tempDir : string) (tarballs : list TarballInfo) :
  mkdtemp w = Done tempDir →
  (collect_tarballs argv w).2 = Returns tarballs →
  writeFile w = Done tt →
  tarballs = [] ∨ publish_all w tarballs = Returns tt →
  first_message (runWithServer argv w (daemon_action argv w)).1
  = Some (join LF (export_lines (npmConfigVars argv w tempDir))).
Proof.
  intros Hdir Hcollect Hwrite Hpublish. unfold runWithServer. rewrite Hdir.
  rewrite (first_message_bind _ _ tempDir); [|apply silent_lift|done].
  rewrite finally_trace, try_catch_trace, <-app_assoc.
  apply first_message_found. unfold attempt.
  destruct (publish_phase_done tempDir tarballs Hpublish) as [Hres Hsilent].
  rewrite (first_message_bind _ _ tt); [|by apply silent_debug|apply debug_result].
  rewrite (first_message_bind _ _ tarballs); [|by apply silent_collect_tarballs|done].
  rewrite Hwrite.
  rewrite (first_message_bind _ _ tt); [|apply silent_lift|done].
  rewrite (first_message_bind _ _ tt); [|by apply silent_emit|done].
  rewrite (first_message_bind _ _ tt); [|done..].
  apply first_message_serve_phase.
Qed.

Lemma lines_exports (tempDir : string) :
  no_line_feed tempDir = true →
  lines (join LF (export_lines (npmConfigVars argv w tempDir)) +:+ LF)
  = export_lines (npmConfigVars argv w tempDir).
Proof.
  intros Hdir.
  assert (Hport := no_line_feed_pretty (port argv)).
  assert (Hpid := no_line_feed_pretty (pid w)).
  unfold export_lines, npmConfigVars. cbn [fmap list_fmap fst snd].
  apply lines_join; repeat apply Forall_cons_2; try apply Forall_nil_2;
    rewrite ?no_line_feed_app, ?Hdir, ?Hport, ?Hpid; reflexivity.
Qed.

End DaemonFacts.

(** C6, as the code has it. In daemon mode, once the child has its working
    directory, its [.npmrc] and its published tarballs, the parent writes
    to standard output once, the message of the child and a line feed:
    four lines and not one, each an [export NAME=VALUE] statement, the
    second being the registry URL; it then lets go of the child and ends,
    whether or not the child ever does. *)
Theorem daemon_parent_prints_exports (argv : options) (w : world)
    (tempDir : string) (tarballs : list TarballInfo) :
  daemon argv = true →
  command argv = [] →
  mkdtemp w = Done tempDir →
  (collect_tarballs argv w).2 = Returns tarballs →
  writeFile w = Done tt →
  tarballs = [] ∨ publish_all w tarballs = Returns tt →
  no_line_feed tempDir = true →
  program argv w false
  = ([Fork;
      Stdout (join LF (export_lines (npmConfigVars argv w tempDir)) +:+ LF);
      Disconnect; Unref], Returns tt)
  ∧ lines (join LF (export_lines (npmConfigVars argv w tempDir)) +:+ LF)
    = [ "export npm_config_userconfig=" +:+ tempDir +:+ "/.npmrc";
        "export npm_config_registry=http://localhost:" +:+ pretty (port argv) +:+ "/";
        "export SERVE_NPM_TARBALLS_PID=" +:+ pretty (pid w);
        "export SERVE_NPM_TARBALLS_WORKDIR=" +:+ tempDir ].
Proof.
  intros Hdaemon Hcommand Hdir Hcollect Hwrite Hpublish Hlf. split.
  - unfold program, main. rewrite Hdaemon, Hcommand. simpl.
    unfold trace.
    by rewrite (first_message_runWithServer argv w tempDir tarballs).
  - by rewrite lines_exports.
Qed.

Lemma daemon_parent_prints_exports_witness :
  program sample_options sample_world false
  = ([Fork;
      Stdout (join LF (export_lines
                (npmConfigVars sample_options sample_world "/tmp/serve-npm-tarballs-abc"))
              +:+ LF);
      Disconnect; Unref], Returns tt)
  ∧ lines (join LF (export_lines
             (npmConfigVars sample_options sample_world "/tmp/serve-npm-tarballs-abc"))
           +:+ LF)
    = [ "export npm_config_userconfig=" +:+ "/tmp/serve-npm-tarballs-abc" +:+ "/.npmrc";
        "export npm_config_registry=http://localhost:" +:+ pretty 4873%N +:+ "/";
        "export SERVE_NPM_TARBALLS_PID=" +:+ pretty 4242%N;
        "export SERVE_NPM_TARBALLS_WORKDIR=" +:+ "/tmp/serve-npm-tarballs-abc" ].
Proof.
  apply (daemon_parent_prints_exports sample_options sample_world
           "/tmp/serve-npm-tarballs-abc"
           [mkTarballInfo "dist/a.tgz" (mkManifest "a")]);
    try reflexivity.
  by right.
Defined.

(** C6, as stated, fails: what the parent writes is four lines. *)
Lemma daemon_parent_prints_four_lines :
  program sample_options sample_world false
  = ([Fork;
      Stdout ("export npm_config_userconfig=/tmp/serve-npm-tarballs-abc/.npmrc" +:+ LF
              +:+ "export npm_config_registry=http://localhost:4873/" +:+ LF
              +:+ "export SERVE_NPM_TARBALLS_PID=4242" +:+ LF
              +:+ "export SERVE_NPM_TARBALLS_WORKDIR=/tmp/serve-npm-tarballs-abc" +:+ LF);
      Disconnect; Unref], Returns tt)
  ∧ length (lines
      ("export npm_config_userconfig=/tmp/serve-npm-tarballs-abc/.npmrc" +:+ LF
       +:+ "export npm_config_registry=http://localhost:4873/" +:+ LF
       +:+ "export SERVE_NPM_TARBALLS_PID=4242" +:+ LF
       +:+ "export SERVE_NPM_TARBALLS_WORKDIR=/tmp/serve-npm-tarballs-abc" +:+ LF)) = 4.
Proof. by vm_compute. Qed.

(** ** The package rules of the serve phase *)

Section ObjectFacts.
Context {V : Type}.

Lemma get_overwrite_eq (k : string) (v : V) (o : list (string * V)) :
  is_Some (Orchestrator.get k o) → Orchestrator.get k (overwrite k v o) = Some v.
Proof.
  induction o as [|[k' v'] o IH]; simpl; [by intros [? [=]]|].
  destruct (String.eqb k' k) eqn:Hk; simpl; rewrite Hk; [done|apply IH].
Qed.

Lemma get_overwrite_ne (k k1 : string) (v : V) (o : list (string * V)) :
  k1 ≠ k → Orchestrator.get k1 (overwrite k v o) = Orchestrator.get k1 o.
Proof.
  intros Hne. induction o as [|[k' v'] o IH]; simpl; [done|].
  destruct (String.eqb_spec k' k) as [->|Hk]; simpl.
  - by rewrite (proj2 (String.eqb_neq k k1)).
  - by rewrite IH.
Qed.

Lemma get_create_eq (k : string) (v : V) (o : list (string * V)) :
  Orchestrator.get k o = None → Orchestrator.get k (create k v o) = Some v.
Proof.
  induction o as [|[k' v'] o IH]; simpl; [by rewrite String.eqb_refl|].
  destruct (String.eqb k' k) eqn:Hk; [done|]. intros Hnone.
  destruct (precedes k k'); simpl; rewrite ?String.eqb_refl, ?Hk; [done|by apply IH].
Qed.

Lemma get_create_ne (k k1 : string) (v : V) (o : list (string * V)) :
  k1 ≠ k → Orchestrator.get k1 (create k v o) = Orchestrator.get k1 o.
Proof.
  intros Hne. induction o as [|[k' v'] o IH]; simpl.
  - by rewrite (proj2 (String.eqb_neq k k1)).
  - destruct (precedes k k'); simpl.
    + by rewrite (proj2 (String.eqb_neq k k1)).
    + by rewrite IH.
Qed.

Lemma keys_overwrite (k : string) (v : V) (o : list (string * V)) :
  (overwrite k v o).*1 = o.*1.
Proof.
  induction o as [|[k' v'] o IH]; [done|]. cbn [overwrite].
  destruct (String.eqb k' k); rewrite !fmap_cons; [done|by rewrite IH].
Qed.

Lemma create_last (k : string) (v : V) (o : list (string * V)) :
  array_index k = None → create k v o = o ++ [(k, v)].
Proof.
  intros Hk. induction o as [|[k' v'] o IH]; simpl; [done|].
  unfold precedes. rewrite Hk. by rewrite IH.
Qed.

Lemma lookup_assign_eq (k : string) (v : V) (obj : object V) :
  k ≠ "__proto__" → assign k v obj !! k = Some v.
Proof.
  intros Hk. unfold assign, lookup, object_lookup, define.
  rewrite (proj2 (String.eqb_neq k "__proto__")) by done. simpl.
  destruct (Orchestrator.get k (own obj)) as [v'|] eqn:Hget.
  - apply get_overwrite_eq. by rewrite Hget.
  - by apply get_create_eq.
Qed.

Lemma lookup_assign_ne (k k1 : string) (v : V) (obj : object V) :
  k1 ≠ k → assign k v obj !! k1 = obj !! k1.
Proof.
  intros Hne. unfold assign, lookup, object_lookup, define.
  destruct (String.eqb k "__proto__"); simpl; [done|].
  destruct (Orchestrator.get k (own obj)).
  - by apply get_overwrite_ne.
  - by apply get_create_ne.
Qed.

(** An assignment to a key that is there leaves the keys as they are; an
    assignment to a key that is not there, and is no array index, puts
    it last. *)
Lemma own_keys_assign (k : string) (v : V) (obj : object V) :
  k ≠ "__proto__" → array_index k = None →
  own_keys (assign k v obj)
  = match obj !! k with
    | Some _ => own_keys obj
    | None => own_keys obj ++ [k]
    end.
Proof.
  intros Hk Hindex. unfold assign, own_keys, lookup, object_lookup, define.
  rewrite (proj2 (String.eqb_neq k "__proto__")) by done. simpl.
  destruct (Orchestrator.get k (own obj)).
  - apply keys_overwrite.
  - rewrite create_last by done. by rewrite fmap_app.
Qed.

End ObjectFacts.

Lemma hide_masks_lookup (masks : list string) (config : object rule) (mask : string) :
  mask ≠ "__proto__" →
  foldl (λ config mask, assign mask hidden_rule config) config masks !! mask
  = if decide (mask ∈ masks) then Some hidden_rule else config !! mask.
Proof.
  intros Hproto. revert config. induction masks as [|m masks IH]; intros config.
  - case_decide as Hin; [by apply elem_of_nil in Hin|done].
  - cbn [foldl]. rewrite IH.
    destruct (decide (mask ∈ masks)) as [Hin|Hout].
    + case_decide as Hin'; [done|]. destruct Hin'. by right.
    + destruct (decide (mask = m)) as [->|Hne].
      * rewrite lookup_assign_eq by done. case_decide as Hin'; [done|].
        destruct Hin'. by left.
      * rewrite lookup_assign_ne by done. case_decide as Hin'; [|done].
        apply elem_of_cons in Hin'. tauto.
Qed.

(** C9. Whatever is hidden, the configuration of the serve phase has at
    ["**"] the rule that proxies to [npmjs], the assignment that is made
    last. A mask ["**"] among the hidden ones has made the key, with the
    rule that has no proxy, and the last assignment overwrites that rule
    where the key stands; without such a mask the last assignment makes
    the key, after all the others. *)
Theorem catch_all_rule_wins (argv : options) (tempDir : string)
    (tarballs : list TarballInfo) :
  packages (serve_config argv tempDir tarballs) !! "**"
  = Some (mkRule "$all" "$all" (Some "npmjs"))
  ∧ ("**" ∈ packagesToHide argv tarballs →
     hide (packagesToHide argv tarballs) !! "**" = Some (mkRule "$all" "$all" None)
     ∧ own_keys (packages (serve_config argv tempDir tarballs))
       = own_keys (hide (packagesToHide argv tarballs)))
  ∧ ("**" ∉ packagesToHide argv tarballs →
     hide (packagesToHide argv tarballs) !! "**" = None
     ∧ own_keys (packages (serve_config argv tempDir tarballs))
       = own_keys (hide (packagesToHide argv tarballs)) ++ ["**"]).
Proof.
  unfold serve_config, makeVerdaccioConfig, finalPackageConfig. cbn [packages].
  assert (Hhide : hide (packagesToHide argv tarballs) !! "**"
                  = if decide ("**" ∈ packagesToHide argv tarballs)
                    then Some hidden_rule else None).
  { unfold hide. by rewrite hide_masks_lookup. }
  split; [by apply lookup_assign_eq|]. split.
  - intros Hin. rewrite decide_True in Hhide by done. split; [done|].
    rewrite own_keys_assign by done. by rewrite Hhide.
  - intros Hout. rewrite decide_False in Hhide by done. split; [done|].
    rewrite own_keys_assign by done. by rewrite Hhide.
Qed.

Lemma catch_all_rule_wins_witness :
  "**" ∈ packagesToHide
           (mkOptions 0 None None None 4873 "info" ["**"; "@corp/*"] false false ["sh"]) []
  ∧ hide (packagesToHide
            (mkOptions 0 None None None 4873 "info" ["**"; "@corp/*"] false false ["sh"]) [])
      !! "**" = Some (mkRule "$all" "$all" None)
  ∧ own_keys (packages (serve_config
                (mkOptions 0 None None None 4873 "info" ["**"; "@corp/*"] false false ["sh"])
                "/tmp/w" []))
    = own_keys (hide (packagesToHide
                (mkOptions 0 None None None 4873 "info" ["**"; "@corp/*"] false false ["sh"])
                [])).
Proof.
  assert (Hin : "**" ∈ packagesToHide
           (mkOptions 0 None None None 4873 "info" ["**"; "@corp/*"] false false ["sh"]) [])
    by (simpl; by left).
  split; [exact Hin|].
  apply (catch_all_rule_wins
           (mkOptions 0 None None None 4873 "info" ["**"; "@corp/*"] false false ["sh"])
           "/tmp/w" []).
  exact Hin.
Defined.

(** ** The tarball metadata extractor *)

Lemma onentry_all (filePath : string) (entries : list ReadEntry) (data : list Buffer) :
  foldl (onentry filePath) data entries
  = data ++ mjoin (chunks <$> filter (λ entry, path entry = filePath) entries).
Proof.
  revert data. induction entries as [|entry entries IH]; intros data; simpl.
  - by rewrite app_nil_r.
  - rewrite IH. unfold onentry. destruct (String.eqb_spec (path entry) filePath).
    + rewrite filter_cons_True by done. simpl. by rewrite app_assoc.
    + by rewrite filter_cons_False by done.
Qed.

Lemma concat_chunks (entries : list ReadEntry) :
  Buffer_concat (mjoin (chunks <$> entries)) = mjoin (contents <$> entries).
Proof.
  unfold contents, Buffer_concat.
  induction entries as [|entry entries IH]; [done|].
  rewrite !fmap_cons. cbn [mjoin list_join]. rewrite join_app. f_equal. exact IH.
Qed.

Lemma no_matching_entry (filePath : string) (entries : list ReadEntry) :
  (∀ entry, entry ∈ entries → path entry ≠ filePath) →
  filter (λ entry, path entry = filePath) entries = [].
Proof.
  induction entries as [|entry entries IH]; [done|]. intros Hnone.
  rewrite filter_cons_False by (apply Hnone; by left).
  apply IH. intros e He. apply Hnone. by right.
Qed.

(** C8, as the code has it. From an archive that can be read, the bytes
    returned are those of every entry of the path asked for, joined in the
    order of the archive: exactly the bytes of the entry when there is one
    such entry, and no byte, not an error, when there is none. *)
Theorem extract_joins_matching_entries (files : string → archive)
    (tarball filePath : string) (entries : list ReadEntry) :
  files tarball = Entries entries →
  extractFileFromTarball files tarball filePath
  = Done (mjoin (contents <$> filter (λ entry, path entry = filePath) entries))
  ∧ (∀ entry, filter (λ entry, path entry = filePath) entries = [entry] →
       extractFileFromTarball files tarball filePath = Done (contents entry))
  ∧ ((∀ entry, entry ∈ entries → path entry ≠ filePath) →
       extractFileFromTarball files tarball filePath = Done []).
Proof.
  intros Hfile.
  assert (Hall : extractFileFromTarball files tarball filePath
    = Done (mjoin (contents <$> filter (λ entry, path entry = filePath) entries))).
  { unfold extractFileFromTarball. rewrite Hfile, onentry_all. simpl.
    by rewrite concat_chunks. }
  split; [done|]. split.
  - intros entry Hone. rewrite Hall, Hone. simpl. by rewrite app_nil_r.
  - intros Hnone. by rewrite Hall, no_matching_entry.
Qed.

Lemma extract_joins_matching_entries_witness :
  extractFileFromTarball (files sample_world) "dist/a.tgz" "package/package.json"
  = Done (contents (mkEntry "package/package.json" [[x7b; x7d]]))
  ∧ extractFileFromTarball (files sample_world) "dist/a.tgz" "package/README.md"
    = Done [].
Proof.
  split.
  - by apply (extract_joins_matching_entries (files sample_world) "dist/a.tgz"
                "package/package.json"
                [mkEntry "package/package.json" [[x7b; x7d]];
                 mkEntry "package/index.js" []] eq_refl).
  - apply (extract_joins_matching_entries (files sample_world) "dist/a.tgz"
             "package/README.md"
             [mkEntry "package/package.json" [[x7b; x7d]];
              mkEntry "package/index.js" []] eq_refl).
    intros entry. rewrite !elem_of_cons, elem_of_nil. by intros [->|[->|[]]].
Defined.

(** C8, as stated, fails: when two entries have the path asked for, the
    bytes returned are those of neither. *)
Lemma extract_of_repeated_path :
  extractFileFromTarball
    (λ _, Entries [mkEntry "package/package.json" [[x7b]];
                   mkEntry "package/package.json" [[x7d]]])
    "pkg.tgz" "package/package.json"
  = Done [x7b; x7d]
  ∧ contents (mkEntry "package/package.json" [[x7b]]) = [x7b]
  ∧ contents (mkEntry "package/package.json" [[x7d]]) = [x7d].
Proof. by vm_compute. Qed.

(** * Further properties of the runner *)

(** X1. Operations are launched in the order of the input, none twice and
    none skipped: the promises pushed so far are those of the operations
    before the cursor, the cursor never passes the end, and only launched
    operations settle, each once. *)
Theorem launched_in_input_order {A E : Type} (thunks : list (settlement A E))
    (n : option Q) (cpus : nat) (evs : list Runner.event) (s : state A E) :
  run thunks n cpus (start thunks n cpus) evs = Some s →
  resolved s = seq 0 (next s)
  ∧ next s ≤ length thunks
  ∧ NoDup (settled s)
  ∧ ∀ i, i ∈ settled s → i ∈ resolved s.
Proof.
  intros Hwf%wf_reachable. destruct Hwf as [H1 H2 H3 H4 _ _].
  split; [done|]. split; [done|]. split; [done|].
  intros i Hi%H4. rewrite H1, elem_of_seq. lia.
Qed.

Lemma launched_in_input_order_witness :
  run [Fulfilled 1; Fulfilled 2; Fulfilled 3] (Some 2%Q) 4
      (start [Fulfilled 1; Fulfilled 2; Fulfilled (E:=string) 3] (Some 2%Q) 4)
      [Settle 1; Tick]
  = Some (mkState 3 [0; 1; 2] [1] [] None None)
  ∧ resolved (mkState (A:=nat) (E:=string) 3 [0; 1; 2] [1] [] None None) = seq 0 3.
Proof.
  split; [reflexivity|].
  by apply (launched_in_input_order [Fulfilled 1; Fulfilled 2; Fulfilled 3]
              (Some 2%Q) 4 [Settle 1; Tick]).
Defined.

Lemma to_integer_above (z : Z) (q : Q) :
  (0 <= q)%Q → (inject_Z z <= q)%Q → (z ≤ to_integer q)%Z.
Proof.
  unfold Qle, to_integer, inject_Z. destruct q as [num den]. simpl. intros Hq Hz.
  rewrite Z.quot_div_nonneg by lia. apply Z.div_le_lower_bound; lia.
Qed.

(** X2. A limit of at least the number of operations launches them all at
    once. *)
Theorem limit_at_least_length_launches_all {A E : Type}
    (thunks : list (settlement A E)) (L : Q) (cpus : nat) :
  (inject_Z (Z.of_nat (length thunks)) <= L)%Q →
  start thunks (Some L) cpus
  = mkState (length thunks) (seq 0 (length thunks)) [] [] None None.
Proof.
  intros HL. rewrite start_eq.
  assert (Hk : initial_length thunks (Some L) cpus = length thunks); [|by rewrite Hk].
  pose proof (initial_length_le thunks (Some L) cpus) as Hle.
  assert (H0 : (0 <= L)%Q).
  { apply Qle_trans with (inject_Z (Z.of_nat (length thunks))); [|done].
    rewrite <-(Zle_Qle 0). lia. }
  unfold initial_length in *. simpl in *.
  destruct (Qeq_bool L 0) eqn:Hz.
  - apply Qeq_bool_iff in Hz. rewrite Hz in HL.
    rewrite <-(Zle_Qle _ 0) in HL. lia.
  - rewrite slice_end_nonneg by done.
    pose proof (to_integer_above _ _ H0 HL). lia.
Qed.

Lemma limit_at_least_length_launches_all_witness :
  (inject_Z (Z.of_nat (length [Fulfilled (E:=string) 1; Fulfilled 2])) <= 5)%Q
  ∧ start [Fulfilled (E:=string) 1; Fulfilled 2] (Some 5%Q) 4
    = mkState 2 [0; 1] [] [] None None.
Proof.
  split; [done|].
  by apply (limit_at_least_length_launches_all [Fulfilled (E:=string) 1; Fulfilled 2] 5 4).
Defined.

(** X3. A run has at most two events for each operation, a settlement and
    a reaction, whatever the environment does. *)
Theorem run_has_at_most_2N_events {A E : Type} (thunks : list (settlement A E))
    (n : option Q) (cpus : nat) (evs : list Runner.event) (s : state A E) :
  run thunks n cpus (start thunks n cpus) evs = Some s →
  length evs ≤ 2 * length thunks.
Proof.
  intros Hrun. pose proof (run_length _ _ _ _ _ _ (wf_start thunks n cpus) Hrun) as Hlen.
  rewrite start_eq in Hlen. unfold fuel in Hlen. simpl in Hlen. lia.
Qed.

Lemma run_has_at_most_2N_events_witness :
  run [Fulfilled 1; Fulfilled 2; Fulfilled 3] (Some 2%Q) 4
      (start [Fulfilled 1; Fulfilled 2; Fulfilled (E:=string) 3] (Some 2%Q) 4)
      [Settle 1; Tick; Settle 2; Settle 0; Tick; Tick]
  = Some (mkState 3 [0; 1; 2] [1; 2; 0] [] (Some [0; 1; 2])
            (Some (Fulfilled [1; 2; 3])))
  ∧ length [Settle 1; Tick; Settle 2; Settle 0; Tick; Tick] ≤ 2 * 3.
Proof.
  split; [reflexivity|].
  by apply (run_has_at_most_2N_events [Fulfilled 1; Fulfilled 2; Fulfilled (E:=string) 3]
              (Some 2%Q) 4 _
              (mkState 3 [0; 1; 2] [1; 2; 0] [] (Some [0; 1; 2])
                 (Some (Fulfilled [1; 2; 3])))).
Defined.

(** X5. Nothing is delivered early: whenever the returned promise has a
    result, fulfilment or rejection, [ok] has been called and every
    operation has been launched. *)
Theorem result_only_after_all_launched {A E : Type} (thunks : list (settlement A E))
    (n : option Q) (cpus : nat) (evs : list Runner.event) (s : state A E)
    (r : settlement (list A) E) :
  run thunks n cpus (start thunks n cpus) evs = Some s →
  result s = Some r →
  handed s = Some (seq 0 (length thunks)) ∧ next s = length thunks
  ∧ resolved s = seq 0 (length thunks).
Proof.
  intros Hrun Hr. pose proof (wf_reachable _ _ _ _ _ Hrun) as Hwf.
  destruct (sound_reachable _ _ _ _ _ Hrun) as [Hsound _].
  destruct (handed s) as [snapshot|] eqn:Hh.
  - destruct (wf_handed s Hwf _ Hh) as [-> Hn]. split; [done|]. split; [done|].
    by rewrite (wf_resolved s Hwf), Hn.
  - rewrite (sound_waiting s Hsound Hh) in Hr. done.
Qed.

Lemma result_only_after_all_launched_witness :
  run [Fulfilled 1; Fulfilled 2; Rejected "boom"%string] (Some 3%Q) 4
      (start [Fulfilled 1; Fulfilled 2; Rejected "boom"%string] (Some 3%Q) 4)
      [Settle 0; Tick; Settle 2]
  = Some (mkState 3 [0; 1; 2] [0; 2] [] (Some [0; 1; 2]) (Some (Rejected "boom"%string)))
  ∧ next (mkState (A:=nat) (E:=string) 3 [0; 1; 2] [0; 2] [] (Some [0; 1; 2])
            (Some (Rejected "boom"%string))) = 3.
Proof.
  split; [reflexivity|].
  by apply (result_only_after_all_launched
              [Fulfilled 1; Fulfilled 2; Rejected "boom"%string] (Some 3%Q) 4
              [Settle 0; Tick; Settle 2] _ (Rejected "boom"%string) eq_refl).
Defined.

(** X6. With no failure the runner keeps its window full: as long as an
    operation is left to launch, the operations in flight and the
    reactions waiting to run are exactly as many as were launched at
    first. *)
Theorem window_stays_full {A E : Type} (thunks : list (settlement A E))
    (n : option Q) (cpus : nat) (evs : list Runner.event) (s : state A E) :
  (∀ i e, thunks !! i ≠ Some (Rejected e)) →
  run thunks n cpus (start thunks n cpus) evs = Some s →
  next s < length thunks →
  length (unsettled s) + length (jobs s) = initial_length thunks n cpus.
Proof.
  intros Hok Hrun Hnext. pose proof (wf_reachable _ _ _ _ _ Hrun) as Hwf.
  pose proof (balanced_run thunks n cpus Hok _ _ _ (balanced_start thunks n cpus) Hrun)
    as Hbal.
  pose proof (unsettled_length _ _ _ _ Hwf) as Hlen.
  destruct (handed s) as [snapshot|] eqn:Hh.
  - destruct (wf_handed s Hwf _ Hh). lia.
  - specialize (Hbal Hh). lia.
Qed.

Lemma window_stays_full_witness :
  run [Fulfilled 1; Fulfilled 2; Fulfilled 3; Fulfilled 4] (Some 2%Q) 4
      (start [Fulfilled 1; Fulfilled 2; Fulfilled 3; Fulfilled (E:=string) 4] (Some 2%Q) 4)
      [Settle 1; Tick; Settle 0]
  = Some (mkState 3 [0; 1; 2] [1; 0] [0] None None)
  ∧ length (unsettled (mkState (A:=nat) (E:=string) 3 [0; 1; 2] [1; 0] [0] None None))
    + length (jobs (mkState (A:=nat) (E:=string) 3 [0; 1; 2] [1; 0] [0] None None))
    = 2.
Proof.
  split; [reflexivity|].
  apply (window_stays_full [Fulfilled 1; Fulfilled 2; Fulfilled 3; Fulfilled (E:=string) 4]
           (Some 2%Q) 4 [Settle 1; Tick; Settle 0]).
  - intros i e. by destruct i as [|[|[|[|i]]]].
  - reflexivity.
  - simpl. lia.
Defined.

Lemma refresh_waiting {A E : Type} (thunks : list (settlement A E)) (n : option Q)
    (cpus : nat) (s : state A E) :
  handed s = None → refresh thunks n cpus s = s.
Proof. unfold refresh. by intros ->. Qed.

(** When every operation launched at first fails, no reaction is ever
    queued: the cursor stays where it is and [ok] is never called. *)
Lemma stalled_run {A E : Type} (thunks : list (settlement A E)) (n : option Q)
    (cpus : nat) (evs : list Runner.event) (s s' : state A E) :
  (∀ i, i < initial_length thunks n cpus → ∃ e, thunks !! i = Some (Rejected e)) →
  wf thunks n cpus s →
  next s = initial_length thunks n cpus ∧ jobs s = [] ∧ handed s = None ∧ result s = None →
  run thunks n cpus s evs = Some s' →
  next s' = initial_length thunks n cpus ∧ jobs s' = [] ∧ handed s' = None
  ∧ result s' = None.
Proof.
  intros Hfail. revert s. induction evs as [|ev evs IH]; intros s Hwf Hs; simpl.
  - by intros [= <-].
  - destruct (step thunks n cpus s ev) as [s1|] eqn:Hstep; [|done]. simpl.
    apply IH; [by eapply wf_step|]. destruct Hs as (Hn & Hj & Hh & Hr).
    destruct ev as [i|]; simpl in Hstep.
    + unfold settle in Hstep. destruct (in_flight s i) eqn:Hfl; [|done].
      apply in_flight_spec in Hfl as [Hl _].
      rewrite (wf_resolved s Hwf), elem_of_seq, Hn in Hl.
      destruct (Hfail i) as [e He]; [lia|]. rewrite He in Hstep.
      injection Hstep as <-. rewrite refresh_waiting by done. done.
    + unfold tick in Hstep. by rewrite Hj in Hstep.
Qed.

(** X4. A failure costs a place in the window for good. When every
    operation launched at first fails, nothing further is ever launched
    and the returned promise never settles, however many operations are
    left and whatever they would do. *)
Theorem all_first_fail_never_settles {A E : Type} (thunks : list (settlement A E))
    (n : option Q) (cpus : nat) (evs : list Runner.event) (s : state A E) :
  (∀ i, i < initial_length thunks n cpus → ∃ e, thunks !! i = Some (Rejected e)) →
  run thunks n cpus (start thunks n cpus) evs = Some s →
  next s = initial_length thunks n cpus ∧ result s = None.
Proof.
  intros Hfail Hrun.
  destruct (stalled_run thunks n cpus evs _ s Hfail (wf_start thunks n cpus))
    as (Hn & _ & _ & Hr); [by rewrite start_eq|done|done].
Qed.

Lemma all_first_fail_never_settles_witness :
  run [Rejected "a"%string; Rejected "b"%string; Fulfilled 3] (Some 2%Q) 4
      (start [Rejected "a"%string; Rejected "b"%string; Fulfilled 3] (Some 2%Q) 4)
      [Settle 1; Settle 0]
  = Some (mkState 2 [0; 1] [1; 0] [] None None)
  ∧ next (mkState (A:=nat) (E:=string) 2 [0; 1] [1; 0] [] None None) = 2
  ∧ result (mkState (A:=nat) (E:=string) 2 [0; 1] [1; 0] [] None None) = None.
Proof.
  split; [reflexivity|].
  apply (all_first_fail_never_settles
           [Rejected "a"%string; Rejected "b"%string; Fulfilled 3] (Some 2%Q) 4
           [Settle 1; Settle 0]); [|reflexivity].
  intros [|[|i]] Hi; [by eexists..|].
  change (initial_length _ _ _) with 2 in Hi. lia.
Defined.

Lemma to_integer_fraction (L : Q) : (0 < L)%Q → (L < 1)%Q → to_integer L = 0%Z.
Proof.
  unfold Qlt, to_integer. destruct L as [num den]. simpl. intros H0 H1.
  apply Z.quot_small. lia.
Qed.

(** X7. A limit strictly between zero and one is truncated to no place at
    all: nothing is launched and the returned promise never settles,
    whatever the operations. *)
Theorem fractional_limit_never_settles {A E : Type} (thunks : list (settlement A E))
    (L : Q) (cpus : nat) (evs : list Runner.event) (s : state A E) :
  (0 < L)%Q → (L < 1)%Q →
  run thunks (Some L) cpus (start thunks (Some L) cpus) evs = Some s →
  next s = 0 ∧ resolved s = [] ∧ result s = None.
Proof.
  intros H0 H1 Hrun.
  assert (Hk : initial_length thunks (Some L) cpus = 0).
  { unfold initial_length. simpl. destruct (Qeq_bool L 0) eqn:Hz.
    - apply Qeq_bool_iff in Hz. rewrite Hz in H0. by compute in H0.
    - unfold slice_end. rewrite to_integer_fraction by done. simpl. lia. }
  destruct (stalled_run thunks (Some L) cpus evs (start thunks (Some L) cpus) s)
    as (Hn & _ & _ & Hr);
    [rewrite Hk; lia|apply wf_start|by rewrite start_eq|done|].
  pose proof (wf_reachable _ _ _ _ _ Hrun) as Hwf.
  rewrite (wf_resolved s Hwf), Hn, Hk. done.
Qed.

Lemma fractional_limit_never_settles_witness :
  (0 < 1 # 2)%Q ∧ (1 # 2 < 1)%Q
  ∧ result (mkState (A:=nat) (E:=string) 0 [] [] [] None None) = None.
Proof.
  split; [done|]. split; [done|].
  by apply (fractional_limit_never_settles [Fulfilled 1; Fulfilled (E:=string) 2]
              (1 # 2) 4 []).
Defined.

(** * The shrinkwrap pruning script *)

Import Snip.

Section SnipFacts.
Variable D : list string.

Lemma depends_spec (packageName : string) (requires : option (list (string * string)))
    (deps : list (string * scope)) :
  doesAnythingDependOn packageName (Scope requires (Some deps)) = true
  ↔ ∃ kv, kv ∈ deps ∧ (requires_it packageName kv.2 = true
                        ∨ doesAnythingDependOn packageName kv.2 = true).
Proof.
  simpl. induction deps as [|[k pkg] deps IH].
  - split; [done|]. intros (kv & Hkv & _). by apply elem_of_nil in Hkv.
  - destruct (requires_it packageName pkg) eqn:Hreq.
    { split; [|done]. intros _. exists (k, pkg). split; [by left|by left]. }
    destruct (doesAnythingDependOn packageName pkg) eqn:Hdep.
    { split; [|done]. intros _. exists (k, pkg). split; [by left|by right]. }
    rewrite IH. split.
    + intros (kv & Hkv & H). exists kv. split; [by right|done].
    + intros (kv & [->|Hkv]%elem_of_cons & H).
      * simpl in H. rewrite Hreq, Hdep in H. by destruct H.
      * by exists kv.
Qed.

Lemma pruned_refl (sc : scope) : pruned sc sc.
Proof. split; [done|]. by destruct (dependencies_of sc). Qed.

Lemma pruned_trans (sc1 sc2 sc3 : scope) : pruned sc1 sc2 → pruned sc2 sc3 → pruned sc1 sc3.
Proof.
  intros [Hr1 Hd1] [Hr2 Hd2]. split; [congruence|].
  destruct (dependencies_of sc1), (dependencies_of sc2), (dependencies_of sc3);
    try done. by etrans.
Qed.

Lemma pruned_delete (name : string) (sc : scope) : pruned sc (delete_dependency name sc).
Proof.
  destruct sc as [r [deps|]]; split; simpl; try done.
  apply sublist_filter.
Qed.

Lemma depends_pruned (packageName : string) (sc sc' : scope) :
  pruned sc sc' → doesAnythingDependOn packageName sc' = true →
  doesAnythingDependOn packageName sc = true.
Proof.
  destruct sc as [r [deps|]], sc' as [r' [deps'|]]; intros [_ Hsub]; simpl in Hsub;
    try done.
  rewrite !depends_spec. intros (kv & Hkv & H). exists kv. split; [|done].
  by eapply elem_of_sublist.
Qed.

Lemma removal_pruned (sc sc' : scope) : removal D sc sc' → pruned sc sc'.
Proof. intros (name & _ & _ & ->). apply pruned_delete. Qed.

Lemma removals_pruned (sc sc' : scope) : rtc (removal D) sc sc' → pruned sc sc'.
Proof.
  induction 1 as [|sc1 sc2 sc3 Hstep _ IH]; [apply pruned_refl|].
  eapply pruned_trans; [by apply removal_pruned|done].
Qed.

(** What one look at a name does. *)
Lemma consider_cases (st : scope * bool) (name : string) :
  consider D st name = st
  ∨ (consider D st name = (delete_dependency name st.1, true)
     ∧ includes D name = false ∧ doesAnythingDependOn name st.1 = false).
Proof.
  unfold consider. destruct (includes D name); simpl; [by left|].
  destruct (doesAnythingDependOn name st.1); simpl; [by left|by right].
Qed.

Lemma consider_removals (names : list string) (st : scope * bool) :
  rtc (removal D) st.1 (foldl (consider D) st names).1.
Proof.
  revert st. induction names as [|name names IH]; intros st; [done|]. simpl.
  destruct (consider_cases st name) as [->|(-> & Hd & Hn)]; [apply IH|].
  eapply rtc_l; [|apply IH]. by exists name.
Qed.

Lemma removeObsoletePackages_removals (st : scope * bool) :
  rtc (removal D) st.1 (removeObsoletePackages D st).1.
Proof.
  unfold removeObsoletePackages. destruct (dependencies_of st.1); [|done].
  apply consider_removals.
Qed.

Lemma prune_removals (fuel : nat) (sc sc' : scope) :
  prune fuel D sc = Some sc' → rtc (removal D) sc sc'.
Proof.
  revert sc. induction fuel as [|fuel IH]; intros sc; [done|]. simpl.
  pose proof (removeObsoletePackages_removals (sc, false)) as Hpass.
  destruct (removeObsoletePackages D (sc, false)) as [sc1 changes]. simpl in *.
  destruct changes.
  - intros Hrest%IH. by etrans.
  - by intros [= <-].
Qed.

Lemma removals_keep_direct (sc sc' : scope) (kv : string * scope) :
  rtc (removal D) sc sc' → includes D kv.1 = true →
  kv ∈ default [] (dependencies_of sc) → kv ∈ default [] (dependencies_of sc').
Proof.
  intros Hsteps Hdirect. induction Hsteps as [|sc1 sc2 sc3 Hstep _ IH]; [done|].
  intros Hkv. apply IH. destruct Hstep as (name & Hname & _ & ->).
  destruct sc1 as [r [deps|]]; simpl in *; [|done].
  apply list_elem_of_filter. split; [|done]. intros Heq. congruence.
Qed.

Lemma top_keys_delete (name name' : string) (sc : scope) :
  name ∈ top_keys sc → name ∉ top_keys (delete_dependency name' sc) → name = name'.
Proof.
  destruct sc as [r [deps|]]; unfold top_keys, keys; simpl; [|by intros ?%elem_of_nil].
  intros (kv & -> & Hkv)%list_elem_of_fmap Hgone.
  destruct (decide (kv.1 = name')) as [|Hne]; [done|]. destruct Hgone.
  apply list_elem_of_fmap. exists kv. split; [done|].
  by apply list_elem_of_filter.
Qed.

Lemma removals_unneeded (sc sc' : scope) (name : string) :
  rtc (removal D) sc sc' → name ∈ top_keys sc → name ∉ top_keys sc' →
  doesAnythingDependOn name sc' = false.
Proof.
  intros Hsteps Hin. revert sc' Hsteps.
  apply (rtc_ind_r (λ sc', name ∉ top_keys sc' → doesAnythingDependOn name sc' = false));
    [done|].
  intros sc2 sc3 Hsteps Hstep IH Hout. apply not_true_is_false. intros Hdep.
  pose proof (depends_pruned name _ _ (removal_pruned _ _ Hstep) Hdep) as Hdep2.
  destruct (decide (name ∈ top_keys sc2)) as [Hin2|Hout2].
  - destruct Hstep as (name' & _ & Hfree & ->).
    apply (top_keys_delete _ name') in Hin2 as ->; [|done]. congruence.
  - rewrite IH in Hdep2 by done. done.
Qed.

Lemma consider_changed (names : list string) (sc : scope) :
  (foldl (consider D) (sc, true) names).2 = true.
Proof.
  revert sc. induction names as [|name names IH]; intros sc; [done|]. simpl.
  by destruct (consider_cases (sc, true) name) as [->|(-> & _)].
Qed.

Lemma consider_unchanged (names : list string) (sc : scope) :
  (foldl (consider D) (sc, false) names).2 = false →
  foldl (consider D) (sc, false) names = (sc, false)
  ∧ ∀ name, name ∈ names → includes D name = true ∨ doesAnythingDependOn name sc = true.
Proof.
  induction names as [|name names IH]; simpl.
  - intros _. split; [done|]. by intros name ?%elem_of_nil.
  - destruct (consider_cases (sc, false) name) as [Hsame|(Hdel & _)].
    + rewrite Hsame. intros [Hfold Hall]%IH. split; [done|].
      intros name' [->|Hin]%elem_of_cons; [|by apply Hall].
      unfold consider in Hsame. simpl in Hsame.
      destruct (includes D name); [by left|].
      destruct (doesAnythingDependOn name sc); [by right|done].
    + rewrite Hdel, consider_changed. done.
Qed.

Lemma top_size_delete (name : string) (sc : scope) :
  top_size (delete_dependency name sc) ≤ top_size sc
  ∧ (name ∈ top_keys sc → top_size (delete_dependency name sc) < top_size sc).
Proof.
  destruct sc as [r [deps|]]; unfold top_size, top_keys, keys; simpl.
  - split; [apply length_filter|].
    intros (kv & -> & Hkv)%list_elem_of_fmap.
    apply (length_filter_lt _ _ kv); [done|]. by intros Hne.
  - split; [done|]. by intros ?%elem_of_nil.
Qed.

Lemma consider_size (start : scope) (names : list string) (st : scope * bool) :
  (∀ name, name ∈ names → name ∈ top_keys start) →
  (if st.2 then top_size st.1 < top_size start else st.1 = start) →
  if (foldl (consider D) st names).2
  then top_size (foldl (consider D) st names).1 < top_size start
  else (foldl (consider D) st names).1 = start.
Proof.
  revert st. induction names as [|name names IH]; intros st Hnames Hst; [done|].
  simpl. apply IH; [intros name' Hin; apply Hnames; by right|].
  destruct (consider_cases st name) as [->|(-> & _)]; [done|]. simpl.
  destruct (top_size_delete name st.1) as [Hle Hlt].
  destruct st as [cur [|]]; simpl in *; [lia|]. subst cur.
  apply Hlt, Hnames. by left.
Qed.

Lemma removeObsoletePackages_size (sc : scope) :
  if (removeObsoletePackages D (sc, false)).2
  then top_size (removeObsoletePackages D (sc, false)).1 < top_size sc
  else (removeObsoletePackages D (sc, false)).1 = sc.
Proof.
  unfold removeObsoletePackages. simpl.
  destruct (dependencies_of sc) as [deps|] eqn:Hdeps; [|done].
  apply consider_size; [|done]. intros name Hin. unfold top_keys. by rewrite Hdeps.
Qed.

Lemma prune_enough (fuel : nat) (sc : scope) :
  top_size sc < fuel → is_Some (prune fuel D sc).
Proof.
  revert sc. induction fuel as [|fuel IH]; intros sc Hfuel; [lia|]. simpl.
  pose proof (removeObsoletePackages_size sc) as Hsize.
  destruct (removeObsoletePackages D (sc, false)) as [sc1 [|]]; simpl in *.
  - apply IH. lia.
  - by eexists.
Qed.

Lemma prune_more_fuel (fuel : nat) (sc sc' : scope) :
  prune fuel D sc = Some sc' → prune (S fuel) D sc = Some sc'.
Proof.
  revert sc. induction fuel as [|fuel IH]; intros sc; [done|].
  intros Hrun. change (prune (S (S fuel)) D sc) with
    (let st := removeObsoletePackages D (sc, false) in
     if st.2 then prune (S fuel) D st.1 else Some st.1).
  simpl in Hrun. destruct (removeObsoletePackages D (sc, false)) as [sc1 [|]];
    simpl in *; [by apply IH|done].
Qed.

Lemma prune_fixpoint (fuel : nat) (sc sc' : scope) (name : string) :
  prune fuel D sc = Some sc' → name ∈ top_keys sc' →
  includes D name = true ∨ doesAnythingDependOn name sc' = true.
Proof.
  revert sc. induction fuel as [|fuel IH]; intros sc; [done|]. simpl.
  destruct (removeObsoletePackages D (sc, false)) as [sc1 changes] eqn:Hpass.
  simpl. destruct changes; [apply IH|]. intros [= <-] Hin.
  unfold removeObsoletePackages in Hpass. simpl in Hpass.
  destruct (dependencies_of sc) as [deps|] eqn:Hdeps.
  - destruct (consider_unchanged (keys deps) sc) as [Hsame Hall];
      [by rewrite Hpass|].
    rewrite Hpass in Hsame. injection Hsame as ->. apply Hall.
    unfold top_keys in Hin. by rewrite Hdeps in Hin.
  - injection Hpass as ->. unfold top_keys in Hin. rewrite Hdeps in Hin.
    by apply elem_of_nil in Hin.
Qed.

End SnipFacts.

Lemma prune_any_fuel (D : list string) (fuel fuel' : nat) (sc F F' : scope) :
  prune fuel D sc = Some F → prune fuel' D sc = Some F' → F = F'.
Proof.
  assert (Hmore : ∀ k f G, prune f D sc = Some G → prune (k + f) D sc = Some G).
  { intros k f G HG. induction k as [|k IH]; [done|]. by apply prune_more_fuel. }
  intros HF%(Hmore fuel') HF'%(Hmore fuel).
  rewrite (Nat.add_comm fuel fuel') in HF'. congruence.
Qed.

(** X8. The pruning only leaves out packages at the top of the shrinkwrap:
    what is kept is in the order it was in and each package is as it was,
    nested packages included; and no direct dependency of [package.json] is
    left out. *)
Theorem prune_keeps_order_and_direct (D : list string) (fuel : nat) (sc sc' : scope) :
  prune fuel D sc = Some sc' →
  pruned sc sc'
  ∧ ∀ kv, kv ∈ default [] (dependencies_of sc) → includes D kv.1 = true →
      kv ∈ default [] (dependencies_of sc').
Proof.
  intros Hsteps%prune_removals. split; [by eapply removals_pruned|].
  intros kv Hkv Hdirect. by eapply removals_keep_direct.
Qed.

Lemma prune_keeps_order_and_direct_witness :
  prune 9 (directDeps sample_package_json) sample_snipped = Some sample_pruned
  ∧ ("verdaccio", Scope (Some [("bunyan", "1.8"); ("@verdaccio/local-storage", "9")]) None)
    ∈ default [] (dependencies_of sample_pruned).
Proof.
  assert (Hprune : prune 9 (directDeps sample_package_json) sample_snipped
                   = Some sample_pruned) by (vm_compute; reflexivity).
  split; [exact Hprune|].
  apply (proj2 (prune_keeps_order_and_direct (directDeps sample_package_json) 9
                  sample_snipped sample_pruned Hprune)
           ("verdaccio",
            Scope (Some [("bunyan", "1.8"); ("@verdaccio/local-storage", "9")]) None)).
  - apply list_elem_of_here.
  - vm_compute. reflexivity.
Defined.

(** X9. The pruning never leaves out a package that something it keeps
    requires: a package of the top of the shrinkwrap that a kept package
    requires, at any depth, is kept. *)
Theorem prune_keeps_what_is_required (D : list string) (fuel : nat) (sc sc' : scope)
    (name : string) :
  prune fuel D sc = Some sc' →
  name ∈ top_keys sc →
  doesAnythingDependOn name sc' = true →
  name ∈ top_keys sc'.
Proof.
  intros Hsteps%prune_removals Hin Hdep.
  destruct (decide (name ∈ top_keys sc')) as [|Hout]; [done|].
  rewrite (removals_unneeded D sc sc' name) in Hdep by done. done.
Qed.

Lemma prune_keeps_what_is_required_witness :
  prune 9 (directDeps sample_package_json) sample_snipped = Some sample_pruned
  ∧ "lodash" ∈ top_keys sample_pruned.
Proof.
  assert (Hprune : prune 9 (directDeps sample_package_json) sample_snipped
                   = Some sample_pruned) by (vm_compute; reflexivity).
  split; [exact Hprune|].
  apply (prune_keeps_what_is_required (directDeps sample_package_json) 9
           sample_snipped sample_pruned "lodash" Hprune).
  - unfold top_keys, keys. simpl. rewrite !elem_of_cons. tauto.
  - vm_compute. reflexivity.
Defined.

(** X10. When the pruning ends nothing obsolete is left at the top: every
    package kept there is a direct dependency or is required by a package
    that is kept. *)
Theorem prune_leaves_nothing_obsolete (D : list string) (fuel : nat) (sc sc' : scope)
    (name : string) :
  prune fuel D sc = Some sc' →
  name ∈ top_keys sc' →
  includes D name = true ∨ doesAnythingDependOn name sc' = true.
Proof. apply prune_fixpoint. Qed.

Lemma prune_leaves_nothing_obsolete_witness :
  prune 9 (directDeps sample_package_json) sample_snipped = Some sample_pruned
  ∧ (includes (directDeps sample_package_json) "mv" = true
     ∨ doesAnythingDependOn "mv" sample_pruned = true).
Proof.
  assert (Hprune : prune 9 (directDeps sample_package_json) sample_snipped
                   = Some sample_pruned) by (vm_compute; reflexivity).
  split; [exact Hprune|].
  apply (prune_leaves_nothing_obsolete (directDeps sample_package_json) 9
           sample_snipped sample_pruned "mv" Hprune).
  unfold top_keys, keys. simpl. rewrite !elem_of_cons. tauto.
Defined.

(** X11. The loop of the script ends: once the two deletions have gone
    through, one round more than there are packages at the top is enough,
    and more rounds give the same shrinkwrap. *)
Theorem shrink_snip_ends (packageJson : package_json) (shrinkwrap sc1 sc2 : scope) :
  snip_require "@verdaccio/local-storage" "level" shrinkwrap = Some sc1 →
  snip_require "bunyan" "dtrace-provider" sc1 = Some sc2 →
  ∃ sc', shrink_snip packageJson shrinkwrap = Some sc'
         ∧ ∀ fuel F, prune fuel (directDeps packageJson) sc2 = Some F → F = sc'.
Proof.
  intros H1 H2. unfold shrink_snip. rewrite H1. simpl. rewrite H2. simpl.
  destruct (prune_enough (directDeps packageJson) (S (top_size sc2)) sc2) as [sc' Hsc'];
    [lia|].
  exists sc'. split; [done|]. intros fuel F HF. by eapply prune_any_fuel.
Qed.

Lemma shrink_snip_ends_witness :
  ∃ sc', shrink_snip sample_package_json sample_shrinkwrap = Some sc'
         ∧ ∀ fuel F,
             prune fuel (directDeps sample_package_json) sample_snipped = Some F →
             F = sc'.
Proof.
  apply (shrink_snip_ends sample_package_json sample_shrinkwrap
           (Scope None (Some
             [ ("verdaccio", Scope (Some [("bunyan", "1.8"); ("@verdaccio/local-storage", "9")]) None);
               ("bunyan", Scope (Some [("dtrace-provider", "0.8"); ("mv", "2")]) None);
               ("@verdaccio/local-storage", Scope (Some [("lodash", "4")]) None);
               ("leveldown", Scope None None);
               ("level", Scope (Some [("leveldown", "5")]) None);
               ("dtrace-provider", Scope None None);
               ("mv", Scope None None);
               ("lodash", Scope None None) ]))
           sample_snipped); vm_compute; reflexivity.
Defined.


Lemma requires_it_deleted (name : string) (reqs : list (string * string))
    (nested : option (list (string * scope))) :
  requires_it name (Scope (Some (delete_key name reqs)) nested) = false.
Proof.
  unfold requires_it, includes, keys, delete_key. simpl.
  apply bool_decide_eq_false. intros (kv & -> & [Hne _]%list_elem_of_filter)%list_elem_of_fmap.
  done.
Qed.

(** X12. The deletion of a requirement changes that and nothing else: the
    package no longer requires the name, it keeps its other requirements
    and its nested packages, the packages of the shrinkwrap keep their
    order, and every other package is as it was. *)
Theorem snip_require_removes_requirement (pkg name : string)
    (requires : option (list (string * string))) (deps : list (string * scope))
    (reqs : list (string * string)) (nested : option (list (string * scope))) :
  get pkg deps = Some (Scope (Some reqs) nested) →
  ∃ deps',
    snip_require pkg name (Scope requires (Some deps)) = Some (Scope requires (Some deps'))
    ∧ keys deps' = keys deps
    ∧ get pkg deps' = Some (Scope (Some (delete_key name reqs)) nested)
    ∧ requires_it name (Scope (Some (delete_key name reqs)) nested) = false
    ∧ ∀ other, other ≠ pkg → get other deps' = get other deps.
Proof.
  intros Hget. unfold snip_require. rewrite Hget. eexists. split; [done|].
  set (f := λ kv : string * scope,
         if String.eqb kv.1 pkg
         then (kv.1, Scope (Some (delete_key name reqs)) nested) else kv).
  assert (Hfst : ∀ kv, (f kv).1 = kv.1).
  { intros kv. unfold f. by destruct (String.eqb kv.1 pkg). }
  split; [|split; [|split; [apply requires_it_deleted|]]].
  - unfold keys. rewrite <-list_fmap_compose. apply list_fmap_ext. intros _ kv _. apply Hfst.
  - clear Hfst. induction deps as [|[k v] deps IH]; [done|]. simpl in *.
    unfold f at 1. simpl. destruct (String.eqb_spec k pkg) as [->|Hne]; simpl.
    + by rewrite String.eqb_refl.
    + apply String.eqb_neq in Hne. rewrite Hne. by apply IH.
  - intros other Hother. clear Hget Hfst.
    induction deps as [|[k v] deps IH]; [done|]. simpl.
    unfold f at 1. simpl. destruct (String.eqb_spec k pkg) as [->|Hne]; simpl.
    + apply String.eqb_neq in Hother. rewrite String.eqb_sym in Hother.
      rewrite Hother. apply IH.
    + destruct (String.eqb k other); [done|apply IH].
Qed.


Lemma snip_require_removes_requirement_witness :
  get "bunyan" [("bunyan", Scope (Some [("dtrace-provider", "0.8"); ("mv", "2")]) None);
                ("mv", Scope None None)]
  = Some (Scope (Some [("dtrace-provider", "0.8"); ("mv", "2")]) None)
  ∧ ∃ deps',
      snip_require "bunyan" "dtrace-provider"
        (Scope None (Some [("bunyan", Scope (Some [("dtrace-provider", "0.8"); ("mv", "2")]) None);
                           ("mv", Scope None None)]))
      = Some (Scope None (Some deps'))
      ∧ keys deps'
        = keys [("bunyan", Scope (Some [("dtrace-provider", "0.8"); ("mv", "2")]) None);
                ("mv", Scope None None)]
      ∧ get "bunyan" deps'
        = Some (Scope (Some (delete_key "dtrace-provider"
                               [("dtrace-provider", "0.8"); ("mv", "2")])) None)
      ∧ requires_it "dtrace-provider"
          (Scope (Some (delete_key "dtrace-provider"
                          [("dtrace-provider", "0.8"); ("mv", "2")])) None) = false
      ∧ ∀ other, other ≠ "bunyan" →
          get other deps'
          = get other [("bunyan", Scope (Some [("dtrace-provider", "0.8"); ("mv", "2")]) None);
                       ("mv", Scope None None)].
Proof.
  split; [reflexivity|].
  exact (snip_require_removes_requirement "bunyan" "dtrace-provider" None
           [("bunyan", Scope (Some [("dtrace-provider", "0.8"); ("mv", "2")]) None);
            ("mv", Scope None None)]
           [("dtrace-provider", "0.8"); ("mv", "2")] None eq_refl).
Defined.

(** * Further properties of the orchestrator *)

Import Reading.

Section RunFacts.
Variable argv : options.
Variable w : world.

(** ** Results *)

Lemma lift_result {X : Type} (r : fallible X) :
  (lift r).2 = match r with Done x => Returns x | Failed e => Throws e end.
Proof. by destruct r. Qed.

Lemma finally_result_eq {X : Type} (m : M X) (c : M unit) :
  c.2 = Returns tt → (finally m c).2 = m.2.
Proof. destruct m as [t [x|e|]], c as [t' [[]|e'|]]; simpl; by intros. Qed.

Lemma cleanup_eq (tempDir : string) :
  cleanup w tempDir = (Rmdir tempDir :: rmdir_warning w, Returns tt).
Proof. unfold cleanup, rmdir_warning. by destruct (rmdir w) as [[]|e]. Qed.

Lemma runWithServer_result (action : list (string * string) → M unit) :
  (runWithServer argv w action).2
  = match mkdtemp w with
    | Failed e => Throws e
    | Done tempDir =>
        match (attempt argv w tempDir action).2 with
        | Pending => Pending
        | _ => Returns tt
        end
    end.
Proof.
  unfold runWithServer. rewrite bind_result, lift_result.
  destruct (mkdtemp w) as [tempDir|e]; [|done].
  rewrite finally_result_eq; [|by rewrite cleanup_eq].
  rewrite try_catch_result. by destruct ((attempt argv w tempDir action).2) as [[]|e|].
Qed.

Lemma runWithServer_trace (action : list (string * string) → M unit) (tempDir : string) :
  mkdtemp w = Done tempDir →
  (runWithServer argv w action).1
  = (attempt argv w tempDir action).1
    ++ match (attempt argv w tempDir action).2 with
       | Returns _ => Rmdir tempDir :: rmdir_warning w
       | Throws e => [Stderr e; ExitCode 1] ++ Rmdir tempDir :: rmdir_warning w
       | Pending => []
       end.
Proof.
  intros Hdir. unfold runWithServer. rewrite bind_trace, Hdir. simpl.
  rewrite finally_trace, try_catch_trace, try_catch_result, cleanup_eq.
  destruct ((attempt argv w tempDir action).2); simpl; by rewrite <-?app_assoc, ?app_nil_r.
Qed.

Lemma read_tarball_result (tarballs : list TarballInfo) (tarball : string) :
  (read_tarball argv w tarballs tarball).2
  = Returns (tarballs ++ option_list (readable w tarball)).
Proof.
  unfold read_tarball, readable, read_manifest, debug.
  destruct (extractFileFromTarball (files w) tarball "package/package.json")
    as [buffer|e]; simpl;
    [destruct (JSON_parse w (string_of_list_byte buffer)) as [pj|e]; simpl|];
    destruct (verbose argv =? 0); simpl; by rewrite ?app_nil_r.
Qed.

Lemma read_tarballs_result (tarballFiles : list string) (tarballs : list TarballInfo) :
  (read_tarballs argv w tarballs tarballFiles).2
  = Returns (tarballs ++ omap (readable w) tarballFiles).
Proof.
  revert tarballs. induction tarballFiles as [|tarball rest IH]; intros tarballs.
  - simpl. by rewrite app_nil_r.
  - cbn [read_tarballs]. rewrite bind_result, read_tarball_result, IH.
    rewrite <-app_assoc. f_equal. f_equal. simpl. by destruct (readable w tarball).
Qed.

End RunFacts.

(** X13. A tarball whose manifest cannot be extracted or parsed is left
    out and nothing else happens: the tarballs collected are exactly those
    that can be read, in the order of the listing, and collecting them
    fails only if the listing does. *)
Theorem collect_keeps_readable_tarballs (argv : options) (w : world)
    (tarballFiles : list string) :
  (list_tarballs argv w).2 = Returns tarballFiles →
  (collect_tarballs argv w).2 = Returns (omap (readable w) tarballFiles).
Proof.
  intros Hlist. unfold collect_tarballs. rewrite bind_result, Hlist.
  by rewrite read_tarballs_result.
Qed.

Lemma collect_keeps_readable_tarballs_witness :
  (list_tarballs sample_options sample_world).2 = Returns ["dist/a.tgz"; "dist/c.tgz"]
  ∧ (collect_tarballs sample_options sample_world).2
    = Returns (omap (readable sample_world) ["dist/a.tgz"; "dist/c.tgz"]).
Proof.
  split; [reflexivity|].
  by apply (collect_keeps_readable_tarballs sample_options sample_world).
Defined.

(** X14. A command together with [--daemon], or neither of them, is
    reported and nothing else is done: no directory is made, no file is
    written and no registry is started. *)
Theorem usage_error_touches_nothing (argv : options) (w : world) (child : bool) :
  (command argv = [] ∧ daemon argv = false) ∨ (command argv ≠ [] ∧ daemon argv = true) →
  ∃ message, program argv w child = ([Stderr message; ExitCode 1], Returns tt).
Proof.
  unfold program, main. intros [[-> ->]|[Hcmd ->]]; simpl; [by eexists|].
  rewrite andb_false_r, andb_true_r.
  rewrite bool_decide_eq_true_2; [by eexists|].
  destruct (command argv); [done|simpl; lia].
Qed.

Lemma usage_error_touches_nothing_witness :
  ∃ message,
    program (mkOptions 0 None None None 4873 "info" [] false false []) sample_world false
    = ([Stderr message; ExitCode 1], Returns tt).
Proof.
  apply (usage_error_touches_nothing
           (mkOptions 0 None None None 4873 "info" [] false false []) sample_world false).
  by left.
Defined.

(** X15. No error escapes: the program never ends by throwing, and
    [runWithServer] throws only when the working directory cannot be made,
    every other failure being caught in it. *)
Theorem errors_never_escape (argv : options) (w : world) (child : bool) :
  (∀ e, (program argv w child).2 ≠ Throws e)
  ∧ ∀ action e, (runWithServer argv w action).2 = Throws e → mkdtemp w = Failed e.
Proof.
  split.
  - intros e. unfold program. rewrite try_catch_result.
    by destruct ((main argv w child).2).
  - intros action e. rewrite runWithServer_result.
    destruct (mkdtemp w) as [tempDir|e']; [|by intros [= ->]].
    by destruct ((attempt argv w tempDir action).2).
Qed.

Section QuietFacts.
Variable argv : options.
Variable w : world.
Variable kind : event → bool.
Hypothesis kind_stderr : ∀ text, kind (Stderr text) = false.
Hypothesis kind_start : ∀ config p, kind (StartVerdaccio config p) = false.
Hypothesis kind_listen : ∀ p, kind (Listen p) = false.
Hypothesis kind_close : ∀ p, kind (Close p) = false.
Hypothesis kind_write : ∀ file content, kind (WriteFile file content) = false.
Hypothesis kind_publish : ∀ tarballs, kind (PublishAll tarballs) = false.
Hypothesis kind_spawn : ∀ cmd vars, kind (Spawn cmd vars) = false.

Lemma silent_runVerdaccio (config : verdaccio_config) (block : M unit) :
  silent kind block → silent kind (runVerdaccio argv w config block).
Proof using kind_stderr kind_start kind_listen kind_close.
  intros Hb. unfold runVerdaccio.
  apply silent_bind; [by apply silent_emit|]. intros _ _.
  apply silent_bind; [by apply silent_debug|]. intros _ _.
  apply silent_bind; [by apply silent_emit|]. intros _ _.
  unfold silent in *. destruct block as [t [[]|e|]]; simpl in *; [| |done];
    (apply Forall_app; split; [done|by apply Forall_singleton]).
Qed.

Lemma silent_attempt (tempDir : string) (action : list (string * string) → M unit) :
  (∀ vars, silent kind (action vars)) → silent kind (attempt argv w tempDir action).
Proof using All.
  intros Haction. unfold attempt.
  apply silent_bind; [by apply silent_debug|]. intros _ _.
  apply silent_bind; [by apply silent_collect_tarballs|]. intros tarballs _.
  apply silent_bind; [apply silent_lift|]. intros _ _.
  apply silent_bind; [by apply silent_emit|]. intros _ _.
  apply silent_bind.
  { unfold publish_phase. case_bool_decide; [|apply silent_ret].
    apply silent_bind; [by apply silent_debug|]. intros _ _.
    by apply silent_runVerdaccio, silent_publish_block. }
  intros _ _. unfold serve_phase.
  apply silent_bind; [by apply silent_debug|]. intros _ _.
  by apply silent_runVerdaccio.
Qed.

End QuietFacts.

Lemma silent_action (argv : options) (w : world) (kind : event → bool)
    (vars : list (string * string)) :
  (∀ text, kind (Stderr text) = false) → (∀ message, kind (Send message) = false) →
  kind IgnoreSIGINT = false → (∀ cmd vs, kind (Spawn cmd vs) = false) →
  silent kind (action_of argv w vars).
Proof.
  intros. unfold action_of. destruct (daemon argv).
  - by apply silent_daemon_action.
  - by apply silent_command_action.
Qed.

Lemma program_runs_server (argv : options) (w : world) (child : bool) (tempDir : string) :
  runs_server argv child = true → mkdtemp w = Done tempDir →
  program argv w child = runWithServer argv w (action_of argv w).
Proof.
  intros Hmode Hdir. unfold program. rewrite main_runs_server by done.
  pose proof (runWithServer_result argv w (action_of argv w)) as Hres.
  rewrite Hdir in Hres.
  destruct (runWithServer argv w (action_of argv w)) as [t [[]|e|]]; simpl in *; try done.
  by destruct (_.2).
Qed.

(** X16. When a run that serves the registry ends, the last thing it does
    is to remove its working directory, once, with at most a warning
    after it; this also when the run failed. *)
Theorem working_directory_removed_last (argv : options) (w : world) (child : bool)
    (tempDir : string) :
  runs_server argv child = true →
  mkdtemp w = Done tempDir →
  (program argv w child).2 ≠ Pending →
  ∃ pre, (program argv w child).1 = pre ++ Rmdir tempDir :: rmdir_warning w
         ∧ Forall (λ ev, is_rmdir ev = false) pre.
Proof.
  intros Hmode Hdir Hend. rewrite (program_runs_server argv w child tempDir) in * by done.
  rewrite runWithServer_result, Hdir in Hend.
  rewrite (runWithServer_trace argv w _ tempDir Hdir).
  assert (Hquiet : silent is_rmdir (attempt argv w tempDir (action_of argv w))).
  { apply silent_attempt; try done. intros vars. by apply silent_action. }
  destruct ((attempt argv w tempDir (action_of argv w)).2) as [[]|e|]; [| |done].
  - by eexists.
  - exists ((attempt argv w tempDir (action_of argv w)).1 ++ [Stderr e; ExitCode 1]).
    split; [by rewrite <-app_assoc|].
    apply Forall_app. split; [done|]. by repeat constructor.
Qed.

Lemma working_directory_removed_last_witness :
  ∃ pre, (program (mkOptions 0 (Some "dist") None None 4873 "info" [] false false ["sh"])
            sample_world false).1
         = pre ++ Rmdir "/tmp/serve-npm-tarballs-abc" :: rmdir_warning sample_world
         ∧ Forall (λ ev, is_rmdir ev = false) pre.
Proof.
  apply (working_directory_removed_last
           (mkOptions 0 (Some "dist") None None 4873 "info" [] false false ["sh"])
           sample_world false "/tmp/serve-npm-tarballs-abc"); [reflexivity..|].
  vm_compute. discriminate.
Defined.

(** X17. A failure to remove the working directory is a warning and no
    more: the run does what it does when the removal succeeds, ends the
    same way, and writes one line more on standard error; the exit code is
    not touched. *)
Theorem rmdir_failure_is_only_a_warning (argv : options) (w : world) (child : bool)
    (tempDir message : string) :
  runs_server argv child = true →
  mkdtemp w = Done tempDir →
  (program argv (with_rmdir w (Done tt)) child).2 ≠ Pending →
  (program argv (with_rmdir w (Failed message)) child).1
  = (program argv (with_rmdir w (Done tt)) child).1 ++ [Stderr ("Warning: " +:+ message)]
  ∧ (program argv (with_rmdir w (Failed message)) child).2
    = (program argv (with_rmdir w (Done tt)) child).2.
Proof.
  intros Hmode Hdir.
  rewrite (program_runs_server argv (with_rmdir w (Done tt)) child tempDir) by done.
  rewrite (program_runs_server argv (with_rmdir w (Failed message)) child tempDir) by done.
  rewrite !runWithServer_result.
  rewrite (runWithServer_trace argv (with_rmdir w (Done tt)) _ tempDir Hdir).
  rewrite (runWithServer_trace argv (with_rmdir w (Failed message)) _ tempDir Hdir).
  simpl mkdtemp. rewrite Hdir. cbv beta iota.
  change (attempt argv (with_rmdir w (Failed message)) tempDir
            (action_of argv (with_rmdir w (Failed message))))
    with (attempt argv (with_rmdir w (Done tt)) tempDir
            (action_of argv (with_rmdir w (Done tt)))).
  unfold rmdir_warning. simpl rmdir.
  destruct ((attempt argv (with_rmdir w (Done tt)) tempDir
               (action_of argv (with_rmdir w (Done tt)))).2) as [[]|e|];
    [| |done]; intros _; (split; [|done]); simpl; rewrite <-?app_assoc; done.
Qed.

Lemma rmdir_failure_is_only_a_warning_witness :
  (program (mkOptions 0 (Some "dist") None None 4873 "info" [] false false ["sh"])
     (with_rmdir sample_world (Failed "EBUSY")) false).1
  = (program (mkOptions 0 (Some "dist") None None 4873 "info" [] false false ["sh"])
       (with_rmdir sample_world (Done tt)) false).1 ++ [Stderr ("Warning: " +:+ "EBUSY")].
Proof.
  apply (rmdir_failure_is_only_a_warning
           (mkOptions 0 (Some "dist") None None 4873 "info" [] false false ["sh"])
           sample_world false "/tmp/serve-npm-tarballs-abc" "EBUSY");
    [reflexivity..|].
  vm_compute. discriminate.
Defined.

(** ** The two phases *)

Section TwoPhases.
Variable argv : options.
Variable w : world.

Lemma registry_runVerdaccio_block (config : verdaccio_config) (block : M unit) :
  registry (runVerdaccio argv w config block).1
  = [StartVerdaccio config (port argv); Listen (port argv)]
    ++ registry block.1
    ++ match block.2 with Pending => [] | _ => [Close (port argv)] end.
Proof.
  unfold runVerdaccio. rewrite registry_bind. simpl.
  rewrite (registry_bind_silent _ _ tt); [|by apply silent_debug|apply debug_result].
  destruct block as [t [[]|e|]]; unfold registry in *; simpl in *;
    rewrite filter_cons_True by done; rewrite ?filter_app, ?app_nil_r; done.
Qed.

Lemma registry_warning : registry (rmdir_warning w) = [].
Proof. unfold rmdir_warning. by destruct (rmdir w). Qed.

Lemma registry_runWithServer (action : list (string * string) → M unit)
    (tempDir : string) :
  mkdtemp w = Done tempDir →
  registry (runWithServer argv w action).1 = registry (attempt argv w tempDir action).1.
Proof.
  intros Hdir. rewrite (runWithServer_trace argv w action tempDir Hdir), registry_app.
  destruct (_.2); unfold registry; simpl;
    rewrite ?filter_cons_False by (by intros ?); fold (registry (rmdir_warning w));
    by rewrite ?registry_warning, app_nil_r.
Qed.

Lemma publish_phase_result (tempDir : string) (tarballs : list TarballInfo) :
  tarballs ≠ [] →
  (publish_phase argv w tempDir tarballs).2
  = match publish_all w tarballs with Returns _ => Returns tt | r => r end.
Proof.
  intros Hne. unfold publish_phase. rewrite bool_decide_eq_true_2.
  2:{ destruct tarballs; [done|simpl; lia]. }
  rewrite bind_result, debug_result, runVerdaccio_result.
  by rewrite publish_block_result.
Qed.

Lemma registry_publish_phase (tempDir : string) (tarballs : list TarballInfo) :
  tarballs ≠ [] →
  registry (publish_phase argv w tempDir tarballs).1
  = [StartVerdaccio (publish_config argv tempDir) (port argv); Listen (port argv);
     PublishAll (tarballFile <$> tarballs)]
    ++ match publish_all w tarballs with Pending => [] | _ => [Close (port argv)] end.
Proof.
  intros Hne. unfold publish_phase. rewrite bool_decide_eq_true_2.
  2:{ destruct tarballs; [done|simpl; lia]. }
  rewrite (registry_bind_silent _ _ tt); [|by apply silent_debug|apply debug_result].
  rewrite registry_runVerdaccio_block, publish_block_result, publish_block_trace.
  assert (Hquiet : registry
    (mjoin ((λ t, (publish_thunk argv w tempDir t).1)
              <$> take (Runner.next (published w tarballs)) tarballs)) = []).
  { apply (registry_silent (_, Returns tt)). by apply silent_launches. }
  unfold registry in *. rewrite filter_cons_True by done. by rewrite Hquiet.
Qed.

Lemma registry_serve_phase (tempDir : string) (tarballs : list TarballInfo) :
  registry (serve_phase argv w tempDir tarballs (action_of argv w)).1
  = [StartVerdaccio (serve_config argv tempDir tarballs) (port argv); Listen (port argv)]
    ++ match (action_of argv w (npmConfigVars argv w tempDir)).2 with
       | Pending => []
       | _ => [Close (port argv)]
       end.
Proof.
  unfold serve_phase.
  rewrite (registry_bind_silent _ _ tt); [|by apply silent_debug|apply debug_result].
  rewrite registry_runVerdaccio_block, (registry_silent (action_of _ _ _)); [done|].
  apply silent_action_of.
Qed.

End TwoPhases.

(** ** The publications, as the runner runs them *)

Section Publications.
Variable outcomes : list (completion unit).
Variable cpus : nat.
Variable order : list nat.

Local Abbreviation thunks := (publish_thunks outcomes).

Lemma length_publish_thunks : length thunks = length outcomes.
Proof. unfold publish_thunks. by rewrite length_fmap. Qed.

Lemma publish_thunk_rejected (i : nat) (e : string) :
  thunks !! i = Some (Rejected e) ↔ outcomes !! i = Some (Throws e).
Proof.
  unfold publish_thunks. rewrite list_lookup_fmap.
  destruct (outcomes !! i) as [[[]|e'|]|]; simpl; split; try done.
  - by intros [= ->].
  - by intros [= ->].
Qed.

Lemma publish_event_settle (s : state unit string) (i : nat) :
  publish_event outcomes order s = Some (Settle i) →
  in_flight s i = true ∧ ends outcomes i = true.
Proof.
  unfold publish_event. destruct (jobs s); [|done].
  destruct (head _) as [j|] eqn:Hhead; [|done]. intros [= ->].
  apply head_Some_elem_of, list_elem_of_filter in Hhead as [Hi _].
  by apply andb_true_iff in Hi.
Qed.

Lemma publish_event_none (s : state unit string) :
  wf thunks None cpus s → publish_event outcomes order s = None →
  jobs s = [] ∧ ∀ i, in_flight s i = true → ends outcomes i = false.
Proof.
  intros Hwf. unfold publish_event. destruct (jobs s); [|done].
  destruct (head _) as [j|] eqn:Hhead; [done|]. intros _. split; [done|].
  intros i Hfl. destruct (ends outcomes i) eqn:Hends; [|done].
  apply head_None in Hhead.
  assert (Hi : i ∈ filter (λ i, in_flight s i && ends outcomes i = true)
                     (order ++ seq 0 (length outcomes))).
  { apply list_elem_of_filter. split; [by rewrite Hfl, Hends|].
    apply elem_of_app. right. apply elem_of_seq.
    apply in_flight_spec in Hfl as [Hl _].
    rewrite (wf_resolved s Hwf), elem_of_seq in Hl.
    pose proof (wf_next s Hwf) as Hn. rewrite length_publish_thunks in Hn. lia. }
  rewrite Hhead in Hi. by apply elem_of_nil in Hi.
Qed.

Lemma publish_event_step (s : state unit string) (ev : Runner.event) :
  wf thunks None cpus s → publish_event outcomes order s = Some ev →
  is_Some (step thunks None cpus s ev).
Proof.
  intros Hwf Hev. destruct ev as [i|].
  - apply publish_event_settle in Hev as [Hfl _]. simpl. unfold settle. rewrite Hfl.
    apply in_flight_spec in Hfl as [Hl _].
    rewrite (wf_resolved s Hwf), elem_of_seq in Hl. pose proof (wf_next s Hwf).
    destruct (lookup_lt_is_Some_2 thunks i) as [[a|e] ->]; [lia|done..].
  - unfold publish_event in Hev. simpl. unfold tick.
    destruct (jobs s); [|done]. by destruct (head _).
Qed.

(** The runner is driven along one of its runs. *)
Lemma publish_run_run (fuel : nat) (s : state unit string) :
  ∃ evs, run thunks None cpus s evs
         = Some (publish_run outcomes cpus order fuel s).
Proof.
  revert s. induction fuel as [|fuel IH]; intros s; [by exists []|]. simpl.
  destruct (publish_event outcomes order s) as [ev|]; [|by exists []].
  destruct (step thunks None cpus s ev) as [s'|] eqn:Hstep; [|by exists []].
  destruct (IH s') as [evs Hevs]. exists (ev :: evs). simpl. by rewrite Hstep.
Qed.

(** Only a publication that ends is completed. *)
Lemma publish_run_settled (fuel : nat) (s : state unit string) :
  (∀ i, i ∈ settled s → ends outcomes i = true) →
  ∀ i, i ∈ settled (publish_run outcomes cpus order fuel s) → ends outcomes i = true.
Proof.
  revert s. induction fuel as [|fuel IH]; intros s Hs; [done|]. simpl.
  destruct (publish_event outcomes order s) as [ev|] eqn:Hev; [|done].
  destruct (step thunks None cpus s ev) as [s'|] eqn:Hstep; [|done].
  apply IH. destruct ev as [j|]; simpl in Hstep.
  - apply publish_event_settle in Hev as [_ Hends].
    apply settle_fields in Hstep as (_ & t & _ & _ & _ & -> & _).
    intros i [Hi| ->%list_elem_of_singleton]%elem_of_app; [by apply Hs|done].
  - apply tick_fields in Hstep as (j & rest & _ & _ & -> & _). done.
Qed.

(** The runner is driven until nothing is left to happen. *)
Lemma publish_run_end (fuel : nat) (s : state unit string) :
  wf thunks None cpus s → Runner.fuel thunks s ≤ fuel →
  publish_event outcomes order (publish_run outcomes cpus order fuel s) = None.
Proof.
  revert s. induction fuel as [|fuel IH]; intros s Hwf Hfuel; simpl.
  - destruct (publish_event outcomes order s) as [ev|] eqn:Hev; [|done].
    destruct (publish_event_step s ev Hwf Hev) as [s' Hstep].
    pose proof (step_fuel _ _ _ _ _ _ Hwf Hstep). lia.
  - destruct (publish_event outcomes order s) as [ev|] eqn:Hev; [|done].
    destruct (publish_event_step s ev Hwf Hev) as [s' Hstep]. rewrite Hstep.
    apply IH; [by eapply wf_step|].
    pose proof (step_fuel _ _ _ _ _ _ Hwf Hstep). lia.
Qed.

End Publications.

Section Published.
Variable w : world.
Variable tarballs : list TarballInfo.

Local Abbreviation outcomes := (publications w tarballs).
Local Abbreviation thunks := (publish_thunks (publications w tarballs)).

Lemma publications_lookup (i : nat) (outcome : completion unit) :
  outcomes !! i = Some outcome →
  ∃ t, t ∈ tarballs ∧ npm_publish w (tarballFile t) = outcome.
Proof.
  unfold publications. rewrite list_lookup_fmap.
  destruct (tarballs !! i) as [t|] eqn:Ht; [|done]. intros [= <-].
  exists t. split; [by eapply list_elem_of_lookup_2|done].
Qed.

Lemma publications_elem (t : TarballInfo) :
  t ∈ tarballs → ∃ i, outcomes !! i = Some (npm_publish w (tarballFile t)).
Proof.
  intros [i Hi]%list_elem_of_lookup_1. exists i.
  unfold publications. by rewrite list_lookup_fmap, Hi.
Qed.

Lemma published_reachable :
  ∃ evs, run thunks None (os_cpus w) (start thunks None (os_cpus w)) evs
         = Some (published w tarballs).
Proof. apply publish_run_run. Qed.

Lemma published_end :
  jobs (published w tarballs) = []
  ∧ ∀ i, in_flight (published w tarballs) i = true → ends outcomes i = false.
Proof.
  destruct published_reachable as [evs Hrun].
  apply (publish_event_none outcomes (os_cpus w) (finish_order w)).
  - by eapply wf_reachable.
  - apply publish_run_end; [apply wf_start|].
    unfold Runner.fuel. rewrite start_eq, length_publish_thunks. simpl.
    unfold publications. rewrite length_fmap. lia.
Qed.

Lemma published_settled (i : nat) :
  i ∈ settled (published w tarballs) → ends outcomes i = true.
Proof.
  apply publish_run_settled. rewrite start_eq. simpl. intros j Hj.
  by apply elem_of_nil in Hj.
Qed.

(** When every publication ends, the runner ends with nothing in flight. *)
Lemma published_quiescent :
  (∀ t, t ∈ tarballs → npm_publish w (tarballFile t) ≠ Pending) →
  quiescent thunks None (os_cpus w) (published w tarballs).
Proof.
  intros Hend. destruct published_end as [Hjobs Hfl].
  intros [i|]; simpl; [|unfold tick; by rewrite Hjobs].
  unfold settle. destruct (in_flight (published w tarballs) i) eqn:Hi; [|done].
  specialize (Hfl i Hi). destruct (thunks !! i) as [t|] eqn:Ht; [|done].
  unfold publish_thunks in Ht. rewrite list_lookup_fmap in Ht.
  unfold ends in Hfl. destruct (outcomes !! i) as [outcome|] eqn:Ho; [|done].
  apply publications_lookup in Ho as (t' & Hin & <-).
  specialize (Hend t' Hin). by destruct (npm_publish w (tarballFile t')).
Qed.

Lemma publish_all_throws (e : string) :
  publish_all w tarballs = Throws e →
  ∃ t, t ∈ tarballs ∧ npm_publish w (tarballFile t) = Throws e.
Proof.
  unfold publish_all. destruct published_reachable as [evs Hrun].
  destruct (sound_reachable _ _ _ _ _ Hrun) as [Hsound _].
  destruct (result (published w tarballs)) as [[vs|e']|] eqn:Hr; [done| |done].
  intros [= ->]. apply (sound_earned _ Hsound) in Hr as (i & _ & Hi).
  apply publish_thunk_rejected in Hi. by apply publications_lookup in Hi.
Qed.

Lemma publish_all_returns :
  publish_all w tarballs = Returns tt →
  ∀ t, t ∈ tarballs → npm_publish w (tarballFile t) = Returns tt.
Proof.
  unfold publish_all. destruct published_reachable as [evs Hrun].
  destruct (sound_reachable _ _ _ _ _ Hrun) as [Hsound _].
  destruct (result (published w tarballs)) as [[vs|e']|] eqn:Hr; [|done..].
  intros _ t [i Hi]%publications_elem.
  apply (sound_earned _ Hsound) in Hr as [Hvs Hall].
  assert (Hlt : i < length thunks).
  { rewrite length_publish_thunks. by eapply lookup_lt_Some. }
  pose proof (published_settled i (Hall i Hlt)) as Hends.
  unfold ends in Hends. rewrite Hi in Hends.
  destruct (npm_publish w (tarballFile t)) as [[]|e|] eqn:Ht; [done| |done].
  assert (Hrej : thunks !! i = Some (Rejected e)) by by apply publish_thunk_rejected.
  rewrite Hvs, list_lookup_fmap in Hrej. by destruct (vs !! i).
Qed.

Lemma publish_all_succeeds :
  tarballs ≠ [] →
  (∀ t, t ∈ tarballs → npm_publish w (tarballFile t) = Returns tt) →
  publish_all w tarballs = Returns tt.
Proof.
  intros Hne Hall. destruct published_reachable as [evs Hrun].
  pose proof (wf_reachable _ _ _ _ _ Hrun) as Hwf.
  destruct (sound_reachable _ _ _ _ _ Hrun) as [Hsound Hcur].
  assert (Hok : ∀ i e, thunks !! i ≠ Some (Rejected e)).
  { intros i e [t [Hin Ht]]%publish_thunk_rejected%publications_lookup.
    by rewrite Hall in Ht. }
  destruct (quiescent_result thunks None (os_cpus w) Hok (published w tarballs))
    as [vs Hvs]; try done.
  - apply initial_length_proper; [|done].
    unfold publish_thunks, publications. by destruct tarballs.
  - eapply balanced_run; [done|by apply balanced_start|done].
  - apply published_quiescent. intros t Hin. by rewrite Hall.
  - unfold publish_all. by rewrite Hvs.
Qed.

(** When every publication fails the promise of the runner never settles. *)
Lemma publish_all_stalls :
  (∀ t, t ∈ tarballs → ∃ e, npm_publish w (tarballFile t) = Throws e) →
  publish_all w tarballs = Pending.
Proof.
  intros Hfail. destruct published_reachable as [evs Hrun].
  assert (Hfirst : ∀ i, i < initial_length thunks None (os_cpus w) →
                        ∃ e, thunks !! i = Some (Rejected e)).
  { intros i Hi. pose proof (initial_length_le thunks None (os_cpus w)) as Hk.
    destruct (lookup_lt_is_Some_2 outcomes i) as [outcome Ho].
    { rewrite <-length_publish_thunks. lia. }
    pose proof Ho as Ho'. apply publications_lookup in Ho' as (t & Hin & <-).
    destruct (Hfail t Hin) as [e He]. exists e.
    apply publish_thunk_rejected. by rewrite Ho, He. }
  destruct (stalled_run thunks None (os_cpus w) evs
              (start thunks None (os_cpus w)) (published w tarballs) Hfirst
              (wf_start thunks None (os_cpus w))) as (_ & _ & _ & Hres);
    [by rewrite start_eq|done|].
  unfold publish_all. by rewrite Hres.
Qed.

(** A failure among publications that all end, when fewer fail than are
    launched at first, is the end of the step. *)
Lemma publish_all_fails :
  (∀ t, t ∈ tarballs → npm_publish w (tarballFile t) ≠ Pending) →
  0 < failures thunks →
  failures thunks < initial_length thunks None (os_cpus w) →
  ∃ e, publish_all w tarballs = Throws e.
Proof.
  intros Hend Hpos Hfew. destruct published_reachable as [evs Hrun].
  pose proof (wf_reachable _ _ _ _ _ Hrun) as Hwf.
  destruct (sound_reachable _ _ _ _ _ Hrun) as [Hsound Hcur].
  destruct (quiescent_failure thunks None (os_cpus w) (published w tarballs))
    as (i & e & _ & Hres); try done.
  - eapply accounted_run; [apply accounted_start|done].
  - by apply published_quiescent.
  - exists e. unfold publish_all. by rewrite Hres.
Qed.

End Published.

(** X18. With tarballs to publish, the registry of the publish phase is
    started first, with the configuration that has no upstream; the
    registry of the serve phase is started only after the first is closed
    and only if the promise of the runner was fulfilled, which it is
    exactly when every publication succeeds. When that promise is
    rejected, with the failure of a publication, the first registry is
    closed and no second one is started: so it is when the publications
    all end and fewer of them fail than are launched at first. When the
    promise never settles, as when every publication fails, the first
    registry stays up. *)
Theorem serve_phase_only_after_publication (argv : options) (w : world) (child : bool)
    (tempDir : string) (tarballs : list TarballInfo) :
  runs_server argv child = true →
  mkdtemp w = Done tempDir →
  (collect_tarballs argv w).2 = Returns tarballs →
  tarballs ≠ [] →
  writeFile w = Done tt →
  registry (program argv w child).1
  = [StartVerdaccio (publish_config argv tempDir) (port argv); Listen (port argv);
     PublishAll (tarballFile <$> tarballs)]
    ++ match publish_all w tarballs with
       | Pending => []
       | Throws _ => [Close (port argv)]
       | Returns _ =>
           [Close (port argv);
            StartVerdaccio (serve_config argv tempDir tarballs) (port argv);
            Listen (port argv)]
           ++ match (action_of argv w (npmConfigVars argv w tempDir)).2 with
              | Pending => []
              | _ => [Close (port argv)]
              end
       end
  ∧ (publish_all w tarballs = Returns tt
     ↔ ∀ t, t ∈ tarballs → npm_publish w (tarballFile t) = Returns tt)
  ∧ (∀ e, publish_all w tarballs = Throws e →
       ∃ t, t ∈ tarballs ∧ npm_publish w (tarballFile t) = Throws e)
  ∧ ((∀ t, t ∈ tarballs → npm_publish w (tarballFile t) ≠ Pending) →
     0 < failures (publish_thunks (publications w tarballs)) →
     failures (publish_thunks (publications w tarballs))
     < initial_length (publish_thunks (publications w tarballs)) None (os_cpus w) →
     ∃ e, publish_all w tarballs = Throws e)
  ∧ ((∀ t, t ∈ tarballs → ∃ e, npm_publish w (tarballFile t) = Throws e) →
     publish_all w tarballs = Pending).
Proof.
  intros Hmode Hdir Hcollect Hne Hwrite.
  split; [|split; [|split; [|split]]].
  - rewrite (program_runs_server argv w child tempDir) by done.
    rewrite (registry_runWithServer argv w _ tempDir Hdir). unfold attempt.
    rewrite (registry_bind_silent _ _ tt); [|by apply silent_debug|apply debug_result].
    rewrite (registry_bind_silent _ _ tarballs); [|by apply silent_collect_tarballs|done].
    rewrite Hwrite.
    rewrite (registry_bind_silent _ _ tt); [|apply silent_lift|done].
    rewrite (registry_bind_silent _ _ tt); [|by apply silent_emit|done].
    rewrite registry_bind, registry_publish_phase, publish_phase_result by done.
    destruct (publish_all w tarballs) as [[]|e|]; [|done..].
    rewrite registry_serve_phase. done.
  - split; [apply publish_all_returns|by apply publish_all_succeeds].
  - apply publish_all_throws.
  - apply publish_all_fails.
  - apply publish_all_stalls.
Qed.

Lemma serve_phase_only_after_publication_witness :
  registry (program sample_options sample_world true).1
  = [StartVerdaccio (publish_config sample_options "/tmp/serve-npm-tarballs-abc") 4873;
     Listen 4873; PublishAll ["dist/a.tgz"]]
    ++ match publish_all sample_world [mkTarballInfo "dist/a.tgz" (mkManifest "a")] with
       | Pending => []
       | Throws _ => [Close 4873]
       | Returns _ =>
           [Close 4873;
            StartVerdaccio
              (serve_config sample_options "/tmp/serve-npm-tarballs-abc"
                 [mkTarballInfo "dist/a.tgz" (mkManifest "a")]) 4873;
            Listen 4873]
           ++ match (action_of sample_options sample_world
                       (npmConfigVars sample_options sample_world
                          "/tmp/serve-npm-tarballs-abc")).2 with
              | Pending => []
              | _ => [Close 4873]
              end
       end
  ∧ publish_all sample_world [mkTarballInfo "dist/a.tgz" (mkManifest "a")] = Returns tt.
Proof.
  split; [|by vm_compute].
  apply (serve_phase_only_after_publication sample_options sample_world true
           "/tmp/serve-npm-tarballs-abc" [mkTarballInfo "dist/a.tgz" (mkManifest "a")]);
    [reflexivity|reflexivity|by vm_compute|discriminate|reflexivity].
Defined.

(** When the only publication fails, nothing calls [ok]: the run stays in
    the publish phase, with its registry up. *)
Example lone_publication_failure_stalls :
  registry (program sample_options
              (mkWorld (Done "/tmp/w") (Done []) (Done ["a.tgz"]) (resolve sample_world)
                 (files sample_world) (JSON_parse sample_world) (Done tt) "localhost"
                 (λ _, Throws "Command 'npm' exited with error code 1") 4 []
                 (Returns tt) false (Done tt) 1) true).1
  = [StartVerdaccio (publish_config sample_options "/tmp/w") 4873; Listen 4873;
     PublishAll ["dist/a.tgz"]]
  ∧ (program sample_options
       (mkWorld (Done "/tmp/w") (Done []) (Done ["a.tgz"]) (resolve sample_world)
          (files sample_world) (JSON_parse sample_world) (Done tt) "localhost"
          (λ _, Throws "Command 'npm' exited with error code 1") 4 []
          (Returns tt) false (Done tt) 1) true).2 = Pending.
Proof. by vm_compute. Qed.

(** X19. Apart from the rule at ["**"], the configuration of the serve
    phase has a rule for a name exactly when the name is a mask given with
    [--hide-upstream] or, with [--hide-tarballs], the package name of a
    collected tarball; the rule has no proxy; no other name has a rule.
    The name [__proto__], which an assignment does not make a key of an
    object, is left aside. *)
Theorem serve_config_hides_exactly (argv : options) (tempDir : string)
    (tarballs : list TarballInfo) (mask : string) :
  mask ≠ "**" →
  mask ≠ "__proto__" →
  (mask ∈ hide_upstream argv
   ∨ (hide_tarballs argv = true ∧ ∃ t, t ∈ tarballs ∧ name (packageJson t) = mask) →
   packages (serve_config argv tempDir tarballs) !! mask = Some hidden_rule)
  ∧ (¬ (mask ∈ hide_upstream argv
        ∨ (hide_tarballs argv = true ∧ ∃ t, t ∈ tarballs ∧ name (packageJson t) = mask)) →
     packages (serve_config argv tempDir tarballs) !! mask = None).
Proof.
  intros Hne Hproto.
  assert (Hin : mask ∈ packagesToHide argv tarballs
    ↔ mask ∈ hide_upstream argv
      ∨ (hide_tarballs argv = true ∧ ∃ t, t ∈ tarballs ∧ name (packageJson t) = mask)).
  { unfold packagesToHide. rewrite elem_of_app. destruct (hide_tarballs argv).
    - rewrite list_elem_of_fmap. split.
      + intros [?|(t & -> & Ht)]; [by left|right; split; [done|by exists t]].
      + intros [?|[_ (t & Ht & <-)]]; [by left|right; by exists t].
    - rewrite elem_of_nil. split; [intros [?|[]]; by left|].
      intros [?|[? _]]; [by left|done]. }
  unfold serve_config, makeVerdaccioConfig, finalPackageConfig, hide. cbn [packages].
  rewrite lookup_assign_ne by done. rewrite hide_masks_lookup by done. split.
  - intros H%Hin. by rewrite decide_True.
  - intros H. rewrite decide_False; [done|]. by rewrite Hin.
Qed.

Lemma serve_config_hides_exactly_witness :
  packages (serve_config sample_options "/tmp/w" [mkTarballInfo "dist/a.tgz" (mkManifest "a")])
    !! "a" = Some hidden_rule.
Proof.
  apply (serve_config_hides_exactly sample_options "/tmp/w"
           [mkTarballInfo "dist/a.tgz" (mkManifest "a")] "a"); [done|done|].
  right. split; [done|]. exists (mkTarballInfo "dist/a.tgz" (mkManifest "a")).
  split; [apply list_elem_of_here|done].
Defined.

(** ** File names *)

Lemma substring_all (s : string) : substring 0 (String.length s) s = s.
Proof. induction s as [|c s IH]; simpl; [done|by rewrite IH]. Qed.

Lemma substring_skip (p s : string) (m : nat) :
  substring (String.length p) m (p +:+ s) = substring 0 m s.
Proof. induction p as [|c p IH]; [done|]. rewrite append_cons. simpl. apply IH. Qed.

Lemma length_append (a b : string) :
  String.length (a +:+ b) = String.length a + String.length b.
Proof. induction a as [|c a IH]; [done|]. rewrite append_cons. simpl. by rewrite IH. Qed.

Lemma substring_split (k : nat) (s : string) :
  k ≤ String.length s →
  s = substring 0 k s +:+ substring k (String.length s - k) s.
Proof.
  revert s. induction k as [|k IH]; intros s Hk.
  - rewrite Nat.sub_0_r, substring_all. by destruct s.
  - destruct s as [|c s]; simpl in *; [lia|].
    rewrite append_cons. f_equal. apply IH. lia.
Qed.

Lemma endsWith_spec (s suffix : string) :
  endsWith s suffix = true ↔ ∃ p, s = p +:+ suffix.
Proof.
  unfold endsWith. rewrite andb_true_iff, Nat.leb_le, String.eqb_eq. split.
  - intros [Hlen Hsub]. exists (substring 0 (String.length s - String.length suffix) s).
    pose proof (substring_split (String.length s - String.length suffix) s) as Hsplit.
    replace (String.length s - (String.length s - String.length suffix))
      with (String.length suffix) in Hsplit by lia.
    rewrite Hsub in Hsplit. apply Hsplit. lia.
  - intros [p ->]. rewrite length_append. split; [lia|].
    replace (String.length p + String.length suffix - String.length suffix)
      with (String.length p) by lia.
    by rewrite substring_skip, substring_all.
Qed.

(** X20. Without [--glob], the tarballs are the entries of the directory
    whose names end in [.tgz], each resolved against the directory, in the
    order of the directory; other entries are not looked at. *)
Theorem directory_lists_tgz_files (argv : options) (w : world) (entries : list string) :
  glob argv = None →
  readdir w = Done entries →
  ∃ tarballFiles,
    list_tarballs argv w = ([], Returns tarballFiles)
    ∧ tarballFiles `sublist_of` (resolve w (default "." (directory argv)) <$> entries)
    ∧ ∀ t, t ∈ tarballFiles
           ↔ ∃ f p, f ∈ entries ∧ f = p +:+ ".tgz"
                    ∧ t = resolve w (default "." (directory argv)) f.
Proof.
  intros Hglob Hdir. unfold list_tarballs, directory_tarballs. rewrite Hglob, Hdir.
  eexists. split; [done|]. split.
  - apply fmap_sublist, sublist_filter.
  - intros t. rewrite list_elem_of_fmap. split.
    + intros (f & -> & [Hends Hf]%list_elem_of_filter).
      apply endsWith_spec in Hends as [p ->]. by exists (p +:+ ".tgz"), p.
    + intros (f & p & Hf & -> & ->). exists (p +:+ ".tgz"). split; [done|].
      apply list_elem_of_filter. split; [|done]. apply endsWith_spec. by exists p.
Qed.

Lemma directory_lists_tgz_files_witness :
  ∃ tarballFiles,
    list_tarballs sample_options sample_world = ([], Returns tarballFiles)
    ∧ tarballFiles
      `sublist_of` (resolve sample_world (default "." (directory sample_options))
                      <$> ["a.tgz"; "b.txt"; "c.tgz"])
    ∧ ∀ t, t ∈ tarballFiles
           ↔ ∃ f p, f ∈ ["a.tgz"; "b.txt"; "c.tgz"] ∧ f = p +:+ ".tgz"
                    ∧ t = resolve sample_world (default "." (directory sample_options)) f.
Proof.
  exact (directory_lists_tgz_files sample_options sample_world
           ["a.tgz"; "b.txt"; "c.tgz"] eq_refl eq_refl).
Defined.

(** ** The command of a single run *)

Section CommandFacts.
Variable argv : options.
Variable w : world.

Lemma exits_silent {X : Type} (m : M X) :
  silent is_exit m → filter (λ ev, is_exit ev = true) m.1 = [].
Proof.
  unfold silent. induction 1 as [|ev t Hev _ IH]; [done|].
  rewrite filter_cons_False; [done|]. by rewrite Hev.
Qed.

Lemma exits_warning : filter (λ ev, is_exit ev = true) (rmdir_warning w) = [].
Proof. unfold rmdir_warning. by destruct (rmdir w). Qed.

Lemma command_action_result (vars : list (string * string)) :
  (command_action argv w vars).2
  = match subprocess w with Returns _ => Returns tt | r => r end.
Proof.
  unfold command_action, invokeSubprocess. rewrite !bind_result. simpl.
  destruct (verbose argv =? 0); simpl; destruct (subprocess w) as [[]|e|]; simpl;
    try done; apply debug_result.
Qed.

Lemma command_action_spawns (vars : list (string * string)) :
  Spawn (command argv) vars ∈ (command_action argv w vars).1.
Proof.
  unfold command_action, invokeSubprocess. rewrite !bind_trace. simpl.
  destruct (verbose argv =? 0); simpl; set_solver.
Qed.

Lemma runVerdaccio_runs_block (config : verdaccio_config) (block : M unit) (ev : event) :
  ev ∈ block.1 → ev ∈ (runVerdaccio argv w config block).1.
Proof.
  intros Hev. unfold runVerdaccio.
  rewrite bind_trace. simpl (emit _).2. cbv beta iota. apply elem_of_app. right.
  rewrite bind_trace, debug_result. cbv beta iota. apply elem_of_app. right.
  rewrite bind_trace. simpl (emit _).2. cbv beta iota. apply elem_of_app. right.
  destruct block as [t [[]|e|]]; simpl in *; set_solver.
Qed.

Lemma publish_phase_passed (tempDir : string) (tarballs : list TarballInfo) :
  tarballs = [] ∨ publish_all w tarballs = Returns tt →
  (publish_phase argv w tempDir tarballs).2 = Returns tt.
Proof.
  intros [->|Hpub]; [done|]. destruct tarballs as [|t ts]; [done|].
  by rewrite publish_phase_result, Hpub.
Qed.

Lemma attempt_reaches_action (tempDir : string) (tarballs : list TarballInfo)
    (action : list (string * string) → M unit) :
  (collect_tarballs argv w).2 = Returns tarballs →
  writeFile w = Done tt →
  tarballs = [] ∨ publish_all w tarballs = Returns tt →
  (∀ ev, ev ∈ (action (npmConfigVars argv w tempDir)).1
         → ev ∈ (attempt argv w tempDir action).1)
  ∧ (attempt argv w tempDir action).2
    = match (action (npmConfigVars argv w tempDir)).2 with
      | Returns _ => Returns tt
      | r => r
      end.
Proof.
  intros Hcollect Hwrite Hpub. apply (publish_phase_passed tempDir) in Hpub.
  unfold attempt. split.
  - intros ev Hev. rewrite bind_trace, debug_result. cbv beta iota.
    apply elem_of_app. right.
    rewrite bind_trace, Hcollect. cbv beta iota. apply elem_of_app. right.
    rewrite bind_trace, Hwrite. simpl (lift _).2. cbv beta iota. apply elem_of_app. right.
    rewrite bind_trace. simpl (emit _).2. cbv beta iota. apply elem_of_app. right.
    rewrite bind_trace, Hpub. cbv beta iota. apply elem_of_app. right.
    unfold serve_phase. rewrite bind_trace, debug_result. cbv beta iota.
    apply elem_of_app. right. by apply runVerdaccio_runs_block.
  - rewrite bind_result, debug_result. cbv beta iota.
    rewrite bind_result, Hcollect. cbv beta iota.
    rewrite bind_result, Hwrite. simpl (lift _).2. cbv beta iota.
    rewrite bind_result. simpl (emit _).2. cbv beta iota.
    rewrite bind_result, Hpub. cbv beta iota.
    unfold serve_phase. rewrite bind_result, debug_result. cbv beta iota.
    apply runVerdaccio_result.
Qed.

End CommandFacts.

(** X21. A single run whose preparation goes through runs the command
    with the four variables of the registry in its environment. The exit
    code is set, to 1, exactly when the command fails, and the message of
    the failure is then written on standard error; the run ends when the
    command does. *)
Theorem command_failure_sets_exit_code (argv : options) (w : world) (child : bool)
    (tempDir : string) (tarballs : list TarballInfo) :
  daemon argv = false →
  command argv ≠ [] →
  mkdtemp w = Done tempDir →
  (collect_tarballs argv w).2 = Returns tarballs →
  writeFile w = Done tt →
  tarballs = [] ∨ publish_all w tarballs = Returns tt →
  Spawn (command argv) (npmConfigVars argv w tempDir) ∈ (program argv w child).1
  ∧ filter (λ ev, is_exit ev = true) (program argv w child).1
    = match subprocess w with Throws _ => [ExitCode 1] | _ => [] end
  ∧ (∀ e, subprocess w = Throws e → Stderr e ∈ (program argv w child).1)
  ∧ (program argv w child).2
    = match subprocess w with Pending => Pending | _ => Returns tt end.
Proof.
  intros Hdaemon Hcmd Hdir Hcollect Hwrite Hpub.
  assert (Hmode : runs_server argv child = true).
  { unfold runs_server. rewrite Hdaemon. apply bool_decide_eq_true_2.
    destruct (command argv); [done|simpl; lia]. }
  rewrite (program_runs_server argv w child tempDir) by done.
  rewrite runWithServer_result, (runWithServer_trace argv w _ tempDir Hdir), Hdir.
  destruct (attempt_reaches_action argv w tempDir tarballs (action_of argv w)
              Hcollect Hwrite Hpub) as [Hruns Hres].
  assert (Hquiet : silent is_exit (attempt argv w tempDir (action_of argv w))).
  { apply silent_attempt; try done. intros vars. by apply silent_action. }
  rewrite Hres. unfold action_of in *. rewrite Hdaemon in *.
  rewrite command_action_result.
  split; [|split; [|split]].
  - apply elem_of_app. left. apply Hruns, command_action_spawns.
  - rewrite filter_app, (exits_silent _ Hquiet).
    destruct (subprocess w) as [[]|e|]; simpl; [| |done].
    + rewrite filter_cons_False by (by intros ?). apply exits_warning.
    + rewrite filter_cons_False by (by intros ?). rewrite filter_cons_True by done.
      rewrite filter_cons_False by (by intros ?). by rewrite exits_warning.
  - intros e He. rewrite He. apply elem_of_app. right. simpl. apply list_elem_of_here.
  - by destruct (subprocess w) as [[]|e|].
Qed.

Lemma command_failure_sets_exit_code_witness :
  filter (λ ev, is_exit ev = true)
    (program (mkOptions 0 (Some "dist") None None 4873 "info" [] false false ["sh"])
       (mkWorld (Done "/tmp/w") (Done []) (Done []) (λ dir f, f) (λ f, Unreadable "ENOENT")
          (λ text, Failed "bad json") (Done tt) "localhost" (λ _, Returns tt) 4 []
          (Throws "Command 'sh' exited with error code 2") false (Done tt) 1) false).1
  = [ExitCode 1].
Proof.
  apply (command_failure_sets_exit_code
           (mkOptions 0 (Some "dist") None None 4873 "info" [] false false ["sh"])
           (mkWorld (Done "/tmp/w") (Done []) (Done []) (λ dir f, f) (λ f, Unreadable "ENOENT")
              (λ text, Failed "bad json") (Done tt) "localhost" (λ _, Returns tt) 4 []
              (Throws "Command 'sh' exited with error code 2") false (Done tt) 1) false
           "/tmp/w" []); [reflexivity|discriminate|reflexivity|reflexivity|reflexivity|].
  left. reflexivity.
Defined.

(** ** The earlier variant of the front end *)

(** X22. The earlier front end starts one registry, on port 6000, with
    its fixed configuration, and runs the command in it. The listener is closed when the command ends, also when
    it fails; the exit code is set, to 1, exactly when the command fails;
    while the command runs the registry stays up. *)
Theorem legacy_closes_after_command (argv : options) (w : world) :
  command argv ≠ [] →
  registry (Legacy.program argv w).1
  = [StartVerdaccio (Legacy.configJson argv) 6000; Listen 6000]
    ++ match subprocess w with Pending => [] | _ => [Close 6000] end
  ∧ filter (λ ev, is_exit ev = true) (Legacy.program argv w).1
    = match subprocess w with Throws _ => [ExitCode 1] | _ => [] end
  ∧ Spawn (command argv) [] ∈ (Legacy.program argv w).1
  ∧ (Legacy.program argv w).2
    = match subprocess w with Pending => Pending | _ => Returns tt end.
Proof.
  intros Hcmd. unfold Legacy.program, Legacy.main, Legacy.serve, Legacy.port.
  rewrite bool_decide_eq_false_2.
  2:{ destruct (command argv); [done|simpl; lia]. }
  unfold invokeSubprocess, debug, registry.
  destruct (verbose argv =? 0), (subprocess w) as [[]|e|]; simpl;
    rewrite ?filter_cons_True by done; rewrite ?filter_cons_False by (by intros ?);
    rewrite ?filter_cons_True by done; rewrite ?filter_cons_False by (by intros ?);
    rewrite ?filter_cons_True by done; rewrite ?filter_cons_False by (by intros ?);
    (split; [done|]); (split; [done|]); (split; [|done]); set_solver.
Qed.

Lemma legacy_closes_after_command_witness :
  registry (Legacy.program
              (mkOptions 0 (Some "dist") None None 4873 "info" [] false false ["sh"])
              sample_world).1
  = [StartVerdaccio (Legacy.configJson
                       (mkOptions 0 (Some "dist") None None 4873 "info" [] false false ["sh"]))
       6000; Listen 6000] ++ [Close 6000].
Proof.
  apply (legacy_closes_after_command
           (mkOptions 0 (Some "dist") None None 4873 "info" [] false false ["sh"])
           sample_world).
  discriminate.
Defined.

(** ** The child of the daemon *)

Section DaemonRun.
Variable argv : options.
Variable w : world.

Lemma daemon_action_result (vars : list (string * string)) :
  (daemon_action argv w vars).2 = if signalled w then Returns tt else Pending.
Proof.
  unfold daemon_action. rewrite bind_result. simpl (emit _).2. cbv beta iota.
  rewrite bind_result, debug_result. cbv beta iota.
  destruct (signalled w); [apply debug_result|done].
Qed.

Lemma registry_attempt_serve (tempDir : string) (tarballs : list TarballInfo)
    (action : list (string * string) → M unit) :
  (collect_tarballs argv w).2 = Returns tarballs →
  writeFile w = Done tt →
  tarballs = [] ∨ publish_all w tarballs = Returns tt →
  registry (attempt argv w tempDir action).1
  = registry (publish_phase argv w tempDir tarballs).1
    ++ registry (serve_phase argv w tempDir tarballs action).1.
Proof.
  intros Hcollect Hwrite Hpub. apply (publish_phase_passed argv w tempDir) in Hpub.
  unfold attempt.
  rewrite (registry_bind_silent _ _ tt); [|by apply silent_debug|apply debug_result].
  rewrite (registry_bind_silent _ _ tarballs); [|by apply silent_collect_tarballs|done].
  rewrite Hwrite.
  rewrite (registry_bind_silent _ _ tt); [|apply silent_lift|done].
  rewrite (registry_bind_silent _ _ tt); [|by apply silent_emit|done].
  by rewrite registry_bind, Hpub.
Qed.

Lemma not_in_silent {X : Type} (kind : event → bool) (m : M X) (ev : event) :
  silent kind m → kind ev = true → ev ∉ m.1.
Proof.
  unfold silent. rewrite Forall_forall. intros Hm Hev Hin.
  apply Hm in Hin. congruence.
Qed.

End DaemonRun.

(** X23. The child of the daemon, once its preparation has gone through,
    serves until a signal arrives: without a signal the run does not end,
    the registry of the serve phase is the last one started and it is not
    closed, and the working directory is not removed; with a signal the
    registry is closed, the directory is removed and the run ends. *)
Theorem daemon_serves_until_signalled (argv : options) (w : world)
    (tempDir : string) (tarballs : list TarballInfo) :
  daemon argv = true →
  command argv = [] →
  mkdtemp w = Done tempDir →
  (collect_tarballs argv w).2 = Returns tarballs →
  writeFile w = Done tt →
  tarballs = [] ∨ publish_all w tarballs = Returns tt →
  (program argv w true).2 = (if signalled w then Returns tt else Pending)
  ∧ (∃ pre, registry (program argv w true).1
            = pre ++ [StartVerdaccio (serve_config argv tempDir tarballs) (port argv);
                      Listen (port argv)]
                  ++ if signalled w then [Close (port argv)] else [])
  ∧ (Rmdir tempDir ∈ (program argv w true).1 ↔ signalled w = true).
Proof.
  intros Hdaemon Hcmd Hdir Hcollect Hwrite Hpub.
  assert (Hmode : runs_server argv true = true).
  { unfold runs_server. by rewrite Hdaemon, Hcmd. }
  rewrite (program_runs_server argv w true tempDir) by done.
  destruct (attempt_reaches_action argv w tempDir tarballs (action_of argv w)
              Hcollect Hwrite Hpub) as [_ Hres].
  assert (Haction : (action_of argv w (npmConfigVars argv w tempDir)).2
                    = if signalled w then Returns tt else Pending).
  { unfold action_of. rewrite Hdaemon. apply daemon_action_result. }
  rewrite Haction in Hres.
  split; [|split].
  - rewrite runWithServer_result, Hdir, Hres. by destruct (signalled w).
  - rewrite (registry_runWithServer argv w _ tempDir Hdir).
    rewrite (registry_attempt_serve argv w tempDir tarballs) by done.
    rewrite registry_serve_phase, Haction.
    exists (registry (publish_phase argv w tempDir tarballs).1).
    by destruct (signalled w).
  - rewrite (runWithServer_trace argv w _ tempDir Hdir), Hres.
    assert (Hquiet : silent is_rmdir (attempt argv w tempDir (action_of argv w))).
    { apply silent_attempt; try done. intros vars. by apply silent_action. }
    pose proof (not_in_silent is_rmdir _ (Rmdir tempDir) Hquiet eq_refl) as Hnot.
    destruct (signalled w).
    + split; [done|]. intros _. apply elem_of_app. right. apply list_elem_of_here.
    + rewrite app_nil_r. split; [done|discriminate].
Qed.

Lemma daemon_serves_until_signalled_witness :
  (program sample_options sample_world true).2
  = (if signalled sample_world then Returns tt else Pending).
Proof.
  apply (daemon_serves_until_signalled sample_options sample_world
           "/tmp/serve-npm-tarballs-abc" [mkTarballInfo "dist/a.tgz" (mkManifest "a")]);
    [reflexivity|reflexivity|reflexivity|reflexivity|reflexivity|].
  right. reflexivity.
Defined.
